(** * react-canvas-draw: flood fill and gesture state machine

    A shallow embedding of three source files:
    - [src/index.js]: the [floodFill] method of the [CanvasDraw] component
      (a stack-driven fill over a [Uint32Array] view of the canvas pixels),
      [drawPoints], [saveLine] and [clampPointToDocument];
    - [src/FloodFill.js]: the [FloodFill] class (a span fill over image
      data, parametrised by pluggable pixel utilities);
    - [src/interactionStateMachine.js]: the gesture states and their four
      event handlers.

    JavaScript numbers that hold pixel coordinates, array indices, packed
    colours and millisecond time stamps are integers and are modelled by
    [Z]; pointer coordinates and scales are IEEE doubles and are modelled by
    primitive floats. *)

From Stdlib Require Import ZArith Lia Bool String Ascii Floats.
From stdpp Require Import base list.

Local Open Scope Z_scope.

(** ** Part I: [CanvasDraw.floodFill] of [src/index.js] *)

Module Pixels.

(** [pixelData]: [{ width, height, data: new Uint32Array(...) }].  A
    [Uint32Array] holds one packed colour per pixel. *)
Record PixelData : Type := mkPixelData {
  width : Z;
  height : Z;
  data : list Z
}.

(** Reading a typed array: an index outside the array reads [undefined],
    which is [None] here. *)
Definition read (l : list Z) (i : Z) : option Z :=
  if i <? 0 then None else l !! Z.to_nat i.

(** Writing a typed array: an index outside the array is ignored (a typed
    array never grows), and a stored number is reduced modulo [2^32]. *)
Definition write (l : list Z) (i : Z) (v : Z) : list Z :=
  if (0 <=? i) && (i <? Z.of_nat (length l))
  then <[Z.to_nat i := v mod 2 ^ 32]> l
  else l.

(** [getPixel(pixelData, x, y)]: the sentinel [-1] ("impossible color")
    outside the buffer, the stored colour inside. *)
Definition getPixel (pd : PixelData) (x y : Z) : option Z :=
  if (x <? 0) || (y <? 0) || (x >=? width pd) || (y >=? height pd)
  then Some (-1)
  else read (data pd) (y * width pd + x).

(** [pixelData.data[y * pixelData.width + x] = fillColor] *)
Definition setPixel (pd : PixelData) (x y : Z) (fillColor : Z) : PixelData :=
  mkPixelData (width pd) (height pd)
              (write (data pd) (y * width pd + x) fillColor).

(** One iteration of [while (pixelsToCheck.length > 0)], after the two
    [pop]s gave [(x, y)].  [pixelsToCheck] is a flat array to which
    coordinates are pushed and from which they are popped two by two; it is
    modelled as a list of pairs whose head is the top of the stack, so the
    four pushes [(x+1,y)], [(x-1,y)], [(x,y+1)], [(x,y-1)] leave [(x,y-1)] on
    top. *)
Definition loop_body (targetColor : option Z) (fillColor : Z)
    (x y : Z) (rest : list (Z * Z)) (pd : PixelData)
  : list (Z * Z) * PixelData :=
  let currentColor := getPixel pd x y in
  if decide (currentColor = targetColor)
  then ((x, y - 1) :: (x, y + 1) :: (x - 1, y) :: (x + 1, y) :: rest,
        setPixel pd x y fillColor)
  else (rest, pd).

(** The [while] loop.  [None] means that the loop is still running when
    the fuel is spent. *)
Fixpoint fill_loop (fuel : nat) (targetColor : option Z) (fillColor : Z)
    (pixelsToCheck : list (Z * Z)) (pd : PixelData) : option PixelData :=
  match pixelsToCheck with
  | [] => Some pd
  | (x, y) :: rest =>
      match fuel with
      | O => None
      | S fuel' =>
          let '(stack', pd') := loop_body targetColor fillColor x y rest pd in
          fill_loop fuel' targetColor fillColor stack' pd'
      end
  end.

(** The state of the loop (stack and pixels) after [n] iterations, or at
    its exit when that comes earlier. *)
Fixpoint fill_trace (n : nat) (targetColor : option Z) (fillColor : Z)
    (pixelsToCheck : list (Z * Z)) (pd : PixelData)
  : list (Z * Z) * PixelData :=
  match n, pixelsToCheck with
  | S n', (x, y) :: rest =>
      let '(stack', pd') := loop_body targetColor fillColor x y rest pd in
      fill_trace n' targetColor fillColor stack' pd'
  | _, _ => (pixelsToCheck, pd)
  end.

(** [floodFill(ctx, x, y, fillColor)], on the pixels read from the context
    and with [fillColor] already converted by [cssTo32BitColor] (an element
    of a [Uint32Array], so a number below [2^32]).  The result is the pixel
    data that [putImageData] writes back; when target and fill colour are
    the same nothing is written back and the canvas keeps [pd]. *)
Definition floodFill (fuel : nat) (pd : PixelData) (x y : Z) (fillColor : Z)
  : option PixelData :=
  let targetColor := getPixel pd x y in
  if decide (targetColor <> Some fillColor)
  then fill_loop fuel targetColor fillColor [(x, y)] pd
  else Some pd.

(** *** Well-formed buffers and regions *)

Definition color32 (c : Z) : Prop := 0 <= c < 2 ^ 32.

(** What [new Uint32Array(imageData.data.buffer)] guarantees: one 32-bit
    element per pixel. *)
Definition wf (pd : PixelData) : Prop :=
  0 <= width pd /\ 0 <= height pd /\
  Z.of_nat (length (data pd)) = width pd * height pd /\
  Forall color32 (data pd).

Definition inb (pd : PixelData) (x y : Z) : Prop :=
  0 <= x < width pd /\ 0 <= y < height pd.

Definition adjacent (p q : Z * Z) : Prop :=
  Z.abs (fst p - fst q) + Z.abs (snd p - snd q) = 1.

(** The 4-connected region of colour [S] around the seed. *)
Inductive region (pd : PixelData) (S : Z) (seed : Z * Z) : Z * Z -> Prop :=
| region_seed :
    getPixel pd (fst seed) (snd seed) = Some S -> region pd S seed seed
| region_step p q :
    region pd S seed p -> adjacent p q ->
    getPixel pd (fst q) (snd q) = Some S -> region pd S seed q.

(** The fuel that always suffices for an in-bounds seed. *)
Definition enough_fuel (pd : PixelData) : nat :=
  5 * length (data pd) + 2.

(** The number of pixels that still hold colour [S]: the measure under
    which the loop ends. *)
Definition count_color (S : Z) (l : list Z) : nat :=
  length (filter (fun c => c = S) l).

(** The loop invariant, for a fill of target colour [S] by [F] started on
    the pixels [pd0] at [seed]. *)
Record fill_inv (pd0 : PixelData) (S F : Z) (seed : Z * Z)
    (stack : list (Z * Z)) (pd : PixelData) : Prop := mkFillInv {
  inv_width : width pd = width pd0;
  inv_height : height pd = height pd0;
  inv_wf : wf pd;
  inv_pix : forall x y,
    getPixel pd x y = getPixel pd0 x y \/
    (getPixel pd x y = Some F /\ region pd0 S seed (x, y));
  inv_stack : forall q, q ∈ stack ->
    getPixel pd0 (fst q) (snd q) = Some S -> region pd0 S seed q;
  inv_front : forall p q,
    region pd0 S seed p -> getPixel pd (fst p) (snd p) = Some F ->
    adjacent p q -> getPixel pd (fst q) (snd q) = Some S -> q ∈ stack;
  inv_seed : getPixel pd (fst seed) (snd seed) = Some S -> seed ∈ stack
}.

(** "Paints the entire contiguous horizontal span in one pass", read on
    the loop of [floodFill]: after its first pass every column [i] that is
    joined to the seed column along row [y] by pixels of the seed's colour
    holds the fill colour. *)
Definition span_painted_in_one_pass (pd : PixelData) (x y F : Z) : Prop :=
  let pd' := snd (fill_trace 1 (getPixel pd x y) F [(x, y)] pd) in
  forall i,
    (forall j, Z.min i x <= j <= Z.max i x ->
               getPixel pd j y = getPixel pd x y) ->
    getPixel pd' i y = Some F.

Definition white : Z := 0xFFFFFFFF.
Definition black : Z := 0xFF000000.
Definition red : Z := 0xFF0000FF.

End Pixels.

(** ** Part II: the [FloodFill] class of [src/FloodFill.js] *)

Module SpanFill.

(** The pixel utilities that the class imports from [./FloodFillUtils] and
    stores in its own fields ("Allow for custom implementations of the
    following methods"), together with the two fields of [imageData] that
    the class reads itself.  They are an interface here. *)
Class ImageOps (Img Color : Type) : Type := {
  img_width : Img -> Z;
  img_height : Img -> Z;
  isSameColor : Color -> Color -> Z -> bool;
  setColorAtPixel : Img -> Color -> Z -> Z -> Img;
  getColorAtPixel : Img -> Z -> Z -> Color
}.

(** [n | 0]: the signed 32-bit reading of an integer. *)
Definition toInt32 (n : Z) : Z := (n + 2 ^ 31) mod 2 ^ 32 - 2 ^ 31.

Inductive Direction : Type := Left | Right.

(** A queued line: [[startX, endX, y, parentY]]. *)
Definition Line : Type := (Z * Z * Z * Z)%type.

Section Class.

Context {Img Color : Type} `{ImageOps Img Color}.

(** The object, once [fill] has assigned [_newColor], [_replacedColor] and
    [_tolerance].  [_queue] is used as a stack ([push] and [pop]); its head
    is the last line pushed.  ([modifiedPixelsCount] and [modifiedPixels]
    are never read and are left out.) *)
Record FloodFill : Type := mkFloodFill {
  imageData : Img;
  _tolerance : Z;
  _queue : list Line;
  _replacedColor : Color;
  _newColor : Color
}.

Definition set_imageData (this : FloodFill) (img : Img) : FloodFill :=
  mkFloodFill img (_tolerance this) (_queue this)
              (_replacedColor this) (_newColor this).

Definition addToQueue (this : FloodFill) (line : Line) : FloodFill :=
  mkFloodFill (imageData this) (_tolerance this) (line :: _queue this)
              (_replacedColor this) (_newColor this).

(** [popFromQueue()]: [null] on an empty queue. *)
Definition popFromQueue (this : FloodFill) : option Line * FloodFill :=
  match _queue this with
  | [] => (None, this)
  | line :: rest =>
      (Some line,
       mkFloodFill (imageData this) (_tolerance this) rest
                   (_replacedColor this) (_newColor this))
  end.

(** [isValidTarget(pixel)]: [undefined] (false) for [null]. *)
Definition isValidTarget (this : FloodFill) (pixel : option (Z * Z)) : bool :=
  match pixel with
  | None => false
  | Some (x, y) =>
      let pixelColor := getColorAtPixel (imageData this) x y in
      isSameColor (_replacedColor this) pixelColor (_tolerance this)
  end.

Definition setPixelColor (this : FloodFill) (color : Color) (pixel : Z * Z)
  : FloodFill :=
  set_imageData this
    (setColorAtPixel (imageData this) color (fst pixel) (snd pixel)).

(** [getPixelNeighbour(direction, x, y)]: [null] beyond the left or right
    border. *)
Definition getPixelNeighbour (this : FloodFill) (direction : Direction)
    (x y : Z) : option (Z * Z) :=
  let x := toInt32 x in
  let y := toInt32 y in
  let coords :=
    match direction with
    | Right => (toInt32 (x + 1), y)
    | Left => (toInt32 (x - 1), y)
    end in
  if (fst coords >=? 0) && (fst coords <? img_width (imageData this))
  then Some coords
  else None.

(** The two loops of [fillLineAt],
    [while (px && this.isValidTarget(px)) { ... }], which differ by the
    direction only.  [edge] is [minX] or [maxX]. *)
Fixpoint scan (fuel : nat) (direction : Direction) (this : FloodFill)
    (edge y : Z) (px : option (Z * Z)) : option (FloodFill * Z) :=
  match px with
  | Some p =>
      if isValidTarget this (Some p) then
        match fuel with
        | O => None
        | S fuel' =>
            let this := setPixelColor this (_newColor this) p in
            let edge := fst p in
            scan fuel' direction this edge y
                 (getPixelNeighbour this direction edge y)
        end
      else Some (this, edge)
  | None => Some (this, edge)
  end.

(** [fillLineAt(x, y)]: the span painted, or [[-1, -1]]. *)
Definition fillLineAt (fuel : nat) (this : FloodFill) (x y : Z)
  : option (FloodFill * (Z * Z)) :=
  if negb (isValidTarget this (Some (x, y))) then Some (this, (-1, -1))
  else
    let this := setPixelColor this (_newColor this) (x, y) in
    match scan fuel Left this x y (getPixelNeighbour this Left x y) with
    | None => None
    | Some (this, minX) =>
        match scan fuel Right this x y (getPixelNeighbour this Right x y) with
        | None => None
        | Some (this, maxX) => Some (this, (minX, maxX))
        end
    end.

(** The [if (lineStart !== -1) { ... }] block of [fillQueue]. *)
Definition enqueue_rows (this : FloodFill) (start end_ y parentY : Z)
    (lineStart lineEnd : Z) : FloodFill :=
  if negb (lineStart =? -1) then
    if (lineStart >=? start) && (lineEnd <=? end_) && negb (parentY =? -1)
    then
      let this :=
        if (parentY <? y) && (y + 1 <? img_height (imageData this))
        then addToQueue this (lineStart, lineEnd, y + 1, y) else this in
      if (parentY >? y) && (y >? 0)
      then addToQueue this (lineStart, lineEnd, y - 1, y) else this
    else
      let this :=
        if y >? 0
        then addToQueue this (lineStart, lineEnd, y - 1, y) else this in
      if y + 1 <? img_height (imageData this)
      then addToQueue this (lineStart, lineEnd, y + 1, y) else this
  else this.

(** The inner loop of [fillQueue],
    [while (currX !== -1 && currX <= end) { ... }]. *)
Fixpoint line_loop (fuel : nat) (this : FloodFill)
    (start end_ y parentY currX : Z) : option FloodFill :=
  if negb (currX =? -1) && (currX <=? end_) then
    match fuel with
    | O => None
    | S fuel' =>
        match fillLineAt fuel' this currX y with
        | None => None
        | Some (this, (lineStart, lineEnd)) =>
            let this :=
              enqueue_rows this start end_ y parentY lineStart lineEnd in
            let currX :=
              if (lineEnd =? -1) && (currX <=? end_)
              then currX + 1 else lineEnd + 1 in
            line_loop fuel' this start end_ y parentY currX
        end
    end
  else Some this.

(** [fillQueue()]: [while (line) { ...; line = this.popFromQueue(); }]. *)
Fixpoint fillQueue (fuel : nat) (this : FloodFill) : option FloodFill :=
  match popFromQueue this with
  | (None, this) => Some this
  | (Some (start, end_, y, parentY), this) =>
      match fuel with
      | O => None
      | S fuel' =>
          match line_loop fuel' this start end_ y parentY start with
          | None => None
          | Some this => fillQueue fuel' this
          end
      end
  end.

(** [fill(color, x, y, tolerance)], with [newColor] the result of
    [colorToRGBA(color)]. *)
Definition fill (fuel : nat) (this : FloodFill) (newColor : Color)
    (x y : Z) (tolerance : Z) : option FloodFill :=
  let this :=
    mkFloodFill (imageData this) tolerance (_queue this)
                (getColorAtPixel (imageData this) x y) newColor in
  if isSameColor (_replacedColor this) (_newColor this) (_tolerance this)
  then Some this
  else fillQueue fuel (addToQueue this (x, x, y, -1)).

(** Pixels and spans of an image. *)
Definition in_image (img : Img) (x y : Z) : Prop :=
  0 <= x < img_width img /\ 0 <= y < img_height img.

(** The column that lies [j] steps from [edge] in a direction. *)
Definition column (direction : Direction) (edge j : Z) : Z :=
  match direction with
  | Left => edge - j
  | Right => edge + j
  end.

(** How many columns remain towards the border. *)
Definition room (direction : Direction) (w edge : Z) : nat :=
  match direction with
  | Left => Z.to_nat edge
  | Right => Z.to_nat (w - 1 - edge)
  end.

(** Two states of one fill: the same colours, tolerance, queue and
    dimensions, on images that satisfy [good]. *)
Definition same_fill (good : Img -> Prop) (this this' : FloodFill) : Prop :=
  _tolerance this' = _tolerance this /\
  _replacedColor this' = _replacedColor this /\
  _newColor this' = _newColor this /\
  _queue this' = _queue this /\
  img_width (imageData this') = img_width (imageData this) /\
  img_height (imageData this') = img_height (imageData this) /\
  good (imageData this').

(** What one scan from [edge] on row [y] achieves when it stops in state
    [this'] at column [m]: it has painted the [k] columns beyond [edge] up
    to [m], all of them valid targets; the next column is beyond the
    border or no valid target; and no other pixel has changed. *)
Definition scan_post (good : Img -> Prop) (direction : Direction) (y : Z)
    (this : FloodFill) (edge : Z) (this' : FloodFill) (m : Z) : Prop :=
  exists k,
    m = column direction edge k /\ 0 <= k /\
    0 <= m < img_width (imageData this) /\
    same_fill good this this' /\
    (forall j, 1 <= j <= k ->
       isValidTarget this (Some (column direction edge j, y)) = true /\
       getColorAtPixel (imageData this') (column direction edge j) y
         = _newColor this) /\
    (0 <= column direction edge (k + 1) < img_width (imageData this) ->
     isValidTarget this (Some (column direction edge (k + 1), y)) = false) /\
    (forall a b, in_image (imageData this) a b ->
       (forall j, 1 <= j <= k -> (a, b) <> (column direction edge j, y)) ->
       getColorAtPixel (imageData this') a b
         = getColorAtPixel (imageData this) a b).

(** What [fillLineAt(x, y)] achieves on a valid target when it returns
    [[minX, maxX]] in state [this']: the span from [minX] to [maxX] on row
    [y] contains [x], consisted of valid targets and now holds the new
    colour; it is maximal (beyond each end lies the border or a pixel that
    is no valid target); and no pixel outside the span has changed. *)
Definition span_post (good : Img -> Prop) (this : FloodFill) (x y : Z)
    (this' : FloodFill) (minX maxX : Z) : Prop :=
  0 <= minX <= x /\ x <= maxX < img_width (imageData this) /\
  same_fill good this this' /\
  (forall i, minX <= i <= maxX ->
     isValidTarget this (Some (i, y)) = true /\
     getColorAtPixel (imageData this') i y = _newColor this) /\
  (0 < minX -> isValidTarget this (Some (minX - 1, y)) = false) /\
  (maxX + 1 < img_width (imageData this) ->
   isValidTarget this (Some (maxX + 1, y)) = false) /\
  (forall a b, in_image (imageData this) a b ->
     ~ (b = y /\ minX <= a <= maxX) ->
     getColorAtPixel (imageData this') a b
       = getColorAtPixel (imageData this) a b).

(** The lines that the seed line leaves on the queue: the row below when
    there is one, on top of the row above when there is one. *)
Definition rows_around (img : Img) (minX maxX y : Z) : list Line :=
  (if y + 1 <? img_height img then [(minX, maxX, y + 1, y)] else []) ++
  (if y >? 0 then [(minX, maxX, y - 1, y)] else []).

End Class.

Arguments FloodFill Img Color : clear implicits.

(** *** A reference implementation of the utilities

    Image data as the canvas gives it: four bytes (red, green, blue, alpha)
    per pixel in a [Uint8ClampedArray].  Colours are compared channel by
    channel. *)

Record RGBA : Type := mkRGBA { r : Z; g : Z; b : Z; a : Z }.

Record ImageData : Type := mkImageData {
  width : Z;
  height : Z;
  data : list Z
}.

Definition clamp8 (v : Z) : Z := Z.max 0 (Z.min 255 v).

Definition byte_at (l : list Z) (i : Z) : Z :=
  if i <? 0 then 0 else default 0 (l !! Z.to_nat i).

Definition put_byte (l : list Z) (i : Z) (v : Z) : list Z :=
  if (0 <=? i) && (i <? Z.of_nat (length l))
  then <[Z.to_nat i := clamp8 v]> l
  else l.

Definition rgba_get (img : ImageData) (x y : Z) : RGBA :=
  let startPos := 4 * (y * width img + x) in
  mkRGBA (byte_at (data img) startPos) (byte_at (data img) (startPos + 1))
         (byte_at (data img) (startPos + 2)) (byte_at (data img) (startPos + 3)).

Definition rgba_set (img : ImageData) (c : RGBA) (x y : Z) : ImageData :=
  let startPos := 4 * (y * width img + x) in
  mkImageData (width img) (height img)
    (put_byte (put_byte (put_byte (put_byte (data img) startPos (r c))
                                  (startPos + 1) (g c))
                        (startPos + 2) (b c))
              (startPos + 3) (a c)).

Definition rgba_same (c1 c2 : RGBA) (tolerance : Z) : bool :=
  negb ((Z.abs (r c1 - r c2) >? tolerance) || (Z.abs (g c1 - g c2) >? tolerance)
        || (Z.abs (b c1 - b c2) >? tolerance)
        || (Z.abs (a c1 - a c2) >? tolerance)).

#[export] Instance rgba_ops : ImageOps ImageData RGBA := {
  img_width := width;
  img_height := height;
  isSameColor := rgba_same;
  setColorAtPixel := rgba_set;
  getColorAtPixel := rgba_get
}.

Definition rgba_white : RGBA := mkRGBA 255 255 255 255.
Definition rgba_black : RGBA := mkRGBA 0 0 0 255.
Definition rgba_red : RGBA := mkRGBA 255 0 0 255.

(** A row of three pixels, white, white and black, and a fill object on it
    whose colour fields are still to be assigned by [fill]. *)
Definition row_wwb : ImageData :=
  mkImageData 3 1 [255; 255; 255; 255; 255; 255; 255; 255; 0; 0; 0; 255].

Definition fill_on (img : ImageData) : FloodFill ImageData RGBA :=
  mkFloodFill img 0 [] (mkRGBA 0 0 0 0) (mkRGBA 0 0 0 0).

Definition bytes_of (cs : list RGBA) : list Z :=
  flat_map (fun c => [r c; g c; b c; a c]) cs.

Definition rgba_byte (c : RGBA) : Prop :=
  0 <= r c <= 255 /\ 0 <= g c <= 255 /\ 0 <= b c <= 255 /\ 0 <= a c <= 255.

Definition rgba_wf (img : ImageData) : Prop :=
  0 <= width img /\ 0 <= height img /\
  Z.of_nat (length (data img)) = 4 * (width img * height img).

End SpanFill.

(** ** [CanvasDraw.floodFill] on the numbers that the gesture states pass

    The gesture states call [floodFill] with [Math.round(x)] and
    [Math.round(y)] of a view point.  These are whole numbers, or
    not-a-number or an infinity when the coordinate is one; the fill of
    Part I, on whole numbers, is taken here to all of them. *)

Module Seeds.
Import Pixels.

(** What [Math.round] gives. *)
Inductive Num : Type :=
| Fin (z : Z)
| NaN
| PInf
| NInf.

(** [Math.round(x)]: the whole number nearest to [x], the greater one of
    two that are as near; [-0], which compares and indexes as [0] does, is
    [Fin 0].  A finite double is [n * 2^e] for whole numbers [n] and [e]. *)
Definition Math_round (x : float) : Num :=
  match Prim2SF x with
  | S754_zero _ => Fin 0
  | S754_infinity false => PInf
  | S754_infinity true => NInf
  | S754_nan => NaN
  | S754_finite s m e =>
      let n := if s then Z.neg m else Z.pos m in
      if 0 <=? e then Fin (n * 2 ^ e)
      else Fin ((2 * n + 2 ^ (- e)) / 2 ^ (1 - e))
  end.

(** [n + 1] and [n - 1]: not-a-number and the infinities stay what they
    are. *)
Definition plus1 (n : Num) : Num :=
  match n with
  | Fin z => Fin (z + 1)
  | _ => n
  end.

Definition minus1 (n : Num) : Num :=
  match n with
  | Fin z => Fin (z - 1)
  | _ => n
  end.

(** [n < 0] and [n >= m] for a whole number [m]: every comparison with
    not-a-number is false. *)
Definition lt0 (n : Num) : bool :=
  match n with
  | Fin z => z <? 0
  | NInf => true
  | _ => false
  end.

Definition geq (n : Num) (m : Z) : bool :=
  match n with
  | Fin z => z >=? m
  | PInf => true
  | _ => false
  end.

(** [y * pixelData.width + x] as the index of a typed array: it names an
    element only when it is a whole number, that is when [x] and [y] are
    (a product or a sum with not-a-number or an infinity is one of them). *)
Definition index (width : Z) (x y : Num) : option Z :=
  match x, y with
  | Fin a, Fin b => Some (b * width + a)
  | _, _ => None
  end.

(** [getPixel(pixelData, x, y)]; reading at an index that is no whole
    number gives [undefined]. *)
Definition getPixel (pd : PixelData) (x y : Num) : option Z :=
  if lt0 x || lt0 y || geq x (width pd) || geq y (height pd)
  then Some (-1)
  else
    match index (width pd) x y with
    | Some i => read (data pd) i
    | None => None
    end.

(** [pixelData.data[y * pixelData.width + x] = fillColor]; writing at an
    index that is no whole number does nothing. *)
Definition setPixel (pd : PixelData) (x y : Num) (fillColor : Z) : PixelData :=
  match index (width pd) x y with
  | Some i => mkPixelData (width pd) (height pd) (write (data pd) i fillColor)
  | None => pd
  end.

(** One iteration of the loop, as [Pixels.loop_body]. *)
Definition loop_body (targetColor : option Z) (fillColor : Z)
    (x y : Num) (rest : list (Num * Num)) (pd : PixelData)
  : list (Num * Num) * PixelData :=
  let currentColor := getPixel pd x y in
  if decide (currentColor = targetColor)
  then ((x, minus1 y) :: (x, plus1 y) :: (minus1 x, y) :: (plus1 x, y) :: rest,
        setPixel pd x y fillColor)
  else (rest, pd).

(** The [while] loop, as [Pixels.fill_loop]: [None] means that the loop is
    still running when the fuel is spent. *)
Fixpoint fill_loop (fuel : nat) (targetColor : option Z) (fillColor : Z)
    (pixelsToCheck : list (Num * Num)) (pd : PixelData) : option PixelData :=
  match pixelsToCheck with
  | [] => Some pd
  | (x, y) :: rest =>
      match fuel with
      | O => None
      | S fuel' =>
          let '(stack', pd') := loop_body targetColor fillColor x y rest pd in
          fill_loop fuel' targetColor fillColor stack' pd'
      end
  end.

(** [floodFill(ctx, x, y, fillColor)], as [Pixels.floodFill]. *)
Definition floodFill (fuel : nat) (pd : PixelData) (x y : Num) (fillColor : Z)
  : option PixelData :=
  let targetColor := getPixel pd x y in
  if decide (targetColor <> Some fillColor)
  then fill_loop fuel targetColor fillColor [(x, y)] pd
  else Some pd.

(** A seed that names a pixel of the buffer. *)
Definition inside (pd : PixelData) (x y : Num) : Prop :=
  match x, y with
  | Fin a, Fin b => inb pd a b
  | _, _ => False
  end.

(** A pair of whole numbers as a pair of seed coordinates. *)
Definition whole (q : Z * Z) : Num * Num := (Fin (fst q), Fin (snd q)).

(** A pair of numbers one of which is no whole number. *)
Definition no_pixel (q : Num * Num) : Prop :=
  match q with
  | (Fin _, Fin _) => False
  | _ => True
  end.

End Seeds.

(** ** Part III: the gesture states of [src/interactionStateMachine.js] *)

Module Gesture.

Local Open Scope float_scope.

Definition TOUCH_SLOP : float := 10.
Definition PINCH_TIMEOUT_MS : Z := 250.

(** [{ clientX, clientY }]: a point in client space; also a [Touch]. *)
Record ClientPoint : Type := mkClientPoint { clientX : float; clientY : float }.

(** [{ x, y }]: a point in document (view) space. *)
Record Point : Type := mkPoint { px : float; py : float }.

(** The fields of a pointer, touch or wheel event that the handlers read.
    A coordinate that the event lacks is not-a-number, as it is in every
    subtraction the handlers perform on it; [touches] and [changedTouches]
    are [None] when the event has no such list.  [synthetic] tells a
    [SyntheticEvent], whose [preventDefault] does nothing, from an event of
    the browser. *)
Record Event : Type := mkEvent {
  ev_clientX : float;
  ev_clientY : float;
  ctrlKey : bool;
  deltaY : float;
  touches : option (list ClientPoint);
  changedTouches : option (list ClientPoint);
  synthetic : bool
}.

(** [new SyntheticEvent({ clientX, clientY })] *)
Definition SyntheticEvent (pt : ClientPoint) : Event :=
  mkEvent (clientX pt) (clientY pt) false nan
          (Some [mkClientPoint (clientX pt) (clientY pt)]) None true.

(** [clientPointFromEvent(e)]: the cursor position, or the first changed
    touch when there is one. *)
Definition clientPointFromEvent (e : Event) : ClientPoint :=
  match changedTouches e with
  | Some (t :: _) => mkClientPoint (clientX t) (clientY t)
  | _ => mkClientPoint (ev_clientX e) (ev_clientY e)
  end.

(** [clientPointFromEvent] applied to a [Touch], which has coordinates and
    no [changedTouches]. *)
Definition clientPointFromTouch (t : ClientPoint) : ClientPoint :=
  mkClientPoint (clientX t) (clientY t).

(** [canvasDraw.props], as far as the handlers and the methods they call
    read them.  [type] is not among the declared props: it is [undefined],
    the empty string here, unless the page passes it. *)
Record Props : Type := mkProps {
  disabled : bool;
  enablePanAndZoom : bool;
  mouseZoomFactor : float;
  tool : string;
  brushColor : string;
  brushRadius : float;
  clampLinesToDocument : bool;
  canvasWidth : float;
  canvasHeight : float;
  type : string
}.

(** The pointer-smoothing filter of the [lazy-brush] package:
    [update(point, { both })], [isEnabled()] and [brush.toObject()]. *)
Class LazyBrush (L : Type) : Type := {
  lazy_update : L -> Point -> bool -> L;
  lazy_isEnabled : L -> bool;
  lazy_brush : L -> Point
}.

(** [canvasDraw.coordSystem], an object of [./coordinateSystem]: the
    fields [x], [y] and [scale] and the methods [resetView()],
    [setView({ x, y })],
    [scaleAtClientPoint(deltaScale, clientPoint)] and
    [clientPointToViewPoint(clientPoint)]. *)
Class CoordinateSystem (C : Type) : Type := {
  cs_x : C -> float;
  cs_y : C -> float;
  cs_scale : C -> float;
  cs_resetView : C -> C;
  cs_setView : C -> float -> float -> C;
  cs_scaleAtClientPoint : C -> float -> ClientPoint -> C;
  cs_clientPointToViewPoint : C -> ClientPoint -> Point
}.

(** A saved line: [{ points, brushColor, brushRadius }]. *)
Record Line : Type := mkLine {
  line_points : list Point;
  line_brushColor : string;
  line_brushRadius : float
}.

(** What a handler does to the page and the canvases. *)
Inductive Effect : Type :=
| PreventDefault
      (* e.preventDefault() on an event of the browser *)
| FloodFillAt (x y : Seeds.Num) (color : string)
      (* canvasDraw.floodFill(context, x, y, color) has returned: the
         pixels it filled are back on the drawing canvas *)
| DrawRect
| DrawCircle
| DrawPoints (pts : list Point) (color : string) (radius : float)
      (* canvasDraw.drawPoints({ points, brushColor, brushRadius }) was
         called, whether it returned or threw *)
| ViewApplied
      (* applyView: the canvases cleared and given the new transform *)
| LineSaved.
      (* saveLine: the temporary canvas copied to the drawing canvas and
         cleared, and onChange triggered *)

(** [{ t1, t2, distance, centroid }] *)
Record TouchMetrics : Type := mkTouchMetrics {
  t1 : ClientPoint;
  t2 : ClientPoint;
  distance : float;
  centroid : ClientPoint
}.

(** The fields of a [PanState] once [handleDrawStart] has run. *)
Record Pan : Type := mkPan { dragStart : ClientPoint; pan_panStart : Point }.

(** The fields of a [WaitForPinchState]. *)
Record WaitForPinch : Type := mkWaitForPinch {
  startClientPoint : option ClientPoint;
  startTimestamp : Z;
  deferredPoints : list ClientPoint
}.

(** The fields of a [ScaleOrPanState] once [handleDrawStart] has run;
    [recentMetrics] is assigned by the first move. *)
Record ScaleOrPan : Type := mkScaleOrPan {
  start : TouchMetrics;
  panStart : Point;
  scaleStart : float;
  recentMetrics : option TouchMetrics
}.

(** The state objects that the host can hold. *)
Inductive GestureState : Type :=
| DefaultState
| DisabledState
| PanState (s : Pan)
| WaitForPinchState (s : WaitForPinch)
| ScaleOrPanState (s : ScaleOrPan)
| TouchPanState (scaleOrPanState : ScaleOrPan)
| TouchScaleState (scaleOrPanState : ScaleOrPan)
| DrawingState (isDrawing : bool).

(** What a handler returns: a state object, or [undefined]. *)
Inductive Value : Type :=
| VUndefined
| VState (s : GestureState).

(** The names of the eight kinds of state. *)
Inductive Kind : Type :=
| Default | Disabled | Pan_ | WaitForPinch_ | ScaleOrPan_ | TouchPan
| TouchScale | Drawing.

Definition kind_of (s : GestureState) : Kind :=
  match s with
  | DefaultState => Default
  | DisabledState => Disabled
  | PanState _ => Pan_
  | WaitForPinchState _ => WaitForPinch_
  | ScaleOrPanState _ => ScaleOrPan_
  | TouchPanState _ => TouchPan
  | TouchScaleState _ => TouchScale
  | DrawingState _ => Drawing
  end.

(** *** [drawPoints] of [src/index.js], on the temporary canvas *)

(** [midPointBtw(p1, p2)] *)
Definition midPointBtw (p1 p2 : Point) : Point :=
  mkPoint (px p1 + (px p2 - px p1) / 2) (py p1 + (py p2 - py p1) / 2).

(** What [drawPoints] asks of the temporary canvas [this.ctx.temp]. *)
Inductive TempCall : Type :=
| SetLineJoin (v : string)
| SetLineCap (v : string)
| SetStrokeStyle (v : string)
| ClearWindow
| SetLineWidth (v : float)
| MoveTo (x y : float)
| BeginPath
| QuadraticCurveTo (cpx cpy x y : float)
| LineTo (x y : float)
| Stroke.

(** A call that returns, or one that a [TypeError] ends (reading [x] of
    [undefined]); either way with the canvas calls made so far. *)
Inductive Outcome : Type :=
| Returned (calls : list TempCall)
| Threw (calls : list TempCall).

(** The loop of [drawPoints],
    [for (var i = 1, len = points.length; i < len; i++) { ... }], with [n]
    the number of runs left; [p1] and [p2] are elements of [points], or
    [undefined].  The result carries the last value of [p1]. *)
Fixpoint curve_loop (n i : nat) (points : list Point)
    (p1 p2 : option Point) (calls : list TempCall)
  : Outcome * option Point :=
  match n with
  | O => (Returned calls, p1)
  | S n' =>
      match p1, p2 with
      | Some a, Some b =>
          let midPoint := midPointBtw a b in
          curve_loop n' (S i) points (points !! i) (points !! S i)
            (calls ++
             [QuadraticCurveTo (px a) (py a) (px midPoint) (py midPoint)])
      | _, _ => (Threw calls, p1)
      end
  end.

(** [drawPoints({ points, brushColor, brushRadius })]; [eraser] is
    [this.props.type === 'eraser']. *)
Definition drawPoints (eraser : bool) (points : list Point)
    (brushColor : string) (brushRadius : float) : Outcome :=
  let calls :=
    [SetLineJoin "round"; SetLineCap "round"] ++
    (if eraser then [SetLineJoin "miter"; SetLineCap "butt"] else []) ++
    [SetStrokeStyle brushColor; ClearWindow; SetLineWidth (brushRadius * 2)] in
  let p1 := points !! 0%nat in
  let p2 := points !! 1%nat in
  match p2 with
  | None => Threw calls
  | Some b =>
      let calls := calls ++ [MoveTo (px b) (py b); BeginPath] in
      match curve_loop (length points - 1) 1 points p1 p2 calls with
      | (Returned calls, Some a) =>
          Returned (calls ++ [LineTo (px a) (py a); Stroke])
      | (Returned calls, None) => Threw calls
      | (Threw calls, _) => Threw calls
      end
  end.

(** *** Handlers

    How a call ends: it returns a value; an exception leaves it (the
    [TypeError] of [drawPoints], an [IndexSizeError] of [getImageData]); or
    it is still running when the model stops following the loop of
    [floodFill] (see [fuel] below). *)
Inductive Ending (A : Type) : Type :=
| Returns (a : A)
| Throws
| Running.

Arguments Returns {A} a.
Arguments Throws {A}.
Arguments Running {A}.

Definition Ending_map {A B : Type} (f : A -> B) (r : Ending A) : Ending B :=
  match r with
  | Returns a => Returns (f a)
  | Throws => Throws
  | Running => Running
  end.

Section Machine.

Context {L C : Type} `{LazyBrush L} `{CoordinateSystem C}.

(** The [CanvasDraw] component as the handlers see it ([canvasDraw]), with
    the clock and the canvases of the page.
    - [clock n] is the [n]-th reading of [new Date()]; [reads] counts the
      readings taken.
    - [clientWidth] and [clientHeight], of the drawing canvas, are whole
      numbers.
    - [fills] counts the calls of [floodFill].  At call [n],
      [drawing_pixels n] is what [getImageData] reads from the drawing
      canvas over its whole width and height, as the [Uint32Array] that
      [floodFill] makes of it, and [css_color n c] is what
      [cssTo32BitColor] makes of the CSS colour [c] on its own canvas of
      one pixel.
    - [fuel] is the number of passes of the loop of [floodFill] that the
      model follows: a call whose loop has not ended by then is [Running]. *)
Record World : Type := mkWorld {
  props : Props;
  coordSystem : C;
  lazy : L;
  points : list Point;
  lines : list Line;
  lastX : float;
  lastY : float;
  clientWidth : float;
  clientHeight : float;
  clock : nat -> Z;
  reads : nat;
  drawing_pixels : nat -> Pixels.PixelData;
  css_color : nat -> string -> Z;
  fills : nat;
  fuel : nat
}.

Definition set_coordSystem (c : C) (w : World) : World :=
  mkWorld (props w) c (lazy w) (points w) (lines w) (lastX w) (lastY w)
          (clientWidth w) (clientHeight w) (clock w) (reads w)
          (drawing_pixels w) (css_color w) (fills w) (fuel w).

Definition set_lazy (l : L) (w : World) : World :=
  mkWorld (props w) (coordSystem w) l (points w) (lines w) (lastX w) (lastY w)
          (clientWidth w) (clientHeight w) (clock w) (reads w)
          (drawing_pixels w) (css_color w) (fills w) (fuel w).

Definition set_points (ps : list Point) (w : World) : World :=
  mkWorld (props w) (coordSystem w) (lazy w) ps (lines w) (lastX w) (lastY w)
          (clientWidth w) (clientHeight w) (clock w) (reads w)
          (drawing_pixels w) (css_color w) (fills w) (fuel w).

Definition set_lines (ls : list Line) (w : World) : World :=
  mkWorld (props w) (coordSystem w) (lazy w) (points w) ls (lastX w) (lastY w)
          (clientWidth w) (clientHeight w) (clock w) (reads w)
          (drawing_pixels w) (css_color w) (fills w) (fuel w).

Definition set_last (x y : float) (w : World) : World :=
  mkWorld (props w) (coordSystem w) (lazy w) (points w) (lines w) x y
          (clientWidth w) (clientHeight w) (clock w) (reads w)
          (drawing_pixels w) (css_color w) (fills w) (fuel w).

Definition set_reads (n : nat) (w : World) : World :=
  mkWorld (props w) (coordSystem w) (lazy w) (points w) (lines w) (lastX w)
          (lastY w) (clientWidth w) (clientHeight w) (clock w) n
          (drawing_pixels w) (css_color w) (fills w) (fuel w).

Definition set_fills (n : nat) (w : World) : World :=
  mkWorld (props w) (coordSystem w) (lazy w) (points w) (lines w) (lastX w)
          (lastY w) (clientWidth w) (clientHeight w) (clock w) (reads w)
          (drawing_pixels w) (css_color w) n (fuel w).

Definition set_fuel (n : nat) (w : World) : World :=
  mkWorld (props w) (coordSystem w) (lazy w) (points w) (lines w) (lastX w)
          (lastY w) (clientWidth w) (clientHeight w) (clock w) (reads w)
          (drawing_pixels w) (css_color w) (fills w) n.

(** A handler: a function of the world that gives how the call ends, the
    world it leaves (when it throws or is still running: the world as it
    was then), and what it did to the page and the canvases, in order. *)
Definition M (A : Type) : Type := World -> Ending A * World * list Effect.

Definition ret {A : Type} (a : A) : M A := fun w => (Returns a, w, []).

(** [c1; c2]: what follows a call that throws or is still running is not
    run. *)
Definition bind {A B : Type} (m : M A) (k : A -> M B) : M B :=
  fun w =>
    let '(r, w1, effects1) := m w in
    match r with
    | Returns a =>
        let '(b, w2, effects2) := k a w1 in
        (b, w2, effects1 ++ effects2)
    | Throws => (Throws, w1, effects1)
    | Running => (Running, w1, effects1)
    end.

Definition throw {A : Type} : M A := fun w => (Throws, w, []).

Definition modify (f : World -> World) : M unit :=
  fun w => (Returns tt, f w, []).

Definition emit (eff : Effect) : M unit := fun w => (Returns tt, w, [eff]).

Definition get : M World := fun w => (Returns w, w, []).

Notation "'let*' x := c1 'in' c2" := (bind c1 (fun x => c2))
  (at level 10, x name, c1 at level 200, c2 at level 200).
Notation "c1 ;; c2" := (bind c1 (fun _ => c2))
  (at level 100, c2 at level 200, right associativity).

(** [e.preventDefault()] *)
Definition preventDefault (e : Event) : M unit :=
  if synthetic e then ret tt else emit PreventDefault.

(** [new Date().valueOf()] *)
Definition Date_valueOf : M Z :=
  fun w => (Returns (clock w (reads w)), set_reads (S (reads w)) w, []).

(** [viewPointFromEvent(coordSystem, e)] *)
Definition viewPointFromEvent (c : C) (e : Event) : Point :=
  cs_clientPointToViewPoint c (clientPointFromEvent e).

(** *** The methods of [CanvasDraw] ([src/index.js]) that the handlers call *)

(** [Math.min] and [Math.max] on doubles: not-a-number when an argument is,
    and [-0] below [+0]. *)
Definition Math_min (a b : float) : float :=
  if is_nan a || is_nan b then nan
  else if a <? b then a else if b <? a then b
  else if get_sign a then a else b.

Definition Math_max (a b : float) : float :=
  if is_nan a || is_nan b then nan
  else if a <? b then b else if b <? a then a
  else if get_sign a then b else a.

Definition clampPointToDocument (w : World) (point : Point) : Point :=
  if clampLinesToDocument (props w) then
    mkPoint (Math_max (Math_min (px point) (canvasWidth (props w))) 0)
            (Math_max (Math_min (py point) (canvasHeight (props w))) 0)
  else point.

(** [this.drawPoints({ points, brushColor, brushRadius })] as a call: it
    returns or throws as [drawPoints] does on these points. *)
Definition run_drawPoints (points : list Point) (brushColor : string)
    (brushRadius : float) : M unit :=
  fun w =>
    match drawPoints (type (props w) =? "eraser")%string
                     points brushColor brushRadius with
    | Returned _ => (Returns tt, w, [DrawPoints points brushColor brushRadius])
    | Threw _ => (Throws, w, [DrawPoints points brushColor brushRadius])
    end.

(** A number as a [long] argument of a canvas method: not-a-number and the
    infinities give 0, a fraction is cut off, and the whole number is taken
    modulo [2^32] into [-2^31, 2^31). *)
Definition to_long (x : float) : Z :=
  match Prim2SF x with
  | S754_finite s m e =>
      let n := if s then Z.neg m else Z.pos m in
      let whole := if (0 <=? e)%Z then n * 2 ^ e else Z.quot n (2 ^ (- e)) in
      (whole + 2 ^ 31) mod 2 ^ 32 - 2 ^ 31
  | _ => 0
  end%Z.

(** [context.getImageData(0, 0, sw, sh)] for image data that is not used:
    the canvas API throws an [IndexSizeError] when [sw] or [sh], as a
    [long], is 0. *)
Definition getImageData_unused (sw sh : float) : M unit :=
  if ((to_long sw =? 0) || (to_long sh =? 0))%Z then throw else ret tt.

(** [canvasDraw.floodFill(ctx, x, y, fillColor)] as a call, on the drawing
    canvas of the page.  [cssTo32BitColor] converts the colour;
    [getImageData], over the width and the height of the canvas, throws an
    [IndexSizeError] when one of them is 0; the fill is that of
    [src/index.js] ([Seeds.floodFill]), which has returned or not when the
    fuel is spent. *)
Definition run_floodFill (x y : Seeds.Num) (fillColor : string) : M unit :=
  fun w =>
    let fillColor32 := css_color w (fills w) fillColor in
    let pixelData := drawing_pixels w (fills w) in
    let w := set_fills (S (fills w)) w in
    if ((Pixels.width pixelData =? 0) || (Pixels.height pixelData =? 0))%Z
    then (Throws, w, [])
    else
      match Seeds.floodFill (fuel w) pixelData x y fillColor32 with
      | Some _ => (Returns tt, w, [FloodFillAt x y fillColor])
      | None => (Running, w, [])
      end.

(** [a || b] on strings and on numbers. *)
Definition or_string (a b : string) : string :=
  if (a =? "")%string then b else a.

Definition or_number (a b : float) : float :=
  if is_nan a || is_zero a then b else a.

(** [saveLine({ brushColor, brushRadius } = {})], with the arguments
    [undefined] when [None]. *)
Definition saveLine (color : option string) (radius : option float) : M unit :=
  let* w := get in
  if (length (points w) <? 2)%nat then ret tt
  else
    modify (fun w =>
      set_lines (lines w ++
                 [mkLine (points w)
                    (match color with
                     | Some c => or_string c (brushColor (props w))
                     | None => brushColor (props w)
                     end)
                    (match radius with
                     | Some r => or_number r (brushRadius (props w))
                     | None => brushRadius (props w)
                     end)]) w) ;;
    modify (set_points []) ;;
    emit LineSaved.

(** A line that [drawPoints] can draw: it has [points[1]]. *)
Definition drawable (l : Line) : bool := (2 <=? length (line_points l))%nat.

(** The lines before the first that [drawPoints] cannot draw. *)
Fixpoint drawn_prefix (ls : list Line) : list Line :=
  match ls with
  | [] => []
  | l :: ls' => if drawable l then l :: drawn_prefix ls' else []
  end.

(** [simulateDrawingLines({ lines, immediate: true })]: each line is drawn,
    made the current points ([this.points = points]) and saved again.  A
    line on which [drawPoints] throws ends the call: that line and those
    after it are not saved. *)
Fixpoint simulateDrawingLines (ls : list Line) : M unit :=
  match ls with
  | [] => ret tt
  | l :: ls' =>
      run_drawPoints (line_points l) (line_brushColor l)
                     (line_brushRadius l) ;;
      modify (set_points (line_points l)) ;;
      saveLine (Some (line_brushColor l)) (Some (line_brushRadius l)) ;;
      simulateDrawingLines ls'
  end.

(** [applyView], the listener that the coordinate system calls after every
    change of the view (for a mounted component that is not resizing). *)
Definition applyView : M unit :=
  emit ViewApplied ;;
  let* w := get in
  modify (set_lines []) ;;
  simulateDrawingLines (lines w).

(** [clear()], as [loadSaveData] calls it: the lines are dropped and the
    view is reset. *)
Definition clear : M unit :=
  modify (set_lines []) ;;
  modify (fun w => set_coordSystem (cs_resetView (coordSystem w)) w) ;;
  applyView.

(** [drawRect()] and [drawCircle()]: [loadSaveData] (that is, [clear()] and
    the stored image put back), then the shape drawn on the canvas. *)
Definition drawRect : M unit := clear ;; emit DrawRect.
Definition drawCircle : M unit := clear ;; emit DrawCircle.

(** [coordSystem.setView({ x, y })] and [coordSystem.scaleAtClientPoint],
    each followed by the listener. *)
Definition setView (x y : float) : M unit :=
  modify (fun w => set_coordSystem (cs_setView (coordSystem w) x y) w) ;;
  applyView.

Definition scaleAtClientPoint (deltaScale : float) (pt : ClientPoint)
  : M unit :=
  modify (fun w =>
    set_coordSystem (cs_scaleAtClientPoint (coordSystem w) deltaScale pt) w) ;;
  applyView.

(** *** [DrawingState] *)

(** The point that both [push]es of [handleDrawMove] add. *)
Definition push_brush : M unit :=
  modify (fun w =>
    set_points (points w ++ [clampPointToDocument w (lazy_brush (lazy w))]) w).

(** [DrawingState.handleDrawMove(e, canvasDraw, shouldStartAtEdge)].  The
    method returns [this]; the result here is the [isDrawing] field of
    [this].  With the FloodFill tool it calls [getImageData] for image data
    that it does not use and then [canvasDraw.floodFill], and goes on when
    that call has returned. *)
Definition Drawing_handleDrawMove (isDrawing : bool) (e : Event)
    (shouldStartAtEdge : bool) : M bool :=
  preventDefault e ;;
  let* w := get in
  let realCanvasWidth := clientWidth w in
  let realCanvasHeight := clientHeight w in
  let p := viewPointFromEvent (coordSystem w) e in
  let x := px p in
  let y := py p in
  let tool := tool (props w) in
  modify (set_last x y) ;;
  (if (tool =? "FloodFill")%string
   then
     getImageData_unused realCanvasWidth realCanvasHeight ;;
     run_floodFill (Seeds.Math_round x) (Seeds.Math_round y)
                   (brushColor (props w))
   else ret tt) ;;
  (if (tool =? "Rectangle")%string then drawRect else ret tt) ;;
  (if (tool =? "Circle")%string then drawCircle else ret tt) ;;
  if negb (tool =? "Pencil")%string && negb (tool =? "Eraser")%string
  then ret isDrawing
  else
    let* xy := (if shouldStartAtEdge then
             let* w := get in
             let offset := 80 in
             let x' :=
               if (lastX w <? 0) && (x <? offset) then 0
               else if (realCanvasWidth <=? lastX w)
                       && (realCanvasWidth - offset <=? x)
               then x + 500 else x in
             let y' :=
               if (lastY w <? 0) && (y <? offset) then 0
               else if (realCanvasHeight <=? lastY w)
                       && (realCanvasHeight - offset <=? y)
               then y + 500 else y in
             ret (x', y')
           else
             modify (set_last x y) ;; ret (x, y)) in
    modify (fun w =>
      set_lazy (lazy_update (lazy w) (mkPoint (fst xy) (snd xy)) false) w) ;;
    let* w := get in
    let isDisabled := negb (lazy_isEnabled (lazy w)) in
    let* isDrawing := (if negb isDrawing || isDisabled
                  then push_brush ;; ret true
                  else ret isDrawing) in
    push_brush ;;
    let* w := get in
    run_drawPoints (points w)
      (if (tool =? "Eraser")%string then "#FFFFFF"%string
       else brushColor (props w))
      (brushRadius (props w)) ;;
    ret isDrawing.

(** [DrawingState.handleDrawStart(e, canvasDraw, shouldStartAtEdge)] *)
Definition Drawing_handleDrawStart (isDrawing : bool) (e : Event)
    (shouldStartAtEdge : bool) : M bool :=
  preventDefault e ;;
  (match touches e with
   | Some (_ :: _) =>
       let* w := get in
       let p := viewPointFromEvent (coordSystem w) e in
       modify (set_lazy (lazy_update (lazy w) (mkPoint (px p) (py p)) true))
   | _ => ret tt
   end) ;;
  Drawing_handleDrawMove isDrawing e shouldStartAtEdge.

(** [DrawingState.handleDrawEnd(e, canvasDraw)] *)
Definition Drawing_handleDrawEnd (isDrawing : bool) (e : Event)
  : M GestureState :=
  preventDefault e ;;
  Drawing_handleDrawMove isDrawing e false ;;
  saveLine None None ;;
  ret DefaultState.

(** *** [SUPPRESS_SCROLL]

    [const SUPPRESS_SCROLL = (e) => { e.preventDefault(); return this; }]
    is an arrow function at the top level of the module.  Its [this] is the
    module's, which is [undefined] in an ES module, and
    [SUPPRESS_SCROLL.bind(this)] in the class bodies cannot rebind it. *)
Definition module_this : Value := VUndefined.

Definition SUPPRESS_SCROLL (e : Event) : M Value :=
  preventDefault e ;;
  ret module_this.

(** *** [ScaleOrPanState], [TouchPanState], [TouchScaleState] *)

(** [getTouchMetrics(e)] on the first two touches. *)
Definition getTouchMetrics (touch0 touch1 : ClientPoint) : TouchMetrics :=
  let t1x := clientX (clientPointFromTouch touch0) in
  let t1y := clientY (clientPointFromTouch touch0) in
  let t2x := clientX (clientPointFromTouch touch1) in
  let t2y := clientY (clientPointFromTouch touch1) in
  let dx := t2x - t1x in
  let dy := t2y - t1y in
  mkTouchMetrics (mkClientPoint t1x t1y) (mkClientPoint t2x t2y)
                 (sqrt (dx * dx + dy * dy))
                 (mkClientPoint ((t1x + t2x) / 2) ((t1y + t2y) / 2)).

(** [ScaleOrPanState.handleDrawStart(e, canvasDraw)]; [recent] is the
    [recentMetrics] field of [this], [None] on a new object. *)
Definition ScaleOrPan_handleDrawStart (recent : option TouchMetrics)
    (e : Event) : M GestureState :=
  preventDefault e ;;
  match touches e with
  | Some (touch0 :: touch1 :: _) =>
      let* w := get in
      ret (ScaleOrPanState
             (mkScaleOrPan (getTouchMetrics touch0 touch1)
                (mkPoint (cs_x (coordSystem w)) (cs_y (coordSystem w)))
                (cs_scale (coordSystem w)) recent))
  | _ => ret DefaultState
  end.

(** [TouchScaleState.handleDrawMove(e, canvasDraw)] *)
Definition TouchScale_handleDrawMove (ref : ScaleOrPan) (e : Event)
  : M GestureState :=
  preventDefault e ;;
  match touches e with
  | Some (touch0 :: touch1 :: _) =>
      let metrics := getTouchMetrics touch0 touch1 in
      let ref :=
        mkScaleOrPan (start ref) (panStart ref) (scaleStart ref)
                     (Some metrics) in
      let* w := get in
      let targetScale :=
        scaleStart ref * (distance metrics / distance (start ref)) in
      let dScale := targetScale - cs_scale (coordSystem w) in
      scaleAtClientPoint dScale (centroid metrics) ;;
      ret (TouchScaleState ref)
  | _ => ret DefaultState
  end.

(** [TouchPanState.handleDrawMove(e, canvasDraw)] *)
Definition TouchPan_handleDrawMove (ref : ScaleOrPan) (e : Event)
  : M GestureState :=
  preventDefault e ;;
  match touches e with
  | Some (touch0 :: touch1 :: _) =>
      let metrics := getTouchMetrics touch0 touch1 in
      let ref :=
        mkScaleOrPan (start ref) (panStart ref) (scaleStart ref)
                     (Some metrics) in
      let dx := clientX (centroid metrics) - clientX (centroid (start ref)) in
      let dy := clientY (centroid metrics) - clientY (centroid (start ref)) in
      setView (px (panStart ref) + dx) (py (panStart ref) + dy) ;;
      ret (TouchPanState ref)
  | _ => ret DefaultState
  end.

(** [ScaleOrPanState.handleDrawMove(e, canvasDraw)] *)
Definition ScaleOrPan_handleDrawMove (this : ScaleOrPan) (e : Event)
  : M GestureState :=
  preventDefault e ;;
  match touches e with
  | Some (touch0 :: touch1 :: _) =>
      let metrics := getTouchMetrics touch0 touch1 in
      let this :=
        mkScaleOrPan (start this) (panStart this) (scaleStart this)
                     (Some metrics) in
      let dd := abs (distance metrics - distance (start this)) in
      if TOUCH_SLOP <=? dd then TouchScale_handleDrawMove this e
      else
        let dx :=
          clientX (centroid metrics) - clientX (centroid (start this)) in
        let dy :=
          clientY (centroid metrics) - clientY (centroid (start this)) in
        let dc := abs dx + abs dy in
        if TOUCH_SLOP <=? dc then TouchPan_handleDrawMove this e
        else ret (ScaleOrPanState this)
  | _ => ret DefaultState
  end.

(** *** [PanState] *)

Definition Pan_handleDrawStart (e : Event) : M GestureState :=
  preventDefault e ;;
  let* w := get in
  ret (PanState (mkPan (clientPointFromEvent e)
                       (mkPoint (cs_x (coordSystem w))
                                (cs_y (coordSystem w))))).

Definition Pan_handleDrawMove (this : Pan) (e : Event) : M GestureState :=
  preventDefault e ;;
  let pt := clientPointFromEvent e in
  let dx := clientX pt - clientX (dragStart this) in
  let dy := clientY pt - clientY (dragStart this) in
  setView (px (pan_panStart this) + dx) (py (pan_panStart this) + dy) ;;
  ret (PanState this).

(** *** [WaitForPinchState] *)

(** [new WaitForPinchState()] *)
Definition new_WaitForPinchState : M WaitForPinch :=
  let* now := Date_valueOf in
  ret (mkWaitForPinch None now []).

(** The body of the loop of [issueDeferredPoints]: the first point goes
    through [handleDrawStart], the others through [handleDrawMove], each in
    a [SyntheticEvent] and without a third argument.  [nextState] is a
    [DrawingState] throughout, given here by its [isDrawing] field. *)
Fixpoint issue_loop (i : nat) (rest : list ClientPoint) (nextState : bool)
  : M bool :=
  match rest with
  | [] => ret nextState
  | deferredPt :: rest' =>
      let syntheticEvt := SyntheticEvent deferredPt in
      let func :=
        if (i =? 0)%nat then Drawing_handleDrawStart nextState
        else Drawing_handleDrawMove nextState in
      let* nextState := func syntheticEvt false in
      issue_loop (S i) rest' nextState
  end.

(** [issueDeferredPoints(canvasDraw)] *)
Definition issueDeferredPoints (this : WaitForPinch) : M bool :=
  issue_loop 0 (deferredPoints this) false.

(** [WaitForPinchState.handleDrawMove(e, canvasDraw)] *)
Definition WaitForPinch_handleDrawMove (this : WaitForPinch) (e : Event)
  : M GestureState :=
  preventDefault e ;;
  match touches e with
  | Some (_ :: _ :: _) => ScaleOrPan_handleDrawStart None e
  | _ =>
      let clientPt := clientPointFromEvent e in
      let this :=
        mkWaitForPinch (startClientPoint this) (startTimestamp this)
                       (deferredPoints this ++ [clientPt]) in
      let* now := Date_valueOf in
      if (now - startTimestamp this <? PINCH_TIMEOUT_MS)%Z then
        let startPt :=
          match startClientPoint this with
          | None => clientPt
          | Some pt => pt
          end in
        let this :=
          mkWaitForPinch (Some startPt) (startTimestamp this)
                         (deferredPoints this) in
        let d :=
          abs (clientX clientPt - clientX startPt) +
          abs (clientY clientPt - clientY startPt) in
        if d <? TOUCH_SLOP then ret (WaitForPinchState this)
        else
          let* drawing := issueDeferredPoints this in
          ret (DrawingState drawing)
      else
        let* drawing := issueDeferredPoints this in
        ret (DrawingState drawing)
  end.

(** [WaitForPinchState.handleDrawStart(e, canvasDraw, shouldStartAtEdge)] *)
Definition WaitForPinch_handleDrawStart (this : WaitForPinch) (e : Event)
    (shouldStartAtEdge : bool) : M GestureState :=
  let* w := get in
  let enablePanAndZoom := enablePanAndZoom (props w) in
  preventDefault e ;;
  match touches e with
  | None | Some [] =>
      let* drawing := Drawing_handleDrawStart false e shouldStartAtEdge in
      ret (DrawingState drawing)
  | Some (touch0 :: more) =>
      if negb enablePanAndZoom then
        let* drawing := Drawing_handleDrawStart false e shouldStartAtEdge in
        ret (DrawingState drawing)
      else
        match more with
        | _ :: _ => ScaleOrPan_handleDrawStart None e
        | [] => WaitForPinch_handleDrawMove this e
        end
  end.

(** [WaitForPinchState.handleDrawEnd(e, canvasDraw)] *)
Definition WaitForPinch_handleDrawEnd (this : WaitForPinch) (e : Event)
  : M GestureState :=
  let* drawing := issueDeferredPoints this in
  Drawing_handleDrawEnd drawing e.

(** *** [DefaultState] and [DisabledState] *)

Definition Default_handleMouseWheel (e : Event) : M GestureState :=
  let* w := get in
  if disabled (props w) then ret DisabledState
  else if enablePanAndZoom (props w) && ctrlKey e then
    preventDefault e ;;
    scaleAtClientPoint (mouseZoomFactor (props w) * deltaY e)
                       (clientPointFromEvent e) ;;
    ret DefaultState
  else ret DefaultState.

Definition Default_handleDrawStart (e : Event) (shouldStartAtEdge : bool)
  : M GestureState :=
  let* w := get in
  if disabled (props w) then ret DisabledState
  else if ctrlKey e && enablePanAndZoom (props w) then Pan_handleDrawStart e
  else
    let* this := new_WaitForPinchState in
    WaitForPinch_handleDrawStart this e shouldStartAtEdge.

Definition Default_handleDrawMove (e : Event) : M GestureState :=
  let* w := get in
  if disabled (props w) then ret DisabledState
  else
    let p := viewPointFromEvent (coordSystem w) e in
    modify (set_lazy (lazy_update (lazy w) (mkPoint (px p) (py p)) false)) ;;
    ret DefaultState.

Definition Default_handleDrawEnd (e : Event) : M GestureState :=
  let* w := get in
  if disabled (props w) then ret DisabledState else ret DefaultState.

(** Every method of [DisabledState]: [this] while the [disabled] prop is
    set, [new DefaultState()]'s method otherwise. *)
Definition Disabled_handle (default : M GestureState) : M GestureState :=
  let* w := get in
  if disabled (props w) then ret DisabledState else default.

(** *** The four methods, on any state object *)

Definition as_value (m : M GestureState) : M Value :=
  let* s := m in ret (VState s).

Definition handleMouseWheel (s : GestureState) (e : Event) : M Value :=
  match s with
  | DefaultState => as_value (Default_handleMouseWheel e)
  | DisabledState => as_value (Disabled_handle (Default_handleMouseWheel e))
  | PanState _ | WaitForPinchState _ | ScaleOrPanState _ | TouchPanState _
  | TouchScaleState _ | DrawingState _ => SUPPRESS_SCROLL e
  end.

Definition handleDrawStart (s : GestureState) (e : Event)
    (shouldStartAtEdge : bool) : M Value :=
  as_value
    match s with
    | DefaultState => Default_handleDrawStart e shouldStartAtEdge
    | DisabledState => Disabled_handle (Default_handleDrawStart e false)
    | PanState _ => Pan_handleDrawStart e
    | WaitForPinchState this =>
        WaitForPinch_handleDrawStart this e shouldStartAtEdge
    | ScaleOrPanState this => ScaleOrPan_handleDrawStart (recentMetrics this) e
    | TouchPanState _ | TouchScaleState _ => ret s
    | DrawingState isDrawing =>
        let* drawing := Drawing_handleDrawStart isDrawing e shouldStartAtEdge in
        ret (DrawingState drawing)
    end.

Definition handleDrawMove (s : GestureState) (e : Event) : M Value :=
  as_value
    match s with
    | DefaultState => Default_handleDrawMove e
    | DisabledState => Disabled_handle (Default_handleDrawMove e)
    | PanState this => Pan_handleDrawMove this e
    | WaitForPinchState this => WaitForPinch_handleDrawMove this e
    | ScaleOrPanState this => ScaleOrPan_handleDrawMove this e
    | TouchPanState ref => TouchPan_handleDrawMove ref e
    | TouchScaleState ref => TouchScale_handleDrawMove ref e
    | DrawingState isDrawing =>
        let* drawing := Drawing_handleDrawMove isDrawing e false in
        ret (DrawingState drawing)
    end.

Definition handleDrawEnd (s : GestureState) (e : Event) : M Value :=
  as_value
    match s with
    | DefaultState => Default_handleDrawEnd e
    | DisabledState => Disabled_handle (Default_handleDrawEnd e)
    | PanState _ | ScaleOrPanState _ | TouchPanState _ | TouchScaleState _ =>
        ret DefaultState
    | WaitForPinchState this => WaitForPinch_handleDrawEnd this e
    | DrawingState isDrawing => Drawing_handleDrawEnd isDrawing e
    end.

(** *** The host: [CanvasDraw.handleWheel] and the three draw handlers

    [this.interactionSM = this.interactionSM.handleMouseWheel(e, this)] and
    its like.  Calling a method of [undefined] throws a [TypeError]; the
    host is then without a new state, as it is when the method throws or
    is still running: [None] here. *)
Definition host_step (method : GestureState -> M Value)
    (h : Value * World) : option (Value * World) :=
  match fst h with
  | VUndefined => None
  | VState s =>
      match method s (snd h) with
      | (Returns v, w', _) => Some (v, w')
      | _ => None
      end
  end.

Definition host_handleWheel (e : Event) := host_step (fun s => handleMouseWheel s e).
Definition host_handleDrawStart (e : Event) (shouldStartAtEdge : bool) :=
  host_step (fun s => handleDrawStart s e shouldStartAtEdge).
Definition host_handleDrawMove (e : Event) := host_step (fun s => handleDrawMove s e).
Definition host_handleDrawEnd (e : Event) := host_step (fun s => handleDrawEnd s e).

(** A run of draw-move events through the host. *)
Fixpoint host_moves (es : list Event) (h : Value * World)
  : option (Value * World) :=
  match es with
  | [] => Some h
  | e :: es' =>
      match host_handleDrawMove e h with
      | None => None
      | Some h' => host_moves es' h'
      end
  end.

(** A draw-start followed by a draw-end on the same event: a click. *)
Definition host_click (e : Event) (h : Value * World)
  : option (Value * World) :=
  match host_handleDrawStart e false h with
  | None => None
  | Some h' => host_handleDrawEnd e h'
  end.

(** *** What the specification compares the handlers with *)

(** Draw-move events delivered one after the other to a [DrawingState]. *)
Fixpoint drawing_moves (isDrawing : bool) (es : list Event) : M bool :=
  match es with
  | [] => ret isDrawing
  | e :: es' =>
      let* isDrawing := Drawing_handleDrawMove isDrawing e false in
      drawing_moves isDrawing es'
  end.

(** Events delivered live to a new [DrawingState]: the first as a
    draw-start, the others as draw-moves. *)
Definition deliver_live (es : list Event) : M bool :=
  match es with
  | [] => ret false
  | e :: es' =>
      let* isDrawing := Drawing_handleDrawStart false e false in
      drawing_moves isDrawing es'
  end.

(** Buffered points replayed in order: the first through a synthetic
    draw-start, each later one through a synthetic draw-move. *)
Definition replay_in_order (pts : list ClientPoint) : M bool :=
  deliver_live (map SyntheticEvent pts).

(** The Manhattan distance [|dx| + |dy|] of two client points. *)
Definition manhattan (p q : ClientPoint) : float :=
  abs (clientX p - clientX q) + abs (clientY p - clientY q).

(** An event with fewer than two touches. *)
Definition single_touch (e : Event) : bool :=
  match touches e with
  | Some (_ :: _ :: _) => false
  | _ => true
  end.

(** An event that carries at least one touch. *)
Definition has_touch (e : Event) : bool :=
  match touches e with
  | Some (_ :: _) => true
  | _ => false
  end.

(** The point that [WaitForPinchState] measures from, once it has seen the
    events [es]. *)
Definition first_point (this : WaitForPinch) (es : list Event)
  : option ClientPoint :=
  match startClientPoint this, es with
  | Some pt, _ => Some pt
  | None, e :: _ => Some (clientPointFromEvent e)
  | None, [] => None
  end.

(** The [WaitForPinchState] that has buffered the events [es]. *)
Definition wait_after (this : WaitForPinch) (es : list Event) : WaitForPinch :=
  mkWaitForPinch (first_point this es) (startTimestamp this)
                 (deferredPoints this ++ map clientPointFromEvent es).

(** What [preventDefault] contributes to the effects of a handler. *)
Definition prevented (e : Event) : list Effect :=
  if synthetic e then [] else [PreventDefault].

Definition is_preventDefault (eff : Effect) : bool :=
  match eff with
  | PreventDefault => true
  | _ => false
  end.

(** The effects on the canvases: all but the calls of [preventDefault]. *)
Definition canvas_effects (effs : list Effect) : list Effect :=
  List.filter (fun eff => negb (is_preventDefault eff)) effs.

(** Two outcomes that agree but for the calls of [preventDefault]: the
    same ending, the same world, the same effects on the canvases. *)
Definition same_outcome {A : Type}
    (r1 r2 : Ending A * World * list Effect) : Prop :=
  fst r1 = fst r2 /\ canvas_effects (snd r1) = canvas_effects (snd r2).

End Machine.

Arguments World L C : clear implicits.

(** *** The coordinate system

    [src/coordinateSystem.js] is not among the sources.  Its view state and
    the four methods that the handlers call follow the specification. *)

(** Modelled from the spec: the ViewState [{x, y, scale}] of the missing
    [CoordinateSystem] class, "pan offset and zoom factor", with the scale
    extents [minScale] and [maxScale] that bound the scale. *)
Record ViewState : Type := mkViewState {
  view_x : float;
  view_y : float;
  view_scale : float;
  minScale : float;
  maxScale : float
}.

(** Modelled from the spec: the missing [clamp] of a scale to
    "[minScale, maxScale]". *)
Definition clamp (v lo hi : float) : float :=
  if v <? lo then lo else if hi <? v then hi else v.

(** Modelled from the spec: the missing [resetView()], "sets scale to 1 and
    pan to the identity offset". *)
Definition spec_resetView (c : ViewState) : ViewState :=
  mkViewState 0 0 1 (minScale c) (maxScale c).

(** Modelled from the spec: the missing [setView({x, y, scale})], "clamps
    scale to [minScale, maxScale]; sets pan unconditionally", called by the
    handlers without a scale, which leaves the current one. *)
Definition spec_setView (c : ViewState) (x y : float) : ViewState :=
  mkViewState x y (clamp (view_scale c) (minScale c) (maxScale c))
              (minScale c) (maxScale c).

(** Modelled from the spec: the missing
    [clientPointToViewPoint(clientPoint)], "applies the inverse affine
    transform" of the scale and translation that the view state derives. *)
Definition spec_clientPointToViewPoint (c : ViewState) (pt : ClientPoint)
  : Point :=
  mkPoint ((clientX pt - view_x c) / view_scale c)
          ((clientY pt - view_y c) / view_scale c).

(** Modelled from the spec: the missing
    [scaleAtClientPoint(deltaScale, clientPoint)], "computes newScale =
    clamp(currentScale + deltaScale, minScale, maxScale); recomputes pan
    such that the document-space point currently under clientPoint remains
    under clientPoint after the scale change.  No-op if deltaScale would
    not change the clamped scale." *)
Definition spec_scaleAtClientPoint (c : ViewState) (deltaScale : float)
    (pt : ClientPoint) : ViewState :=
  let newScale := clamp (view_scale c + deltaScale) (minScale c) (maxScale c) in
  if newScale =? view_scale c then c
  else
    let doc := spec_clientPointToViewPoint c pt in
    mkViewState (clientX pt - newScale * px doc)
                (clientY pt - newScale * py doc)
                newScale (minScale c) (maxScale c).

#[export] Instance spec_coordinates : CoordinateSystem ViewState := {
  cs_x := view_x;
  cs_y := view_y;
  cs_scale := view_scale;
  cs_resetView := spec_resetView;
  cs_setView := spec_setView;
  cs_scaleAtClientPoint := spec_scaleAtClientPoint;
  cs_clientPointToViewPoint := spec_clientPointToViewPoint
}.

(** *** Concrete worlds for the scenarios *)

(** A brush of radius 0: it sits on the pointer. *)
#[export] Instance direct_brush : LazyBrush Point := {
  lazy_update := fun _ point _ => point;
  lazy_isEnabled := fun _ => true;
  lazy_brush := fun brush => brush
}.

(** The default props of the component, with a tool and the pan-and-zoom
    switch as given. *)
Definition props_with (tool : string) (panAndZoom : bool) : Props :=
  mkProps false panAndZoom 0x1.47ae147ae147bp-7 tool "#db2727" 10 false
          400 400 "".

(** A view with the default zoom extents, [{ min: 0.33, max: 3 }]. *)
Definition view_at (x y scale : float) : ViewState :=
  mkViewState x y scale 0x1.51eb851eb851fp-2 3.

(** A drawing canvas of two by two white pixels, as every call of
    [floodFill] in the scenarios reads it, and red for every CSS colour. *)
Definition white_2x2 : Pixels.PixelData :=
  Pixels.mkPixelData 2 2
    [Pixels.white; Pixels.white; Pixels.white; Pixels.white].

(** A mounted component with no stroke in progress and no line saved, whose
    clock reads 1000, 1001, 1002, ..., on a canvas shown at 400 by 400. *)
Definition world_with (tool : string) (panAndZoom : bool) (scale : float)
  : World Point ViewState :=
  mkWorld (props_with tool panAndZoom) (view_at 0 0 scale) (mkPoint 200 200)
          [] [] 0 0 400 400 (fun n => 1000 + Z.of_nat n)%Z 0
          (fun _ => white_2x2) (fun _ _ => Pixels.red) 0 100.

(** The same with the FloodFill tool and pan and zoom enabled, the view
    panned to [x = 100]. *)
Definition panned_fill_world : World Point ViewState :=
  mkWorld (props_with "FloodFill" true) (view_at 100 0 1) (mkPoint 200 200)
          [] [] 0 0 400 400 (fun n => 1000 + Z.of_nat n)%Z 0
          (fun _ => white_2x2) (fun _ _ => Pixels.red) 0 100.

Definition mouse_event (x y : float) (ctrl : bool) : Event :=
  mkEvent x y ctrl 0 None None false.

Definition wheel_event (x y dy : float) (ctrl : bool) : Event :=
  mkEvent x y ctrl dy None None false.

Definition touch_event (ts : list ClientPoint) : Event :=
  mkEvent nan nan false nan (Some ts) (Some ts) false.

End Gesture.

(** ** Part IV: the pixel and colour helpers of [src/index.js] *)

Module Raster.
Import SpanFill.

(** [for (var i = 0; i < n; i++) body]: the body run at [i = 0, 1, ...]
    below [n], each run on the state that the one before left. *)
Definition for_ {S : Type} (n : Z) (body : Z -> S -> S) (s : S) : S :=
  fold_left (fun s i => body i s) (seqZ 0 n) s.

(** *** [white2transparent] *)

(** [v == 255] on an element read from a typed array; [undefined] (an index
    outside the array) is not 255. *)
Definition is255 (v : option Z) : bool :=
  match v with
  | Some v => v =? 255
  | None => false
  end.

(** The body of the loop of [white2transparent] at index [i]: a pixel whose
    red, green and blue bytes are all 255 gets alpha 0. *)
Definition whiten (i : Z) (pix : list Z) : list Z :=
  if is255 (Pixels.read pix i) && is255 (Pixels.read pix (i + 1))
     && is255 (Pixels.read pix (i + 2))
  then put_byte pix (i + 3) 0
  else pix.

(** [white2transparent(context, imgData)], on [imgData.data]:
    [for (var i = 0, n = pix.length; i < n; i += 4) { ... }].  The result is
    the data that [putImageData] then writes to the canvas. *)
Definition white2transparent (pix : list Z) : list Z :=
  let n := Z.of_nat (length pix) in
  fold_left (fun pix i => whiten i pix)
            ((fun k => 4 * k) <$> seqZ 0 ((n + 3) / 4)) pix.

(** The pixel that starts at byte [i] is white, whatever its alpha. *)
Definition white_at (pix : list Z) (i : Z) : bool :=
  is255 (Pixels.read pix i) && is255 (Pixels.read pix (i + 1))
  && is255 (Pixels.read pix (i + 2)).

(** *** [scaleImageData] *)

(** [c.createImageData(sw, sh)] of the canvas API for integral arguments:
    an [IndexSizeError] ([None]) when one of them is zero, otherwise a
    transparent black image of [|sw|] by [|sh|] pixels. *)
Definition createImageData (sw sh : Z) : option ImageData :=
  if (sw =? 0) || (sh =? 0) then None
  else Some (mkImageData (Z.abs sw) (Z.abs sh)
               (replicate (Z.to_nat (4 * (Z.abs sw * Z.abs sh))) 0)).

Definition set_data (img : ImageData) (d : list Z) : ImageData :=
  mkImageData (width img) (height img) d.

(** [scaleImageData(c, imageData, scale)] for an integral [scale].  An
    element of [sourcePixel] that was read outside the source data is
    [undefined], which a [Uint8ClampedArray] stores as 0. *)
Definition scaleImageData (imageData : ImageData) (scale : Z)
  : option ImageData :=
  match createImageData (width imageData * scale)
                        (height imageData * scale) with
  | None => None
  | Some scaled =>
      Some
        (for_ (height imageData) (fun row scaled =>
         for_ (width imageData) (fun col scaled =>
           let sourcePixel i :=
             byte_at (data imageData)
                     ((row * width imageData + col) * 4 + i) in
           for_ scale (fun y scaled =>
             let destRow := row * scale + y in
             for_ scale (fun x scaled =>
               let destCol := col * scale + x in
               for_ 4 (fun i scaled =>
                 set_data scaled
                   (put_byte (data scaled)
                      ((destRow * width scaled + destCol) * 4 + i)
                      (sourcePixel i)))
               scaled)
             scaled)
           scaled)
         scaled)
        scaled)
  end.

Definition byte (v : Z) : Prop := 0 <= v <= 255.

(** *** Typed-array views of one buffer: [reverseUint32], [getIsLittleEndian]

    An [ArrayBuffer] is a list of bytes.  A [Uint8Array] and a
    [Uint32Array] made from the same buffer are two views of these bytes;
    the order in which the four bytes of a [Uint32Array] element lie in the
    buffer is the platform's ([littleEndian]). *)

Abbreviation ArrayBuffer := (list Z).

Definition new_ArrayBuffer (n : nat) : ArrayBuffer := replicate n 0.

(** [u8[i]] and [u8[i] = v] *)
Definition Uint8_get (buf : ArrayBuffer) (i : Z) : Z := byte_at buf i.

Definition Uint8_set (buf : ArrayBuffer) (i v : Z) : ArrayBuffer :=
  if (0 <=? i) && (i <? Z.of_nat (length buf))
  then <[Z.to_nat i := v mod 256]> buf
  else buf.

(** The four bytes of a 32-bit number as they lie in the buffer. *)
Definition bytes_of_Uint32 (littleEndian : bool) (v : Z) : list Z :=
  let b k := (v / 2 ^ (8 * k)) mod 256 in
  if littleEndian then [b 0; b 1; b 2; b 3] else [b 3; b 2; b 1; b 0].

(** [u32[i] = v]: the number is reduced modulo [2^32]. *)
Definition Uint32_set (littleEndian : bool) (buf : ArrayBuffer) (i v : Z)
  : ArrayBuffer :=
  match bytes_of_Uint32 littleEndian (v mod 2 ^ 32) with
  | [c0; c1; c2; c3] =>
      Uint8_set (Uint8_set (Uint8_set (Uint8_set buf (4 * i) c0)
                                      (4 * i + 1) c1)
                           (4 * i + 2) c2)
                (4 * i + 3) c3
  | _ => buf
  end.

(** [u32[i]] *)
Definition Uint32_get (littleEndian : bool) (buf : ArrayBuffer) (i : Z) : Z :=
  let c k := Uint8_get buf (4 * i + k) in
  if littleEndian
  then c 0 + 2 ^ 8 * c 1 + 2 ^ 16 * c 2 + 2 ^ 24 * c 3
  else c 3 + 2 ^ 8 * c 2 + 2 ^ 16 * c 1 + 2 ^ 24 * c 0.

(** [reverseUint32(uint32)]: [s32] and [s8] view one buffer of 16 bytes,
    [t32] and [t8] another. *)
Definition reverseUint32 (littleEndian : bool) (uint32 : Z) : Z :=
  let s := new_ArrayBuffer 16 in
  let t := new_ArrayBuffer 16 in
  let s := Uint32_set littleEndian s 0 uint32 in
  let t := Uint8_set t 0 (Uint8_get s 3) in
  let t := Uint8_set t 1 (Uint8_get s 2) in
  let t := Uint8_set t 2 (Uint8_get s 1) in
  let t := Uint8_set t 3 (Uint8_get s 0) in
  Uint32_get littleEndian t 0.

(** [getIsLittleEndian()]: [isLittleEndian] is the variable of the closure,
    [true] when the component is created; the result is its new value. *)
Definition getIsLittleEndian (littleEndian : bool) (isLittleEndian : bool)
  : bool :=
  let buf := new_ArrayBuffer 4 in
  let buf := Uint32_set littleEndian buf 0 0x0f000000 in
  if Uint8_get buf 0 =? 0x0f then false else isLittleEndian.

(** *** [hexToRgb] *)

Record RGB : Type := mkRGB { red : Z; green : Z; blue : Z }.

(** The class [[a-f\d]] under the flag [i], with the value that
    [parseInt(_, 16)] gives the digit. *)
Definition hex_digit (c : ascii) : option Z :=
  let n := Z.of_N (N_of_ascii c) in
  if (48 <=? n) && (n <=? 57) then Some (n - 48)
  else if (97 <=? n) && (n <=? 102) then Some (n - 87)
  else if (65 <=? n) && (n <=? 70) then Some (n - 55)
  else None.

(** [parseInt(s, 16)] on a group of two hexadecimal digits. *)
Definition parseInt16 (c1 c2 : ascii) : option Z :=
  match hex_digit c1, hex_digit c2 with
  | Some d1, Some d2 => Some (16 * d1 + d2)
  | _, _ => None
  end.

(** [hexToRgb(hex)]: the expression
    [/^#?([a-f\d]{2})([a-f\d]{2})([a-f\d]{2})$/i] matches an optional [#]
    followed by exactly six hexadecimal digits; [null] is [None]. *)
Definition hexToRgb (hex : string) : option RGB :=
  let digits :=
    match hex with
    | String c rest => if (c =? "#")%char then rest else hex
    | EmptyString => hex
    end in
  match digits with
  | String c1 (String c2 (String c3 (String c4 (String c5
      (String c6 EmptyString))))) =>
      match parseInt16 c1 c2, parseInt16 c3 c4, parseInt16 c5 c6 with
      | Some r, Some g, Some b => Some (mkRGB r g b)
      | _, _, _ => None
      end
  | _ => None
  end.

(** *** The undo queue: [pushToUndoQueue] and [undo] *)

Section Undo.

Context {Img : Type}.

(** [undoImageQueue], an array used as a stack; the head of the list is its
    last element, the snapshot pushed last. *)
Definition UndoQueue : Type := list Img.

(** [pushToUndoQueue()], with [imageData] the pixels that [getImageData]
    read from the drawing canvas: a full queue (six snapshots) loses the
    one pushed last before the new one is pushed. *)
Definition pushToUndoQueue (imageData : Img) (undoImageQueue : UndoQueue)
  : UndoQueue :=
  let undoImageQueue :=
    if (6 <=? length undoImageQueue)%nat then tail undoImageQueue
    else undoImageQueue in
  imageData :: undoImageQueue.

(** [undo()], on the fields [imageData] and [undoImageQueue]: the snapshot
    popped becomes [this.imageData], which [loadSaveData] puts on the
    cleared canvas; nothing happens on an empty queue. *)
Definition undo (st : option Img * UndoQueue) : option Img * UndoQueue :=
  match snd st with
  | [] => st
  | image :: rest => (Some image, rest)
  end.

(** A call of one of the two methods. *)
Inductive UndoOp : Type :=
| Snapshot (imageData : Img)   (* this.pushToUndoQueue() *)
| Undo.                        (* this.undo() *)

Definition undo_step (st : option Img * UndoQueue) (op : UndoOp)
  : option Img * UndoQueue :=
  match op with
  | Snapshot imageData => (fst st, pushToUndoQueue imageData (snd st))
  | Undo => undo st
  end.

End Undo.

Arguments UndoQueue Img : clear implicits.
Arguments UndoOp Img : clear implicits.

(** Two pixels side by side, for the examples. *)
Definition two_pixels : ImageData :=
  mkImageData 2 1 [10; 20; 30; 255; 40; 50; 60; 255].

End Raster.

(** ** Part V: strokes on the canvas ([drawPoints]) and what the gesture
    states keep true of them *)

Module Strokes.
Import Gesture.

Local Open Scope float_scope.

(** The calls that precede the path. *)
Definition style_calls (eraser : bool) (brushColor : string)
    (brushRadius : float) : list TempCall :=
  [SetLineJoin "round"; SetLineCap "round"] ++
  (if eraser then [SetLineJoin "miter"; SetLineCap "butt"] else []) ++
  [SetStrokeStyle brushColor; ClearWindow; SetLineWidth (brushRadius * 2)].

(** One curve per pair of consecutive points: from where the path stands
    to the middle of the pair, bent towards its first point. *)
Fixpoint curves (points : list Point) : list TempCall :=
  match points with
  | a :: (b :: _) as rest =>
      let midPoint := midPointBtw a b in
      QuadraticCurveTo (px a) (py a) (px midPoint) (py midPoint)
      :: curves rest
  | _ => []
  end.

Section Invariants.

Context {L C : Type} `{LazyBrush L} `{CoordinateSystem C}.

(** Every saved line has at least two points. *)
Definition lines_ok (w : World L C) : Prop :=
  Forall (fun l => (2 <= length (line_points l))%nat) (lines w).

(** A stroke that has begun ([isDrawing]) has at least two points. *)
Definition drawing_ok (isDrawing : bool) (w : World L C) : Prop :=
  lines_ok w /\ (isDrawing = true -> (2 <= length (points w))%nat).

Definition stroke_inv (s : GestureState) (w : World L C) : Prop :=
  lines_ok w /\
  match s with
  | DrawingState true => (2 <= length (points w))%nat
  | _ => True
  end.

(** An effect that is no [drawPoints] on fewer than two points. *)
Definition draw_ok (eff : Effect) : Prop :=
  match eff with
  | DrawPoints pts _ _ => (2 <= length pts)%nat
  | _ => True
  end.

(** A computation that, run on [w], has only effects that satisfy [E] and,
    when it returns, ends with [Q] of its result and the world it leaves. *)
Definition wp {A : Type} (E : Effect -> Prop) (m : M A) (w : World L C)
    (Q : A -> World L C -> Prop) : Prop :=
  Forall E (snd (m w)) /\
  forall a, fst (fst (m w)) = Returns a -> Q a (snd (fst (m w))).

(** What a handler must leave for the host: whichever [drawPoints] it
    called returned, and the state object it returns finds the invariant
    again. *)
Definition keeps_strokes (r : Ending Value * World L C * list Effect)
  : Prop :=
  (forall pts color radius eraser,
     In (DrawPoints pts color radius) (snd r) ->
     exists calls, drawPoints eraser pts color radius = Returned calls) /\
  (forall s', fst (fst r) = Returns (VState s') ->
     stroke_inv s' (snd (fst r))).

(** The line that [simulateDrawingLines] saves for the line [l]: an empty
    colour and a radius of 0 (or not-a-number) give way to the props. *)
Definition resaved (p : Props) (l : Line) : Line :=
  mkLine (line_points l)
         (or_string (line_brushColor l) (brushColor p))
         (or_number (line_brushRadius l) (brushRadius p)).

(** A line that is saved again as it is. *)
Definition line_kept (l : Line) : Prop :=
  (2 <= length (line_points l))%nat /\
  line_brushColor l <> ""%string /\
  is_nan (line_brushRadius l) = false /\
  is_zero (line_brushRadius l) = false.

(** The states in which nothing is in progress. *)
Definition resting (s : GestureState) : bool :=
  match s with
  | DefaultState | DisabledState => true
  | _ => false
  end.

(** The states that do not pan or zoom. *)
Definition plain (s : GestureState) : bool :=
  match s with
  | DefaultState | DisabledState | DrawingState _ => true
  | _ => false
  end.

End Invariants.

(** A saved line and a world that holds it, for the examples. *)
Definition a_line : Line :=
  mkLine [mkPoint 1 1; mkPoint 2 2; mkPoint 3 3] "#000000" 5.

Definition world_with_line (tool : string) (panAndZoom : bool)
  : World Point ViewState :=
  mkWorld (props_with tool panAndZoom) (view_at 0 0 1) (mkPoint 200 200)
          [] [a_line] 0 0 400 400 (fun n => 1000 + Z.of_nat n)%Z 0
          (fun _ => white_2x2) (fun _ _ => Pixels.red) 0 100.

(** The default props with the [disabled] prop set, and with
    [clampLinesToDocument] set. *)
Definition disabled_world : World Point ViewState :=
  mkWorld (mkProps true false 0x1.47ae147ae147bp-7 "Pencil" "#db2727" 10
                   false 400 400 "")
          (view_at 0 0 1) (mkPoint 200 200) [] [] 0 0 400 400
          (fun n => 1000 + Z.of_nat n)%Z 0
          (fun _ => white_2x2) (fun _ _ => Pixels.red) 0 100.

Definition clamping_world : World Point ViewState :=
  mkWorld (mkProps false false 0x1.47ae147ae147bp-7 "Pencil" "#db2727" 10
                   true 400 400 "")
          (view_at 0 0 1) (mkPoint 200 200) [] [] 0 0 400 400
          (fun n => 1000 + Z.of_nat n)%Z 0
          (fun _ => white_2x2) (fun _ _ => Pixels.red) 0 100.

End Strokes.

(** ** Part VI: the whole of [FloodFill.fill] *)

Module SpanTotal.
Import SpanFill.

Section Measure.

Context {Img Color : Type} `{ImageOps Img Color}.

(** All the pixels of an image. *)
Definition coords (img : Img) : list (Z * Z) :=
  list_prod (seqZ 0 (img_width img)) (seqZ 0 (img_height img)).

(** The number of pixels that are still valid targets. *)
Definition valid_count (this : FloodFill Img Color) : nat :=
  length (List.filter (fun pixel => isValidTarget this (Some pixel))
                      (coords (imageData this))).

(** What decreases with every line that [fillQueue] takes from the queue:
    each painted span takes at least one valid target away and adds at
    most two lines. *)
Definition measure (this : FloodFill Img Color) : nat :=
  2 * valid_count this + length (_queue this).

(** The fuel that lets every [fill] return. *)
Definition fill_fuel (img : Img) : nat :=
  2 * (Z.to_nat (img_width img) * Z.to_nat (img_height img))
  + 2 * Z.to_nat (img_width img) + 3.

(** The states of a fill of the image [orig] that replaces the colour
    [replaced] by [newColor] within [tolerance]: the fields that [fill]
    assigned, an image of the same size in which a pixel either has the
    colour it had or has been painted and was a valid target, and a
    queue of lines that lie inside the image. *)
Record filling (good : Img -> Prop) (orig : Img) (replaced newColor : Color)
    (tolerance : Z) (this : FloodFill Img Color) : Prop := mkFilling {
  fl_tolerance : _tolerance this = tolerance;
  fl_replaced : _replacedColor this = replaced;
  fl_new : _newColor this = newColor;
  fl_width : img_width (imageData this) = img_width orig;
  fl_height : img_height (imageData this) = img_height orig;
  fl_good : good (imageData this);
  fl_pixels : forall a b, in_image orig a b ->
    getColorAtPixel (imageData this) a b = getColorAtPixel orig a b \/
    (getColorAtPixel (imageData this) a b = newColor /\
     isSameColor replaced (getColorAtPixel orig a b) tolerance = true);
  fl_queue : forall start end_ y parentY,
    In (start, end_, y, parentY) (_queue this) ->
    0 <= start /\ end_ < img_width orig /\ 0 <= y < img_height orig
}.

(** A later state of the same fill: what was painted stays painted. *)
Definition painted_stays (orig : Img) (newColor : Color)
    (this this' : FloodFill Img Color) : Prop :=
  forall a b, in_image orig a b ->
    getColorAtPixel (imageData this) a b = newColor ->
    getColorAtPixel (imageData this') a b = newColor.

(** A pixel that the fill is to paint: inside the image, of a colour that
    matches the replaced one within the tolerance. *)
Definition target (orig : Img) (replaced : Color) (tolerance : Z)
    (a b : Z) : Prop :=
  in_image orig a b /\
  isSameColor replaced (getColorAtPixel orig a b) tolerance = true.

(** Pixels side by side, or one above the other. *)
Definition beside (a b a' b' : Z) : Prop :=
  (b' = b /\ (a' = a + 1 \/ a' = a - 1)) \/
  (a' = a /\ (b' = b + 1 \/ b' = b - 1)).

(** The targets that a path of targets, each beside the one before, joins
    to the seed [(x, y)]. *)
Inductive joined (orig : Img) (replaced : Color) (tolerance : Z)
    (x y : Z) : Z -> Z -> Prop :=
| joined_seed :
    target orig replaced tolerance x y ->
    joined orig replaced tolerance x y x y
| joined_step a b a' b' :
    joined orig replaced tolerance x y a b ->
    beside a b a' b' ->
    target orig replaced tolerance a' b' ->
    joined orig replaced tolerance x y a' b'.

(** A target that holds the new colour. *)
Definition painted (orig : Img) (replaced newColor : Color) (tolerance : Z)
    (this : FloodFill Img Color) (a b : Z) : Prop :=
  target orig replaced tolerance a b /\
  getColorAtPixel (imageData this) a b = newColor.

(** The pixel [(a, b)] lies on a line that is still to be looked at. *)
Definition pending (lines : list Line) (a b : Z) : Prop :=
  exists start end_ parentY,
    In (start, end_, b, parentY) lines /\ start <= a <= end_.

(** Where a queued line comes from: it is the seed line, or it lies next to
    a row ([parentY]) that is painted all along the line. *)
Definition from_parent (orig : Img) (replaced newColor : Color)
    (tolerance x y : Z) (this : FloodFill Img Color) (line : Line) : Prop :=
  let '(start, end_, row, parentY) := line in
  (parentY = -1 /\ start = x /\ end_ = x /\ row = y) \/
  ((parentY = row - 1 \/ parentY = row + 1) /\
   forall a, start <= a <= end_ ->
     painted orig replaced newColor tolerance this a parentY).

(** What the fill keeps true while it spreads from the seed [(x, y)];
    [work] is what is left of the line that [fillQueue] is looking at.
    Painted pixels are joined to the seed; a target beside a painted pixel
    on its row is painted; every queued line comes from a painted row; and
    a target above or below a painted pixel is painted or lies on a line
    still to be looked at. *)
Record spreading (orig : Img) (replaced newColor : Color)
    (tolerance x y : Z) (work : list Line) (this : FloodFill Img Color)
  : Prop := mkSpreading {
  sp_joined : forall a b,
    painted orig replaced newColor tolerance this a b ->
    joined orig replaced tolerance x y a b;
  sp_row : forall a b a',
    painted orig replaced newColor tolerance this a b ->
    a' = a + 1 \/ a' = a - 1 ->
    target orig replaced tolerance a' b ->
    painted orig replaced newColor tolerance this a' b;
  sp_queue : forall line, In line (_queue this) ->
    from_parent orig replaced newColor tolerance x y this line;
  sp_column : forall a b b',
    painted orig replaced newColor tolerance this a b ->
    b' = b + 1 \/ b' = b - 1 ->
    target orig replaced tolerance a b' ->
    painted orig replaced newColor tolerance this a b' \/
    pending (work ++ _queue this) a b'
}.

End Measure.

End SpanTotal.

(** ** Facts about [CanvasDraw.floodFill] *)

Module PixelFacts.
Import Pixels.

Lemma length_write l i v : length (write l i v) = length l.
Proof.
  unfold write. destruct (_ && _); [apply length_insert | reflexivity].
Qed.

Lemma read_write_same l i v :
  0 <= i < Z.of_nat (length l) -> read (write l i v) i = Some (v mod 2 ^ 32).
Proof.
  intros Hi. unfold read, write.
  replace (i <? 0) with false by lia.
  replace ((0 <=? i) && (i <? Z.of_nat (length l))) with true by lia.
  apply list_lookup_insert_eq. lia.
Qed.

Lemma read_write_other l i j v : i <> j -> read (write l i v) j = read l j.
Proof.
  intros Hne. unfold read, write.
  destruct (j <? 0) eqn:Hj; [reflexivity |].
  destruct (_ && _) eqn:Hin; [| reflexivity].
  apply list_lookup_insert_ne. lia.
Qed.

Lemma Forall_write l i v :
  Forall color32 l -> Forall color32 (write l i v).
Proof.
  intros Hl. unfold write. destruct (_ && _); [| exact Hl].
  apply Forall_insert; [exact Hl |].
  unfold color32. apply Z.mod_pos_bound. lia.
Qed.

Lemma index_bounds pd x y :
  wf pd -> inb pd x y ->
  0 <= y * width pd + x < Z.of_nat (length (data pd)).
Proof.
  intros (Hw & Hh & Hlen & _) [Hx Hy]. rewrite Hlen. nia.
Qed.

Lemma index_inj pd x y x' y' :
  inb pd x y -> inb pd x' y' ->
  y * width pd + x = y' * width pd + x' -> x = x' /\ y = y'.
Proof.
  intros [Hx Hy] [Hx' Hy'] Heq.
  assert (y = y') by nia. subst y'. lia.
Qed.

Lemma getPixel_oob pd x y : ~ inb pd x y -> getPixel pd x y = Some (-1).
Proof.
  intros Hn. unfold getPixel.
  destruct (_ || _) eqn:Hb; [reflexivity |].
  exfalso. apply Hn. unfold inb. lia.
Qed.

Lemma getPixel_inb pd x y :
  inb pd x y -> getPixel pd x y = read (data pd) (y * width pd + x).
Proof.
  intros [Hx Hy]. unfold getPixel.
  replace (_ || _) with false by lia. reflexivity.
Qed.

Lemma read_color32 l i c : Forall color32 l -> read l i = Some c -> color32 c.
Proof.
  intros Hl. unfold read. destruct (i <? 0); [discriminate |].
  intros Hi. rewrite Forall_lookup in Hl. eapply Hl, Hi.
Qed.

Lemma getPixel_inb_color pd x y :
  wf pd -> inb pd x y -> exists c, getPixel pd x y = Some c /\ color32 c.
Proof.
  intros Hwf Hin. rewrite getPixel_inb by exact Hin.
  pose proof (index_bounds _ _ _ Hwf Hin) as Hb.
  unfold read. replace (_ <? 0) with false by lia.
  destruct (data pd !! Z.to_nat (y * width pd + x)) as [c|] eqn:Hc.
  - exists c. split; [reflexivity |].
    destruct Hwf as (_ & _ & _ & Hall).
    rewrite Forall_lookup in Hall. eapply Hall, Hc.
  - apply lookup_ge_None in Hc. lia.
Qed.

(** A pixel that reads a 32-bit colour lies inside the buffer: outside,
    [getPixel] answers the sentinel. *)
Lemma getPixel_color_inb pd x y c :
  getPixel pd x y = Some c -> color32 c -> inb pd x y.
Proof.
  intros Hg Hc.
  destruct (decide (inb pd x y)) as [Hin | Hout]; [exact Hin |].
  rewrite getPixel_oob in Hg by exact Hout.
  injection Hg as <-. unfold color32 in Hc. lia.
Qed.

Lemma wf_setPixel pd x y v : wf pd -> wf (setPixel pd x y v).
Proof.
  intros (Hw & Hh & Hlen & Hall). unfold wf, setPixel; simpl.
  rewrite length_write. repeat split; try assumption.
  apply Forall_write, Hall.
Qed.

Lemma inb_setPixel pd x y v a b : inb (setPixel pd x y v) a b <-> inb pd a b.
Proof. reflexivity. Qed.

Lemma getPixel_set_same pd x y v :
  wf pd -> inb pd x y -> color32 v ->
  getPixel (setPixel pd x y v) x y = Some v.
Proof.
  intros Hwf Hin Hv.
  rewrite getPixel_inb by (apply inb_setPixel; exact Hin). simpl.
  rewrite read_write_same by (apply index_bounds; assumption).
  f_equal. apply Z.mod_small. exact Hv.
Qed.

Lemma getPixel_set_other pd x y v a b :
  inb pd x y -> (a, b) <> (x, y) ->
  getPixel (setPixel pd x y v) a b = getPixel pd a b.
Proof.
  intros Hin Hne.
  destruct (decide (inb pd a b)) as [Hab | Hab].
  - rewrite !getPixel_inb by assumption. simpl.
    apply read_write_other. intros Heq.
    destruct (index_inj _ _ _ _ _ Hin Hab Heq). congruence.
  - rewrite !getPixel_oob; [reflexivity | exact Hab | exact Hab].
Qed.

Lemma count_color_le S l : (count_color S l <= length l)%nat.
Proof. unfold count_color. apply length_filter. Qed.

Lemma count_color_insert S v l i :
  l !! i = Some S -> v <> S ->
  (count_color S (<[i:=v]> l) + 1 = count_color S l)%nat.
Proof.
  unfold count_color. revert i.
  induction l as [| c l IH]; intros [| i] Hi Hv; simpl in *; try discriminate.
  - injection Hi as ->.
    rewrite filter_cons_False by exact Hv.
    rewrite filter_cons_True by reflexivity. simpl. lia.
  - specialize (IH i Hi Hv).
    destruct (decide (c = S)) as [Hc | Hc].
    + rewrite !filter_cons_True by exact Hc. simpl. lia.
    + rewrite !filter_cons_False by exact Hc. exact IH.
Qed.

Lemma count_color_setPixel pd x y S F :
  wf pd -> inb pd x y -> getPixel pd x y = Some S -> F mod 2 ^ 32 <> S ->
  (count_color S (data (setPixel pd x y F)) + 1 = count_color S (data pd))%nat.
Proof.
  intros Hwf Hin Hg HF.
  pose proof (index_bounds _ _ _ Hwf Hin) as Hb.
  rewrite getPixel_inb in Hg by exact Hin.
  unfold read in Hg. replace (_ <? 0) with false in Hg by lia.
  simpl. unfold write.
  replace (_ && _) with true by lia.
  apply count_color_insert; assumption.
Qed.

Lemma adjacent_cases x y q :
  adjacent (x, y) q ->
  q = (x, y - 1) \/ q = (x, y + 1) \/ q = (x - 1, y) \/ q = (x + 1, y).
Proof.
  destruct q as [a b]. unfold adjacent. simpl. intros H.
  assert (Hc : (a = x /\ b = y - 1) \/ (a = x /\ b = y + 1) \/
               (a = x - 1 /\ b = y) \/ (a = x + 1 /\ b = y)) by lia.
  destruct Hc as [[-> ->] | [[-> ->] | [[-> ->] | [-> ->]]]]; auto.
Qed.

Section FillInvariant.

Variables (pd0 : PixelData) (S F : Z) (seed : Z * Z).
Hypothesis HS : color32 S.
Hypothesis HF : color32 F.
Hypothesis HFS : F <> S.

Lemma fill_inv_init :
  wf pd0 -> fill_inv pd0 S F seed [seed] pd0.
Proof.
  intros Hwf. constructor; try reflexivity; try assumption.
  - intros x y. left. reflexivity.
  - intros q Hq Hc. apply list_elem_of_singleton in Hq. subst q.
    apply region_seed. exact Hc.
  - intros p q Hp Hpf. exfalso.
    assert (Hps : getPixel pd0 (fst p) (snd p) = Some S)
      by (destruct Hp; assumption).
    congruence.
  - intros _. apply list_elem_of_singleton. reflexivity.
Qed.

Lemma fill_inv_skip x y rest pd :
  fill_inv pd0 S F seed ((x, y) :: rest) pd ->
  getPixel pd x y <> Some S ->
  fill_inv pd0 S F seed rest pd.
Proof.
  intros [Hw Hh Hwf Hpix Hstk Hfront Hseed] Hne.
  constructor; try assumption.
  - intros q Hq. apply Hstk. right. exact Hq.
  - intros p q Hp Hpf Hadj Hq.
    specialize (Hfront p q Hp Hpf Hadj Hq).
    apply elem_of_cons in Hfront as [-> | Hin]; [| exact Hin].
    simpl in Hq. contradiction.
  - intros Hs. specialize (Hseed Hs).
    apply elem_of_cons in Hseed as [Heq | Hin]; [| exact Hin].
    rewrite Heq in Hs. simpl in Hs. contradiction.
Qed.

Lemma fill_inv_paint x y rest pd :
  fill_inv pd0 S F seed ((x, y) :: rest) pd ->
  getPixel pd x y = Some S ->
  inb pd x y /\
  fill_inv pd0 S F seed
    ((x, y - 1) :: (x, y + 1) :: (x - 1, y) :: (x + 1, y) :: rest)
    (setPixel pd x y F).
Proof.
  intros [Hw Hh Hwf Hpix Hstk Hfront Hseed] Hg.
  assert (Hin : inb pd x y) by (eapply getPixel_color_inb; eassumption).
  assert (Hg0 : getPixel pd0 x y = Some S).
  { destruct (Hpix x y) as [He | [He _]]; congruence. }
  assert (Hreg : region pd0 S seed (x, y)).
  { apply Hstk; [left | exact Hg0]. }
  assert (Hnew : getPixel (setPixel pd x y F) x y = Some F)
    by (apply getPixel_set_same; assumption).
  split; [exact Hin |].
  constructor; try assumption.
  - apply wf_setPixel, Hwf.
  - intros a b. destruct (decide ((a, b) = (x, y))) as [Heq | Hne].
    + injection Heq as -> ->. right. split; assumption.
    + rewrite getPixel_set_other by assumption. apply Hpix.
  - intros q Hq Hc.
    assert (Hcase : adjacent (x, y) q \/ q ∈ rest).
    { repeat (apply elem_of_cons in Hq as [-> | Hq]);
        [left | left | left | left | right; exact Hq];
        unfold adjacent; simpl; lia. }
    destruct Hcase as [Hadj | Hrest].
    + eapply region_step; eassumption.
    + apply Hstk; [right; exact Hrest | exact Hc].
  - intros p q Hp Hpf Hadj Hq.
    assert (Hqne : q <> (x, y)).
    { intros ->. simpl in Hq. congruence. }
    destruct q as [a b]. simpl in Hq.
    rewrite getPixel_set_other in Hq by assumption.
    destruct (decide (p = (x, y))) as [-> | Hpne].
    + destruct (adjacent_cases _ _ _ Hadj) as [-> | [-> | [-> | ->]]];
        repeat first [left; reflexivity | right].
    + destruct p as [c d]. simpl in Hpf.
      rewrite getPixel_set_other in Hpf by assumption.
      specialize (Hfront (c, d) (a, b) Hp Hpf Hadj Hq).
      apply elem_of_cons in Hfront as [Heq | Hrest]; [contradiction |].
      do 4 right. exact Hrest.
  - intros Hs.
    assert (Hsne : seed <> (x, y)).
    { intros ->. simpl in Hs. congruence. }
    destruct seed as [a b]. simpl in *.
    rewrite getPixel_set_other in Hs by assumption.
    specialize (Hseed Hs).
    apply elem_of_cons in Hseed as [Heq | Hrest]; [contradiction |].
    do 4 right. exact Hrest.
Qed.

(** The loop ends, and ends in a state that satisfies the invariant with an
    empty stack. *)
Lemma fill_loop_inv fuel : forall stack pd,
  fill_inv pd0 S F seed stack pd ->
  (5 * count_color S (data pd) + length stack <= fuel)%nat ->
  exists pd', fill_loop fuel (Some S) F stack pd = Some pd' /\
              fill_inv pd0 S F seed [] pd'.
Proof.
  induction fuel as [| fuel IH]; intros stack pd Hinv Hm.
  - destruct stack as [| p rest]; [| simpl in Hm; lia].
    exists pd. split; [reflexivity | exact Hinv].
  - destruct stack as [| [x y] rest].
    { exists pd. split; [reflexivity | exact Hinv]. }
    simpl. unfold loop_body.
    destruct (decide (getPixel pd x y = Some S)) as [Hg | Hg].
    + destruct (fill_inv_paint _ _ _ _ Hinv Hg) as [Hin Hinv'].
      apply IH; [exact Hinv' |].
      pose proof (count_color_setPixel pd x y S F (inv_wf _ _ _ _ _ _ Hinv)
                    Hin Hg) as Hc.
      rewrite Z.mod_small in Hc by exact HF.
      specialize (Hc HFS). simpl in Hm. simpl length. lia.
    + apply IH; [eapply fill_inv_skip; eassumption |].
      simpl in Hm. lia.
Qed.

Lemma fill_inv_done_region pd' :
  fill_inv pd0 S F seed [] pd' ->
  forall p, region pd0 S seed p -> getPixel pd' (fst p) (snd p) = Some F.
Proof.
  intros [Hw Hh Hwf Hpix Hstk Hfront Hseed] p Hp.
  induction Hp as [Hs | p q Hp IH Hadj Hq].
  - destruct (Hpix (fst seed) (snd seed)) as [He | [He _]]; [| exact He].
    exfalso. rewrite Hs in He. specialize (Hseed He).
    apply elem_of_nil in Hseed. exact Hseed.
  - destruct (Hpix (fst q) (snd q)) as [He | [He _]]; [| exact He].
    exfalso. rewrite Hq in He.
    specialize (Hfront p q Hp IH Hadj He).
    apply elem_of_nil in Hfront. exact Hfront.
Qed.

Lemma fill_inv_done_frame pd' stack :
  fill_inv pd0 S F seed stack pd' ->
  forall x y, ~ region pd0 S seed (x, y) ->
  getPixel pd' x y = getPixel pd0 x y.
Proof.
  intros Hinv x y Hn.
  destruct (inv_pix _ _ _ _ _ _ Hinv x y) as [He | [_ Hr]];
    [exact He | contradiction].
Qed.

End FillInvariant.

Lemma region_color pd S seed p :
  region pd S seed p -> getPixel pd (fst p) (snd p) = Some S.
Proof. intros H; destruct H; assumption. Qed.

Lemma enough_fuel_ok pd S (stack : list (Z * Z)) :
  (length stack <= 1)%nat ->
  (5 * count_color S (data pd) + length stack <= enough_fuel pd)%nat.
Proof.
  intros Hs. pose proof (count_color_le S (data pd)). unfold enough_fuel. lia.
Qed.

Lemma fill_loop_mono target F n : forall m stack pd r,
  fill_loop n target F stack pd = Some r -> (n <= m)%nat ->
  fill_loop m target F stack pd = Some r.
Proof.
  induction n as [| n IH]; intros m stack pd r Hrun Hle.
  - destruct stack as [| [x y] rest]; [| discriminate].
    destruct m; exact Hrun.
  - destruct stack as [| [x y] rest]; [destruct m; exact Hrun |].
    destruct m as [| m]; [lia |]. simpl in *.
    destruct (loop_body target F x y rest pd) as [stack' pd'].
    apply IH; [exact Hrun | lia].
Qed.

(** Total correctness of the fill for a seed inside the buffer whose colour
    differs from the fill colour. *)
Lemma floodFill_total pd sx sy S F :
  wf pd -> getPixel pd sx sy = Some S -> color32 S -> color32 F -> F <> S ->
  exists pd',
    (forall fuel, (enough_fuel pd <= fuel)%nat ->
                  floodFill fuel pd sx sy F = Some pd') /\
    fill_inv pd S F (sx, sy) [] pd'.
Proof.
  intros Hwf Hseed HS HF HFS.
  assert (Hinit : fill_inv pd S F (sx, sy) [(sx, sy)] pd)
    by (apply fill_inv_init; assumption).
  destruct (fill_loop_inv pd S F (sx, sy) HS HF HFS (enough_fuel pd) _ _ Hinit
              (enough_fuel_ok pd S [(sx, sy)] (le_n 1)))
    as (pd' & Hrun & Hfin).
  exists pd'. split; [| exact Hfin].
  intros fuel Hfuel. unfold floodFill. rewrite Hseed.
  destruct (decide (Some S <> Some F)) as [_ | Hn];
    [| exfalso; apply Hn; congruence].
  eapply fill_loop_mono; eassumption.
Qed.

(** *** Seeds outside the buffer *)

(** Outside the buffer every pixel has a neighbour that is outside too. *)
Lemma oob_neighbour pd x y :
  ~ inb pd x y ->
  ~ inb pd x (y - 1) \/ ~ inb pd x (y + 1) \/
  ~ inb pd (x - 1) y \/ ~ inb pd (x + 1) y.
Proof. unfold inb. lia. Qed.

(** With the sentinel as target colour, a stack that holds a pixel outside
    the buffer never empties. *)
Lemma fill_loop_oob_runs F fuel : forall stack pd,
  wf pd -> (exists q, q ∈ stack /\ ~ inb pd (fst q) (snd q)) ->
  fill_loop fuel (Some (-1)) F stack pd = None.
Proof.
  induction fuel as [| fuel IH]; intros stack pd Hwf (q & Hq & Hout).
  - destruct stack as [| [x y] rest]; [| reflexivity].
    apply elem_of_nil in Hq. contradiction.
  - destruct stack as [| [x y] rest].
    { apply elem_of_nil in Hq. contradiction. }
    simpl. unfold loop_body.
    destruct (decide (getPixel pd x y = Some (-1))) as [Hg | Hg].
    + apply IH; [apply wf_setPixel, Hwf |].
      apply elem_of_cons in Hq as [-> | Hq].
      * simpl in Hout.
        destruct (oob_neighbour _ _ _ Hout) as [H | [H | [H | H]]].
        -- exists (x, y - 1). split; [left | exact H].
        -- exists (x, y + 1). split; [right; left | exact H].
        -- exists (x - 1, y). split; [do 2 right; left | exact H].
        -- exists (x + 1, y). split; [do 3 right; left | exact H].
      * exists q. split; [do 4 right; exact Hq | exact Hout].
    + apply IH; [exact Hwf |].
      apply elem_of_cons in Hq as [-> | Hq].
      * simpl in Hout. rewrite getPixel_oob in Hg by exact Hout.
        contradiction.
      * exists q. split; assumption.
Qed.

(** C1 (the code departs from the claim): for a seed outside the buffer
    [floodFill] rejects nothing.  [getPixel] answers the sentinel [-1] for
    the seed, the sentinel becomes the target colour, every pixel outside
    the buffer matches it, and the loop never ends: whatever the fuel, the
    call has not returned. *)
Theorem floodFill_oob_seed_never_returns pd x y F fuel :
  wf pd -> color32 F -> ~ inb pd x y ->
  floodFill fuel pd x y F = None.
Proof.
  intros Hwf HF Hout. unfold floodFill.
  rewrite (getPixel_oob _ _ _ Hout).
  destruct (decide (Some (-1) <> Some F)) as [_ | Hn].
  - apply fill_loop_oob_runs; [exact Hwf |].
    exists (x, y). split; [left | exact Hout].
  - exfalso. apply Hn. intros [= HF']. unfold color32 in HF. lia.
Qed.

Lemma wf_white_2x2 : wf (mkPixelData 2 2 [white; white; white; white]).
Proof.
  unfold wf, color32, white; simpl.
  repeat split; try lia; repeat constructor; lia.
Qed.

Lemma floodFill_oob_seed_never_returns_witness :
  floodFill 1000 (mkPixelData 2 2 [white; white; white; white]) 2 0 red = None.
Proof.
  apply floodFill_oob_seed_never_returns.
  - exact wf_white_2x2.
  - unfold color32, red. lia.
  - unfold inb. simpl. lia.
Defined.

(** The same call also paints pixels: after two iterations the seed
    [(2, 0)] of a white 2x2 buffer has turned pixels [(0, 1)] and [(0, 0)]
    red, through the indices [0 * 2 + 2] and [-1 * 2 + 2]. *)
Example floodFill_oob_seed_paints :
  fill_trace 2 (getPixel (mkPixelData 2 2 [white; white; white; white]) 2 0)
             red [(2, 0)] (mkPixelData 2 2 [white; white; white; white])
  = ([(2, -2); (2, 0); (1, -1); (3, -1); (2, 1); (1, 0); (3, 0)],
     mkPixelData 2 2 [red; white; red; white]).
Proof. vm_compute. reflexivity. Qed.

(** *** Seeds inside the buffer *)

(** C3: for a seed inside a region of colour [S] and a fill colour other
    than [S], [floodFill] (which compares colours exactly, tolerance 0)
    returns, and has recoloured exactly the pixels of the 4-connected
    region of colour [S] around the seed: every pixel of the region holds
    the fill colour and every other pixel holds what it held.  A buffer
    with a single such region surrounded by another colour is the case
    where the region is all pixels of colour [S]. *)
Theorem floodFill_recolors_exactly_region pd sx sy S F :
  wf pd -> inb pd sx sy -> getPixel pd sx sy = Some S ->
  color32 F -> F <> S ->
  exists pd',
    (forall fuel, (enough_fuel pd <= fuel)%nat ->
                  floodFill fuel pd sx sy F = Some pd') /\
    width pd' = width pd /\ height pd' = height pd /\
    (forall x y, region pd S (sx, sy) (x, y) -> getPixel pd' x y = Some F) /\
    (forall x y, ~ region pd S (sx, sy) (x, y) ->
                 getPixel pd' x y = getPixel pd x y).
Proof.
  intros Hwf Hin Hseed HF HFS.
  assert (HS : color32 S).
  { destruct (getPixel_inb_color _ _ _ Hwf Hin) as (c & Hc & Hc32).
    congruence. }
  destruct (floodFill_total pd sx sy S F Hwf Hseed HS HF HFS)
    as (pd' & Hrun & Hfin).
  exists pd'. repeat split.
  - exact Hrun.
  - apply (inv_width _ _ _ _ _ _ Hfin).
  - apply (inv_height _ _ _ _ _ _ Hfin).
  - intros x y Hr.
    apply (fill_inv_done_region pd S F (sx, sy) pd' Hfin (x, y) Hr).
  - intros x y Hr.
    apply (fill_inv_done_frame pd S F (sx, sy) pd' [] Hfin x y Hr).
Qed.

Lemma wf_row_wwb : wf (mkPixelData 3 1 [white; white; black]).
Proof.
  unfold wf, color32, white, black; simpl.
  repeat split; try lia; repeat constructor; lia.
Qed.

(** Scenario B, derived from the theorem: the row [white, white, black]
    filled with red from [(0, 0)] reads [red, red, black]. *)
Lemma floodFill_recolors_exactly_region_witness :
  exists pd',
    floodFill 17 (mkPixelData 3 1 [white; white; black]) 0 0 red = Some pd' /\
    getPixel pd' 0 0 = Some red /\ getPixel pd' 1 0 = Some red /\
    getPixel pd' 2 0 = Some black.
Proof.
  destruct (floodFill_recolors_exactly_region
              (mkPixelData 3 1 [white; white; black]) 0 0 white red)
    as (pd' & Hrun & _ & _ & Hreg & Hframe).
  - exact wf_row_wwb.
  - unfold inb; simpl; lia.
  - reflexivity.
  - unfold color32, red; lia.
  - unfold red, white; lia.
  - exists pd'. split; [apply Hrun; unfold enough_fuel; simpl; lia |].
    assert (H0 : region (mkPixelData 3 1 [white; white; black]) white
                        (0, 0) (0, 0)) by (apply region_seed; reflexivity).
    split; [apply Hreg, H0 |].
    split.
    + apply Hreg. apply (region_step _ _ _ (0, 0) (1, 0) H0);
        [unfold adjacent; simpl; lia | reflexivity].
    + rewrite Hframe; [reflexivity |].
      intros Hr. apply region_color in Hr. simpl in Hr.
      vm_compute in Hr. discriminate.
Defined.

(** Scenario B evaluated, for both readings of "1x3" (a row and a column). *)
Example floodFill_scenario_B :
  floodFill 17 (mkPixelData 3 1 [white; white; black]) 0 0 red
    = Some (mkPixelData 3 1 [red; red; black]) /\
  floodFill 17 (mkPixelData 1 3 [white; white; black]) 0 0 red
    = Some (mkPixelData 1 3 [red; red; black]).
Proof. split; vm_compute; reflexivity. Qed.

(** Scenario A evaluated: a white 3x3 buffer filled with black from the
    centre is black everywhere. *)
Example floodFill_scenario_A :
  floodFill 47 (mkPixelData 3 3 (replicate 9 white)) 1 1 black
    = Some (mkPixelData 3 3 (replicate 9 black)).
Proof. vm_compute. reflexivity. Qed.

(** C10: for a seed inside the buffer, [floodFill] returns, and every pixel
    whose colour differed from the seed pixel's colour at call time holds
    its original value afterwards. *)
Theorem floodFill_keeps_other_colors pd sx sy F :
  wf pd -> inb pd sx sy -> color32 F ->
  exists pd',
    (forall fuel, (enough_fuel pd <= fuel)%nat ->
                  floodFill fuel pd sx sy F = Some pd') /\
    (forall x y, getPixel pd x y <> getPixel pd sx sy ->
                 getPixel pd' x y = getPixel pd x y).
Proof.
  intros Hwf Hin HF.
  destruct (getPixel_inb_color _ _ _ Hwf Hin) as (S & Hseed & HS).
  destruct (decide (F = S)) as [-> | HFS].
  - exists pd. split; [| reflexivity].
    intros fuel _. unfold floodFill. rewrite Hseed.
    destruct (decide (Some S <> Some S)) as [Hn | _]; [contradiction |].
    reflexivity.
  - destruct (floodFill_total pd sx sy S F Hwf Hseed HS HF HFS)
      as (pd' & Hrun & Hfin).
    exists pd'. split; [exact Hrun |].
    intros x y Hne.
    apply (fill_inv_done_frame pd S F (sx, sy) pd' [] Hfin).
    intros Hr. apply region_color in Hr. simpl in Hr. congruence.
Qed.

Lemma floodFill_keeps_other_colors_witness :
  exists pd',
    floodFill 17 (mkPixelData 3 1 [white; white; black]) 0 0 red = Some pd' /\
    getPixel pd' 2 0 = Some black.
Proof.
  destruct (floodFill_keeps_other_colors
              (mkPixelData 3 1 [white; white; black]) 0 0 red)
    as (pd' & Hrun & Hframe).
  - exact wf_row_wwb.
  - unfold inb; simpl; lia.
  - unfold color32, red; lia.
  - exists pd'. split; [apply Hrun; unfold enough_fuel; simpl; lia |].
    rewrite Hframe; [reflexivity |]. vm_compute. discriminate.
Defined.

End PixelFacts.

(** ** Facts about [floodFill] on the numbers that [Math.round] gives *)

Module SeedFacts.
Import Pixels PixelFacts.

Lemma getPixel_Fin pd x y :
  Seeds.getPixel pd (Seeds.Fin x) (Seeds.Fin y) = getPixel pd x y.
Proof. reflexivity. Qed.

Lemma setPixel_Fin pd x y F :
  Seeds.setPixel pd (Seeds.Fin x) (Seeds.Fin y) F = setPixel pd x y F.
Proof. reflexivity. Qed.

(** On whole numbers the two loops are one. *)
Lemma fill_loop_Fin target F fuel : forall stack pd,
  Seeds.fill_loop fuel target F (map Seeds.whole stack) pd
  = fill_loop fuel target F stack pd.
Proof.
  induction fuel as [| fuel IH]; intros stack pd;
    destruct stack as [| [x y] rest]; try reflexivity.
  cbn [map Seeds.whole fst snd Seeds.fill_loop fill_loop].
  unfold Seeds.loop_body, loop_body.
  rewrite getPixel_Fin, setPixel_Fin.
  destruct (decide (getPixel pd x y = target)); [| apply IH].
  apply (IH ((x, y - 1) :: (x, y + 1) :: (x - 1, y) :: (x + 1, y) :: rest)).
Qed.

Lemma floodFill_Fin fuel pd x y F :
  Seeds.floodFill fuel pd (Seeds.Fin x) (Seeds.Fin y) F
  = floodFill fuel pd x y F.
Proof.
  unfold Seeds.floodFill, floodFill. rewrite getPixel_Fin.
  destruct (decide (getPixel pd x y <> Some F)); [| reflexivity].
  apply (fill_loop_Fin _ _ fuel [(x, y)]).
Qed.

(** What [getPixel] reads where no pixel is does not depend on the data:
    the sentinel, or [undefined]. *)
Lemma getPixel_no_pixel pd q :
  Seeds.no_pixel q ->
  Seeds.getPixel pd (fst q) (snd q)
  = if Seeds.lt0 (fst q) || Seeds.lt0 (snd q)
       || Seeds.geq (fst q) (width pd) || Seeds.geq (snd q) (height pd)
    then Some (-1) else None.
Proof.
  destruct q as [[a | | |] [b | | |]]; cbn [Seeds.no_pixel fst snd];
    intros Hq; try contradiction; unfold Seeds.getPixel;
    cbn [Seeds.index]; destruct (_ || _); reflexivity.
Qed.

Lemma setPixel_size pd x y F :
  width (Seeds.setPixel pd x y F) = width pd /\
  height (Seeds.setPixel pd x y F) = height pd.
Proof.
  unfold Seeds.setPixel. destruct (Seeds.index _ _ _); split; reflexivity.
Qed.

(** Where no pixel is, one of the four neighbours is the place itself. *)
Lemma no_pixel_neighbour x y :
  Seeds.no_pixel (x, y) ->
  (Seeds.plus1 x, y) = (x, y) \/ (x, Seeds.plus1 y) = (x, y).
Proof.
  destruct x as [a | | |], y as [b | | |]; cbn; intros Hq;
    try contradiction; auto.
Qed.

(** A stack that holds a place where no pixel is, and which reads as the
    target colour, never empties. *)
Lemma fill_loop_no_pixel_runs target F fuel : forall stack pd,
  (exists q, In q stack /\ Seeds.no_pixel q /\
             Seeds.getPixel pd (fst q) (snd q) = target) ->
  Seeds.fill_loop fuel target F stack pd = None.
Proof.
  induction fuel as [| fuel IH]; intros stack pd (q & Hq & Hno & Hread).
  - destruct stack as [| [x y] rest]; [destruct Hq | reflexivity].
  - destruct stack as [| [x y] rest]; [destruct Hq |].
    cbn [Seeds.fill_loop]. unfold Seeds.loop_body.
    destruct (decide (Seeds.getPixel pd x y = target)) as [Hg | Hg].
    + apply IH. exists q.
      assert (Hsame : Seeds.getPixel (Seeds.setPixel pd x y F) (fst q) (snd q)
                      = target).
      { rewrite getPixel_no_pixel by exact Hno.
        destruct (setPixel_size pd x y F) as [-> ->].
        rewrite <- getPixel_no_pixel by exact Hno. exact Hread. }
      split; [| split; [exact Hno | exact Hsame]].
      destruct Hq as [<- | Hq]; [| do 4 right; exact Hq].
      destruct (no_pixel_neighbour x y Hno) as [E | E].
      * do 3 right. left. exact E.
      * right. left. exact E.
    + apply IH. exists q. split; [| split; assumption].
      destruct Hq as [<- | Hq]; [| exact Hq].
      cbn [fst snd] in Hread. contradiction.
Qed.

(** For a seed that names no pixel of the canvas, [floodFill] never
    returns: whatever the fuel, the loop is still running. *)
Lemma floodFill_outside_runs pd x y F fuel :
  wf pd -> color32 F -> ~ Seeds.inside pd x y ->
  Seeds.floodFill fuel pd x y F = None.
Proof.
  intros Hwf HF Hout.
  assert (Hfin : forall a b, ~ inb pd a b ->
            Seeds.floodFill fuel pd (Seeds.Fin a) (Seeds.Fin b) F = None).
  { intros a b Hab. rewrite floodFill_Fin. unfold floodFill.
    rewrite (getPixel_oob _ _ _ Hab).
    destruct (decide (Some (-1) <> Some F)) as [_ | Hn].
    - apply fill_loop_oob_runs; [exact Hwf |].
      exists (a, b). split; [left | exact Hab].
    - exfalso. apply Hn. intros [= HF']. unfold color32 in HF. lia. }
  assert (Hno : Seeds.no_pixel (x, y) ->
                Seeds.floodFill fuel pd x y F = None).
  { intros Hq. unfold Seeds.floodFill.
    pose proof (getPixel_no_pixel pd (x, y) Hq) as Hread.
    cbn [fst snd] in Hread.
    destruct (decide (Seeds.getPixel pd x y <> Some F)) as [_ | Hn].
    - apply fill_loop_no_pixel_runs. exists (x, y).
      split; [left; reflexivity | split; [exact Hq | reflexivity]].
    - exfalso. apply Hn. rewrite Hread.
      destruct (_ || _); [| discriminate].
      intros [= HF']. unfold color32 in HF. lia. }
  destruct x as [a | | |], y as [b | | |];
    try (apply Hno; exact I).
  apply Hfin. exact Hout.
Qed.

(** For a seed that names a pixel, [floodFill] returns once the fuel
    suffices. *)
Lemma floodFill_inside_returns pd x y F fuel :
  wf pd -> color32 F -> Seeds.inside pd x y ->
  (enough_fuel pd <= fuel)%nat ->
  exists pd', Seeds.floodFill fuel pd x y F = Some pd'.
Proof.
  intros Hwf HF Hin Hfuel.
  destruct x as [a | | |], y as [b | | |]; try contradiction.
  cbn [Seeds.inside] in Hin. rewrite floodFill_Fin.
  destruct (getPixel_inb_color pd a b Hwf Hin) as (S & Hseed & HS).
  destruct (Z.eq_dec F S) as [-> | Hne].
  - exists pd. unfold floodFill. rewrite Hseed.
    destruct (decide (Some S <> Some S)); [contradiction | reflexivity].
  - destruct (floodFill_total pd a b S F Hwf Hseed HS HF Hne)
      as (pd' & Hrun & _).
    exists pd'. apply Hrun. exact Hfuel.
Qed.

End SeedFacts.

(** ** Facts about the [FloodFill] class *)

Module SpanFacts.
Import SpanFill.

Lemma toInt32_small n : - 2 ^ 31 <= n < 2 ^ 31 -> toInt32 n = n.
Proof.
  intros Hn. unfold toInt32.
  rewrite Z.mod_small by lia. lia.
Qed.

Section Laws.

Context {Img Color : Type} `{ImageOps Img Color}.

(** What the class needs of the utilities, on images that satisfy [good]
    (for the byte images above: as many bytes as the dimensions demand):
    writing a pixel keeps the dimensions, is read back, and leaves the
    other pixels alone. *)
Variable good : Img -> Prop.
Variable newColor : Color.
Hypothesis good_set : forall img c x y,
  good img -> good (setColorAtPixel img c x y).
Hypothesis set_width : forall img c x y,
  img_width (setColorAtPixel img c x y) = img_width img.
Hypothesis set_height : forall img c x y,
  img_height (setColorAtPixel img c x y) = img_height img.
Hypothesis get_set_same : forall img x y,
  good img -> in_image img x y ->
  getColorAtPixel (setColorAtPixel img newColor x y) x y = newColor.
Hypothesis get_set_other : forall img c x y x' y',
  good img -> in_image img x y -> in_image img x' y' -> (x', y') <> (x, y) ->
  getColorAtPixel (setColorAtPixel img c x y) x' y' = getColorAtPixel img x' y'.

Lemma same_fill_valid this this' x y :
  same_fill good this this' ->
  getColorAtPixel (imageData this') x y = getColorAtPixel (imageData this) x y ->
  isValidTarget this' (Some (x, y)) = isValidTarget this (Some (x, y)).
Proof.
  intros (Ht & Hr & _) Hg. unfold isValidTarget. rewrite Ht, Hr, Hg.
  reflexivity.
Qed.

Lemma same_fill_refl this : good (imageData this) -> same_fill good this this.
Proof. intros Hg. repeat split. exact Hg. Qed.

Lemma same_fill_paint this x y :
  good (imageData this) ->
  same_fill good this (setPixelColor this (_newColor this) (x, y)).
Proof.
  intros Hg. unfold same_fill, setPixelColor, set_imageData; simpl.
  rewrite set_width, set_height. repeat split. apply good_set, Hg.
Qed.

Lemma same_fill_trans t1 t2 t3 :
  same_fill good t1 t2 -> same_fill good t2 t3 -> same_fill good t1 t3.
Proof.
  unfold same_fill. intros (? & ? & ? & ? & ? & ? & ?) (? & ? & ? & ? & ? & ? & ?).
  repeat split; first [congruence | assumption].
Qed.

Lemma neighbour_step (this : FloodFill Img Color) direction edge y :
  img_width (imageData this) < 2 ^ 31 ->
  0 <= edge < img_width (imageData this) -> 0 <= y < 2 ^ 31 ->
  getPixelNeighbour this direction edge y =
    if (column direction edge 1 >=? 0) &&
       (column direction edge 1 <? img_width (imageData this))
    then Some (column direction edge 1, y) else None.
Proof.
  intros Hw He Hy. unfold getPixelNeighbour.
  rewrite (toInt32_small edge) by lia. rewrite (toInt32_small y) by lia.
  destruct direction; simpl; rewrite toInt32_small by lia; reflexivity.
Qed.

Lemma column_0 direction edge : column direction edge 0 = edge.
Proof. destruct direction; simpl; lia. Qed.

Lemma column_add direction edge j :
  column direction (column direction edge 1) j = column direction edge (j + 1).
Proof. destruct direction; simpl; lia. Qed.

Lemma column_inj direction edge i j :
  column direction edge i = column direction edge j -> i = j.
Proof. destruct direction; simpl; lia. Qed.

(** A scan that stops at once. *)
Lemma scan_post_stop direction y this edge :
  good (imageData this) -> 0 <= edge < img_width (imageData this) ->
  (0 <= column direction edge 1 < img_width (imageData this) ->
   isValidTarget this (Some (column direction edge 1, y)) = false) ->
  scan_post good direction y this edge this edge.
Proof.
  intros Hg He Hstop. exists 0.
  split; [symmetry; apply column_0 |].
  split; [lia |]. split; [exact He |].
  split; [apply same_fill_refl, Hg |].
  split; [intros j Hj; lia |].
  split; [exact Hstop |]. reflexivity.
Qed.

(** A scan that paints the neighbour and goes on from there. *)
Lemma scan_post_step direction y this edge this' m :
  _newColor this = newColor -> good (imageData this) ->
  0 <= edge < img_width (imageData this) ->
  0 <= y < img_height (imageData this) ->
  0 <= column direction edge 1 < img_width (imageData this) ->
  isValidTarget this (Some (column direction edge 1, y)) = true ->
  scan_post good direction y
    (setPixelColor this (_newColor this) (column direction edge 1, y))
    (column direction edge 1) this' m ->
  scan_post good direction y this edge this' m.
Proof.
  intros Hnew Hgood He Hy He1 Hvalid.
  remember (column direction edge 1) as e1 eqn:E1.
  set (this1 := setPixelColor this (_newColor this) (e1, y)).
  intros (k & Hm & Hk & Hcol & Hsame & Hpaint & Hstop & Hframe).
  pose proof (same_fill_paint this e1 y Hgood) as Hsame1. fold this1 in Hsame1.
  pose proof Hsame1 as (Ht1 & Hr1 & Hn1 & Hq1 & Hw1 & Hh1 & Hg1).
  assert (Hin1 : in_image (imageData this) e1 y) by (split; lia).
  assert (Hother : forall a b,
            in_image (imageData this) a b -> (a, b) <> (e1, y) ->
            getColorAtPixel (imageData this1) a b
              = getColorAtPixel (imageData this) a b).
  { intros a b Hab Hne. subst this1. simpl.
    apply get_set_other; assumption. }
  assert (Hcol_add : forall j,
            column direction edge (j + 1) = column direction e1 j).
  { intros j. rewrite E1. symmetry. apply column_add. }
  assert (Hne_col : forall j, 1 <= j -> (column direction e1 j, y) <> (e1, y)).
  { intros j Hj [= Hc]. rewrite <- Hcol_add in Hc.
    rewrite E1 in Hc. apply column_inj in Hc. lia. }
  assert (Hbetween : forall j, 0 <= j <= k ->
            0 <= column direction e1 j < img_width (imageData this)).
  { intros j Hj. rewrite Hw1 in Hcol. subst m.
    clear - He1 Hcol Hj. destruct direction; simpl in *; lia. }
  exists (k + 1). rewrite Hcol_add.
  split; [exact Hm |]. split; [lia |].
  split; [rewrite <- Hw1; exact Hcol |].
  split; [eapply same_fill_trans; eassumption |].
  split.
  { intros j Hj. destruct (decide (j = 1)) as [-> | Hj1].
    - rewrite <- E1. split; [exact Hvalid |].
      rewrite Hframe.
      + subst this1. simpl. rewrite Hnew. apply get_set_same; assumption.
      + split; [rewrite Hw1 | rewrite Hh1]; lia.
      + intros i Hi Hc. symmetry in Hc. revert Hc. apply Hne_col. lia.
    - replace j with ((j - 1) + 1) by lia. rewrite Hcol_add.
      destruct (Hpaint (j - 1)) as [Hv Hc]; [lia |].
      split; [| rewrite Hc; exact Hn1].
      rewrite <- Hv. symmetry. apply same_fill_valid; [exact Hsame1 |].
      apply Hother; [| apply Hne_col; lia].
      split; [apply Hbetween; lia | lia]. }
  split.
  { rewrite Hcol_add. intros Hr.
    rewrite <- Hstop by (rewrite Hw1; exact Hr).
    symmetry. apply same_fill_valid; [exact Hsame1 |].
    apply Hother; [split; lia | apply Hne_col; lia]. }
  intros a b Hab Hne.
  rewrite Hframe.
  - apply Hother; [exact Hab |]. rewrite E1. apply (Hne 1). lia.
  - destruct Hab. split; [rewrite Hw1 | rewrite Hh1]; assumption.
  - intros j Hj. rewrite <- Hcol_add. apply Hne. lia.
Qed.

(** Every scan returns, with [scan_post]. *)
Lemma scan_spec direction y fuel : forall this edge,
  _newColor this = newColor -> good (imageData this) ->
  img_width (imageData this) < 2 ^ 31 ->
  0 <= edge < img_width (imageData this) ->
  0 <= y < img_height (imageData this) -> y < 2 ^ 31 ->
  (room direction (img_width (imageData this)) edge <= fuel)%nat ->
  exists this' m,
    scan fuel direction this edge y (getPixelNeighbour this direction edge y)
      = Some (this', m) /\
    scan_post good direction y this edge this' m.
Proof.
  induction fuel as [| fuel IH];
    intros this edge Hnew Hgood Hw He Hy Hy31 Hroom;
    rewrite neighbour_step by lia;
    destruct ((column direction edge 1 >=? 0) &&
              (column direction edge 1 <? img_width (imageData this))) eqn:Hnb;
    try (exists this, edge; split; [reflexivity |];
         apply scan_post_stop; [assumption | assumption | lia]).
  - exfalso. destruct direction; simpl in *; lia.
  - cbn [scan].
    destruct (isValidTarget this (Some (column direction edge 1, y)))
      eqn:Hvalid.
    2:{ exists this, edge. split; [reflexivity |].
        apply scan_post_stop; [assumption | assumption |].
        intros _. exact Hvalid. }
    pose proof (same_fill_paint this (column direction edge 1) y Hgood)
      as (Ht1 & Hr1 & Hn1 & Hq1 & Hw1 & Hh1 & Hg1).
    destruct (IH (setPixelColor this (_newColor this)
                    (column direction edge 1, y))
                 (column direction edge 1))
      as (this' & m & Hrun & Hpost); try congruence; try lia.
    { rewrite Hw1. destruct direction; simpl in *; lia. }
    exists this', m. split; [exact Hrun |].
    apply scan_post_step; try assumption. lia.
Qed.

Lemma fillLineAt_span fuel this x y :
  _newColor this = newColor -> good (imageData this) ->
  img_width (imageData this) < 2 ^ 31 ->
  img_height (imageData this) < 2 ^ 31 ->
  in_image (imageData this) x y ->
  isValidTarget this (Some (x, y)) = true ->
  (Z.to_nat (img_width (imageData this)) <= fuel)%nat ->
  exists this' minX maxX,
    fillLineAt fuel this x y = Some (this', (minX, maxX)) /\
    span_post good this x y this' minX maxX.
Proof.
  intros Hnew Hgood Hw Hh [Hx Hy] Hvalid Hfuel.
  unfold fillLineAt. rewrite Hvalid. cbn [negb].
  set (this1 := setPixelColor this (_newColor this) (x, y)).
  pose proof (same_fill_paint this x y Hgood) as Hsame1. fold this1 in Hsame1.
  pose proof Hsame1 as (Ht1 & Hr1 & Hn1 & Hq1 & Hw1 & Hh1 & Hg1).
  destruct (scan_spec Left y fuel this1 x)
    as (thisL & minX & HrunL & kL & HmL & HkL & HcolL & HsameL & HpaintL
        & HstopL & HframeL); try congruence; try lia.
  { simpl. lia. }
  rewrite HrunL.
  pose proof HsameL as (HtL & HrL & HnL & HqL & HwL & HhL & HgL).
  destruct (scan_spec Right y fuel thisL x)
    as (thisR & maxX & HrunR & kR & HmR & HkR & HcolR & HsameR & HpaintR
        & HstopR & HframeR); try congruence; try lia.
  { simpl. lia. }
  rewrite HrunR.
  pose proof HsameR as (HtR & HrR & HnR & HqR & HwR & HhR & HgR).
  exists thisR, minX, maxX. split; [reflexivity |].
  cbn [column] in HmL, HmR, HpaintL, HpaintR, HstopL, HstopR, HframeL, HframeR.
  assert (Hin : in_image (imageData this) x y) by (split; assumption).
  assert (G1 : forall a b, in_image (imageData this) a b -> (a, b) <> (x, y) ->
            getColorAtPixel (imageData this1) a b
              = getColorAtPixel (imageData this) a b).
  { intros a b Hab Hne. subst this1. simpl. apply get_set_other; assumption. }
  assert (G1x : getColorAtPixel (imageData this1) x y = newColor).
  { subst this1. simpl. rewrite Hnew. apply get_set_same; assumption. }
  assert (I1 : forall a b, in_image (imageData this) a b ->
                           in_image (imageData this1) a b).
  { intros a b [Ha Hb]. split; [rewrite Hw1 | rewrite Hh1]; assumption. }
  assert (IL : forall a b, in_image (imageData this) a b ->
                           in_image (imageData thisL) a b).
  { intros a b [Ha Hb]. split; [rewrite HwL, Hw1 | rewrite HhL, Hh1];
      assumption. }
  assert (V1 : forall a, 0 <= a < img_width (imageData this) -> a <> x ->
            isValidTarget this1 (Some (a, y)) = isValidTarget this (Some (a, y))).
  { intros a Ha Hax. apply same_fill_valid; [exact Hsame1 |].
    apply G1; [split; assumption | congruence]. }
  assert (VL : forall a, 0 <= a < img_width (imageData this) -> x < a ->
            isValidTarget thisL (Some (a, y)) = isValidTarget this (Some (a, y))).
  { intros a Ha Hax. rewrite <- V1 by lia.
    apply same_fill_valid; [exact HsameL |].
    apply HframeL; [apply I1; split; assumption |].
    intros j Hj [= Hc]. lia. }
  unfold span_post.
  split; [lia |]. split; [rewrite HwL, Hw1 in HcolR; lia |].
  split; [eapply same_fill_trans; [exact Hsame1 |];
          eapply same_fill_trans; eassumption |].
  split.
  { intros i Hi.
    assert (Hiw : 0 <= i < img_width (imageData this)).
    { rewrite Hw1 in HcolL. rewrite HwL, Hw1 in HcolR. lia. }
    destruct (Z.lt_trichotomy i x) as [Hlt | [-> | Hgt]].
    - destruct (HpaintL (x - i)) as [Hv Hc]; [lia |].
      replace (x - (x - i)) with i in * by lia.
      split; [rewrite <- V1 by lia; exact Hv |].
      rewrite HframeR; [rewrite Hc; congruence | apply IL; split; assumption |].
      intros j Hj [= Hc']. lia.
    - split; [exact Hvalid |].
      rewrite HframeR; [| apply IL; split; assumption
                        | intros j Hj [= Hc']; lia].
      rewrite HframeL; [rewrite G1x; congruence | apply I1; split; assumption |].
      intros j Hj [= Hc']. lia.
    - destruct (HpaintR (i - x)) as [Hv Hc]; [lia |].
      replace (x + (i - x)) with i in * by lia.
      split; [rewrite <- VL by lia; exact Hv |].
      rewrite Hc. congruence. }
  split.
  { intros Hpos. replace (minX - 1) with (x - (kL + 1)) by lia.
    rewrite <- V1 by lia. apply HstopL. rewrite Hw1. lia. }
  split.
  { intros Hroom. replace (maxX + 1) with (x + (kR + 1)) by lia.
    rewrite <- VL by lia. apply HstopR. rewrite HwL, Hw1. lia. }
  intros p q Hpq Hout.
  rewrite HframeR; [| apply IL; exact Hpq
                    | intros j Hj [= Hc1 Hc2]; apply Hout; lia].
  rewrite HframeL; [| apply I1; exact Hpq
                    | intros j Hj [= Hc1 Hc2]; apply Hout; lia].
  apply G1; [exact Hpq |]. intros [= Hc1 Hc2]. apply Hout. lia.
Qed.

(** The seed line [[x, x, y, -1]]: one call of [fillLineAt], then both
    neighbouring rows are queued and the inner loop ends. *)
Lemma line_loop_seed fuel this x y this' minX maxX :
  0 <= x -> 0 <= minX -> x <= maxX ->
  fillLineAt fuel this x y = Some (this', (minX, maxX)) ->
  line_loop (S fuel) this x x y (-1) x
    = Some (enqueue_rows this' x x y (-1) minX maxX) /\
  _queue (enqueue_rows this' x x y (-1) minX maxX)
    = rows_around (imageData this') minX maxX y ++ _queue this'.
Proof.
  intros Hx Hmin Hmax Hfill. split.
  - cbn [line_loop].
    replace (negb (x =? -1) && (x <=? x)) with true by lia.
    rewrite Hfill.
    replace ((maxX =? -1) && (x <=? x)) with false by lia.
    destruct fuel; cbn [line_loop];
      replace (negb (maxX + 1 =? -1) && (maxX + 1 <=? x)) with false by lia;
      reflexivity.
  - unfold enqueue_rows, rows_around.
    replace (negb (minX =? -1)) with true by lia.
    replace ((minX >=? x) && (maxX <=? x) && negb (-1 =? -1)) with false
      by (rewrite andb_false_r; reflexivity).
    destruct (y >? 0), (y + 1 <? img_height (imageData this')) eqn:Hh;
      simpl; rewrite ?Hh; reflexivity.
Qed.

End Laws.

(** *** The reference utilities satisfy the laws *)

Lemma length_put_byte l i v : length (put_byte l i v) = length l.
Proof.
  unfold put_byte. destruct (_ && _); [apply length_insert | reflexivity].
Qed.

Lemma byte_at_put_same l i v :
  0 <= i < Z.of_nat (length l) -> byte_at (put_byte l i v) i = clamp8 v.
Proof.
  intros Hi. unfold byte_at, put_byte.
  replace (i <? 0) with false by lia.
  replace ((0 <=? i) && (i <? Z.of_nat (length l))) with true by lia.
  rewrite list_lookup_insert_eq by lia. reflexivity.
Qed.

Lemma byte_at_put_other l i j v :
  i <> j -> byte_at (put_byte l i v) j = byte_at l j.
Proof.
  intros Hne. unfold byte_at, put_byte.
  destruct (j <? 0) eqn:Hj; [reflexivity |].
  destruct (_ && _) eqn:Hin; [| reflexivity].
  rewrite list_lookup_insert_ne by lia. reflexivity.
Qed.

Lemma rgba_wf_set img c x y : rgba_wf img -> rgba_wf (rgba_set img c x y).
Proof.
  intros (Hw & Hh & Hlen). unfold rgba_wf, rgba_set; simpl.
  rewrite !length_put_byte. repeat split; assumption.
Qed.

Lemma rgba_get_set_same img c x y :
  rgba_byte c -> rgba_wf img -> in_image img x y ->
  rgba_get (rgba_set img c x y) x y = c.
Proof.
  intros (Hr & Hg & Hb & Ha) (Hw & Hh & Hlen) [Hx Hy]. simpl in Hx, Hy.
  assert (Hpos : 0 <= 4 * (y * width img + x) /\
                 4 * (y * width img + x) + 3 < Z.of_nat (length (data img)))
    by (rewrite Hlen; nia).
  unfold rgba_get, rgba_set; simpl.
  rewrite (byte_at_put_same _ (_ + 3)) by (rewrite !length_put_byte; lia).
  rewrite !(byte_at_put_other _ (_ + 3)) by lia.
  rewrite (byte_at_put_same _ (_ + 2)) by (rewrite !length_put_byte; lia).
  rewrite !(byte_at_put_other _ (_ + 2)) by lia.
  rewrite (byte_at_put_same _ (_ + 1)) by (rewrite !length_put_byte; lia).
  rewrite !(byte_at_put_other _ (_ + 1)) by lia.
  rewrite byte_at_put_same by lia.
  destruct c as [cr cg cb ca]; simpl in *.
  unfold clamp8. f_equal; lia.
Qed.

Lemma rgba_get_set_other img c x y x' y' :
  rgba_wf img -> in_image img x y -> in_image img x' y' ->
  (x', y') <> (x, y) ->
  rgba_get (rgba_set img c x y) x' y' = rgba_get img x' y'.
Proof.
  intros (Hw & Hh & Hlen) [Hx Hy] [Hx' Hy'] Hne. simpl in Hx, Hy, Hx', Hy'.
  assert (Hidx : y' * width img + x' <> y * width img + x).
  { intros Heq. apply Hne.
    assert (y' = y) by nia. subst y'. f_equal. lia. }
  unfold rgba_get, rgba_set; simpl.
  rewrite !byte_at_put_other by lia. reflexivity.
Qed.

End SpanFacts.

(** ** The two fills compared *)

Module FillClaims.
Import Pixels SpanFill SpanFacts.

(** One pass of the loop of [CanvasDraw.floodFill] changes at most one
    element of the pixel array. *)
Lemma loop_body_one_pixel target F x y rest pd :
  exists i, forall j, j <> i ->
    Pixels.data (snd (loop_body target F x y rest pd)) !! j
      = Pixels.data pd !! j.
Proof.
  unfold loop_body.
  destruct (decide (getPixel pd x y = target)); simpl.
  - unfold write. destruct (_ && _).
    + exists (Z.to_nat (y * Pixels.width pd + x)). intros j Hj.
      apply list_lookup_insert_ne. congruence.
    + exists 0%nat. reflexivity.
  - exists 0%nat. reflexivity.
Qed.

(** C6, as the code has it.  The [fill] method of the [FloodFill] class is
    a span fill: when the seed pixel's colour does not match the new colour
    within the tolerance, the first call of [fillLineAt] extends left and
    right from the seed column while pixels match the seed colour within
    the tolerance and paints that whole span ([span_post]: painted,
    maximal, nothing else touched); the rows above and below the span are
    then queued when they lie inside the image ([rows_around]), and the
    queue loop goes on from there.  The [floodFill] method of [CanvasDraw],
    which is the fill that the tools call, is not: each pass of its loop
    changes at most one pixel, and a pass that finds the target colour
    pushes the four neighbours of its pixel. *)
Theorem fill_is_span_based {Img Color : Type} `{ImageOps Img Color}
    (good : Img -> Prop) (this : FloodFill Img Color) (newColor : Color)
    (x y tolerance : Z) (fuel : nat) :
  (forall img c x y, good img -> good (setColorAtPixel img c x y)) ->
  (forall img c x y, img_width (setColorAtPixel img c x y) = img_width img) ->
  (forall img c x y, img_height (setColorAtPixel img c x y) = img_height img) ->
  (forall img x y, good img -> in_image img x y ->
     getColorAtPixel (setColorAtPixel img newColor x y) x y = newColor) ->
  (forall img c x y x' y', good img -> in_image img x y ->
     in_image img x' y' -> (x', y') <> (x, y) ->
     getColorAtPixel (setColorAtPixel img c x y) x' y'
       = getColorAtPixel img x' y') ->
  good (imageData this) ->
  img_width (imageData this) < 2 ^ 31 ->
  img_height (imageData this) < 2 ^ 31 ->
  in_image (imageData this) x y ->
  isSameColor (getColorAtPixel (imageData this) x y) newColor tolerance
    = false ->
  isSameColor (getColorAtPixel (imageData this) x y)
              (getColorAtPixel (imageData this) x y) tolerance = true ->
  (Z.to_nat (img_width (imageData this)) <= fuel)%nat ->
  let this0 :=
    mkFloodFill (imageData this) tolerance (_queue this)
                (getColorAtPixel (imageData this) x y) newColor in
  (exists this' minX maxX this'',
     fillLineAt fuel this0 x y = Some (this', (minX, maxX)) /\
     span_post good this0 x y this' minX maxX /\
     imageData this'' = imageData this' /\
     _queue this''
       = rows_around (imageData this') minX maxX y ++ _queue this /\
     fill (S (S fuel)) this newColor x y tolerance
       = fillQueue (S fuel) this'') /\
  (forall target F px py rest pd,
     exists i, forall j, j <> i ->
       Pixels.data (snd (loop_body target F px py rest pd)) !! j
         = Pixels.data pd !! j) /\
  (forall target F px py rest pd,
     getPixel pd px py = target ->
     fst (loop_body target F px py rest pd)
       = (px, py - 1) :: (px, py + 1) :: (px - 1, py) :: (px + 1, py) :: rest).
Proof.
  intros Hgs Hsw Hsh Hsame Hother Hgood Hw Hh Hin Hdiff Hrefl Hfuel this0.
  split; [| split; [intros; apply loop_body_one_pixel |]].
  2:{ intros target F px py rest pd Ht. unfold loop_body.
      destruct (decide (getPixel pd px py = target));
        [reflexivity | contradiction]. }
  destruct (fillLineAt_span good newColor Hgs Hsw Hsh Hsame Hother
              fuel this0 x y)
    as (this' & minX & maxX & Hfill & Hpost); try assumption; try reflexivity.
  pose proof Hpost as ((Hmin0 & Hminx) & (Hmaxx & Hmaxw) & Hsf & _).
  destruct Hin as [Hx Hy].
  destruct (line_loop_seed fuel this0 x y this' minX maxX)
    as [Hline Hqueue]; try assumption; try lia.
  exists this', minX, maxX, (enqueue_rows this' x x y (-1) minX maxX).
  split; [exact Hfill |]. split; [exact Hpost |].
  split.
  { unfold enqueue_rows.
    repeat match goal with |- context [if ?c then _ else _] =>
                             destruct c end; reflexivity. }
  split.
  { rewrite Hqueue. f_equal.
    destruct Hsf as (_ & _ & _ & Hq & _). exact Hq. }
  unfold fill. fold this0. cbn [_replacedColor _newColor _tolerance].
  subst this0. cbn [_replacedColor _newColor _tolerance]. rewrite Hdiff.
  set (this0 := mkFloodFill _ _ _ _ _) in *.
  change (fillQueue (S (S fuel)) (addToQueue this0 (x, x, y, -1)))
    with (match line_loop (S fuel) this0 x x y (-1) x with
          | None => None
          | Some t => fillQueue (S fuel) t
          end).
  rewrite Hline. reflexivity.
Qed.

Lemma rgba_wf_row_wwb : rgba_wf row_wwb.
Proof. unfold rgba_wf, row_wwb; simpl. lia. Qed.

Lemma fill_is_span_based_witness :
  exists this' minX maxX,
    fillLineAt 3 (mkFloodFill row_wwb 0 [] rgba_white rgba_red) 0 0
      = Some (this', (minX, maxX)) /\
    span_post rgba_wf (mkFloodFill row_wwb 0 [] rgba_white rgba_red) 0 0
              this' minX maxX.
Proof.
  destruct (fill_is_span_based rgba_wf (fill_on row_wwb) rgba_red 0 0 0 3)
    as [(this' & minX & maxX & this'' & Hfill & Hpost & _) _].
  - intros img c x y. apply rgba_wf_set.
  - reflexivity.
  - reflexivity.
  - intros img x y. apply rgba_get_set_same.
    unfold rgba_byte, rgba_red; simpl. lia.
  - intros img c x y x' y'. apply rgba_get_set_other.
  - exact rgba_wf_row_wwb.
  - simpl. lia.
  - simpl. lia.
  - unfold in_image; simpl. lia.
  - reflexivity.
  - reflexivity.
  - simpl. lia.
  - exists this', minX, maxX. split; assumption.
Defined.

(** The class on the row [white, white, black], filled with red from
    [(0, 0)] at tolerance 0: the span is columns 0 to 1, and the fill ends
    with [red, red, black]. *)
Example fill_row_wwb :
  fillLineAt 3 (mkFloodFill row_wwb 0 [] rgba_white rgba_red) 0 0
    = Some (mkFloodFill
              (mkImageData 3 1 [255; 0; 0; 255; 255; 0; 0; 255; 0; 0; 0; 255])
              0 [] rgba_white rgba_red, (0, 1)) /\
  fill 5 (fill_on row_wwb) rgba_red 0 0 0
    = Some (mkFloodFill
              (mkImageData 3 1 [255; 0; 0; 255; 255; 0; 0; 255; 0; 0; 0; 255])
              0 [] rgba_white rgba_red).
Proof. split; vm_compute; reflexivity. Qed.

(** C6 as stated fails on [CanvasDraw.floodFill]: on a white row of three
    pixels, seed [(1, 0)], the first pass paints the seed pixel alone. *)
Lemma floodFill_first_pass_paints_one_pixel :
  ~ span_painted_in_one_pass (mkPixelData 3 1 [white; white; white]) 1 0 red.
Proof.
  intros Hspan. specialize (Hspan 0).
  assert (Hrow : forall j, Z.min 0 1 <= j <= Z.max 0 1 ->
            getPixel (mkPixelData 3 1 [white; white; white]) j 0
              = getPixel (mkPixelData 3 1 [white; white; white]) 1 0).
  { intros j Hj. assert (Hc : j = 0 \/ j = 1) by lia.
    destruct Hc as [-> | ->]; reflexivity. }
  specialize (Hspan Hrow). vm_compute in Hspan. discriminate.
Qed.

(** What that first pass does instead: one pixel painted, four single
    pixels pushed. *)
Example floodFill_first_pass :
  fill_trace 1 (Some white) red [(1, 0)] (mkPixelData 3 1 [white; white; white])
  = ([(1, -1); (1, 1); (0, 0); (2, 0)], mkPixelData 3 1 [white; red; white]).
Proof. vm_compute. reflexivity. Qed.

(** Filling with the colour that the seed already has never changes the
    image, whatever the tolerance and whatever [isSameColor] answers. *)
Lemma fill_own_color {Img Color : Type} `{ImageOps Img Color}
    (this : FloodFill Img Color) (x y tolerance : Z) (fuel : nat) :
  _queue this = [] -> (2 <= fuel)%nat ->
  exists this',
    fill fuel this (getColorAtPixel (imageData this) x y) x y tolerance
      = Some this' /\
    imageData this' = imageData this.
Proof.
  intros Hq Hfuel.
  destruct fuel as [| [| fuel]]; try lia.
  unfold fill. cbn [_replacedColor _newColor _tolerance].
  set (c := getColorAtPixel (imageData this) x y).
  set (this0 := mkFloodFill (imageData this) tolerance (_queue this) c c).
  destruct (isSameColor c c tolerance) eqn:Hsame.
  { exists this0. split; reflexivity. }
  assert (Hpop : fillQueue (S fuel) this0 = Some this0).
  { cbn [fillQueue]. unfold popFromQueue. subst this0. cbn [_queue].
    rewrite Hq. reflexivity. }
  exists this0. split; [| reflexivity].
  change (fillQueue (S (S fuel)) (addToQueue this0 (x, x, y, -1)))
    with (match line_loop (S fuel) this0 x x y (-1) x with
          | None => None
          | Some t => fillQueue (S fuel) t
          end).
  assert (Hline : line_loop (S fuel) this0 x x y (-1) x = Some this0).
  { cbn [line_loop].
    destruct (negb (x =? -1) && (x <=? x)) eqn:Hc; [| reflexivity].
    assert (Hinvalid : fillLineAt fuel this0 x y = Some (this0, (-1, -1))).
    { unfold fillLineAt, isValidTarget. subst this0.
      cbn [imageData _replacedColor _tolerance]. fold c.
      rewrite Hsame. reflexivity. }
    rewrite Hinvalid. unfold enqueue_rows.
    rewrite Z.eqb_refl, Z.leb_refl. cbn [negb andb].
    destruct fuel; cbn [line_loop];
      replace (negb (x + 1 =? -1) && (x + 1 <=? x)) with false by lia;
      reflexivity. }
  rewrite Hline. exact Hpop.
Qed.

(** C7, as the code has it.  In the [FloodFill] class, when the utilities
    judge the seed pixel's colour and the new colour the same within the
    tolerance, [fill] returns at once: the image and the queue are what
    they were.  In particular a fill with the seed's own colour leaves the
    image unchanged at any tolerance.  [floodFill] of [CanvasDraw] takes no
    tolerance: it returns the pixels unchanged when the seed holds the
    fill colour itself, and for every other fill colour, however near, it
    returns pixels that differ, the seed pixel holding the fill colour. *)
Theorem fill_matching_color_is_noop {Img Color : Type} `{ImageOps Img Color}
    (this : FloodFill Img Color) (newColor : Color) (x y tolerance : Z)
    (fuel : nat) :
  isSameColor (getColorAtPixel (imageData this) x y) newColor tolerance
    = true ->
  (exists this',
     fill fuel this newColor x y tolerance = Some this' /\
     imageData this' = imageData this /\ _queue this' = _queue this) /\
  (forall (that : FloodFill Img Color) x' y' tolerance' fuel',
     _queue that = [] -> (2 <= fuel')%nat ->
     exists that',
       fill fuel' that (getColorAtPixel (imageData that) x' y') x' y'
            tolerance' = Some that' /\
       imageData that' = imageData that) /\
  (forall pd px py F fuel',
     getPixel pd px py = Some F -> floodFill fuel' pd px py F = Some pd) /\
  (forall pd px py S F,
     wf pd -> inb pd px py -> getPixel pd px py = Some S ->
     color32 F -> F <> S ->
     exists pd',
       (forall fuel', (enough_fuel pd <= fuel')%nat ->
                      floodFill fuel' pd px py F = Some pd') /\
       getPixel pd' px py = Some F /\ pd' <> pd).
Proof.
  intros Hsame. split; [| split; [| split]].
  - unfold fill. cbn [_replacedColor _newColor _tolerance]. rewrite Hsame.
    eexists. split; [reflexivity |]. split; reflexivity.
  - intros that x' y' tolerance' fuel'. apply fill_own_color.
  - intros pd px py F fuel' Hseed. unfold floodFill. rewrite Hseed.
    destruct (decide (Some F <> Some F)) as [Hn | _]; [contradiction |].
    reflexivity.
  - intros pd px py S F Hwf Hin Hseed HF HFS.
    assert (HS : color32 S).
    { destruct (PixelFacts.getPixel_inb_color _ _ _ Hwf Hin)
        as (c & Hc & Hc32).
      congruence. }
    destruct (PixelFacts.floodFill_total pd px py S F Hwf Hseed HS HF HFS)
      as (pd' & Hrun & Hfin).
    assert (Hnew : getPixel pd' px py = Some F).
    { apply (PixelFacts.fill_inv_done_region pd S F (px, py) pd' Hfin
               (px, py)).
      apply region_seed. exact Hseed. }
    exists pd'. split; [exact Hrun |]. split; [exact Hnew |].
    intros ->. rewrite Hseed in Hnew. congruence.
Qed.

(** C7 as stated fails on [CanvasDraw.floodFill]: a white pixel filled
    with rgba(254, 255, 255, 255), the 32-bit number [0xFFFFFFFE] of a
    little-endian platform, is repainted, though the two colours differ by
    1 on one channel and are the same within tolerance 1. *)
Lemma floodFill_repaints_near_color :
  let pd := mkPixelData 1 1 [white] in
  Raster.bytes_of_Uint32 true white = [255; 255; 255; 255] /\
  Raster.bytes_of_Uint32 true 0xFFFFFFFE = [254; 255; 255; 255] /\
  rgba_same rgba_white (mkRGBA 254 255 255 255) 1 = true /\
  getPixel pd 0 0 = Some white /\
  floodFill 5 pd 0 0 0xFFFFFFFE = Some (mkPixelData 1 1 [0xFFFFFFFE]) /\
  mkPixelData 1 1 [0xFFFFFFFE] <> pd.
Proof. repeat split; try (vm_compute; reflexivity). discriminate. Qed.

(** A white pixel filled with an almost white colour at tolerance 2. *)
Lemma fill_matching_color_is_noop_witness :
  exists this',
    fill 0 (fill_on row_wwb) (mkRGBA 254 255 253 255) 0 0 2 = Some this' /\
    imageData this' = row_wwb /\ _queue this' = [].
Proof.
  destruct (fill_matching_color_is_noop (fill_on row_wwb)
              (mkRGBA 254 255 253 255) 0 0 2 0) as [Hnoop _].
  - reflexivity.
  - exact Hnoop.
Defined.

End FillClaims.

(** ** Facts about the gesture states *)

Module GestureFacts.
Import Gesture Strokes.

(** *** [drawPoints] *)

Lemma curve_loop_run points : forall n j calls,
  (n + S j = length points)%nat ->
  curve_loop n (S j) points (points !! j) (points !! S j) calls
  = (Returned (calls ++ curves (drop j points)), last points).
Proof.
  induction n as [| n IH]; intros j calls Hlen.
  - cbn [curve_loop].
    assert (Hj : (j < length points)%nat) by lia.
    destruct (lookup_lt_is_Some_2 points j Hj) as [a Ha].
    rewrite (drop_S points a j Ha).
    rewrite drop_ge by lia. cbn [curves]. rewrite app_nil_r.
    rewrite last_lookup. replace (Nat.pred (length points)) with j by lia.
    reflexivity.
  - cbn [curve_loop].
    assert (Hj : (j < length points)%nat) by lia.
    assert (Hj' : (S j < length points)%nat) by lia.
    destruct (lookup_lt_is_Some_2 points j Hj) as [a Ha].
    destruct (lookup_lt_is_Some_2 points (S j) Hj') as [b Hb].
    rewrite Ha at 1. rewrite Hb at 1.
    rewrite IH by lia.
    rewrite (drop_S points a j Ha), (drop_S points b (S j) Hb).
    cbn [curves]. rewrite <- app_assoc. reflexivity.
Qed.

Lemma drawPoints_path eraser a b rest z brushColor brushRadius :
  last (a :: b :: rest) = Some z ->
  drawPoints eraser (a :: b :: rest) brushColor brushRadius
  = Returned (style_calls eraser brushColor brushRadius ++
              [MoveTo (px b) (py b); BeginPath] ++ curves (a :: b :: rest) ++
              [LineTo (px z) (py z); Stroke]).
Proof.
  intros Hlast. unfold drawPoints.
  change ((a :: b :: rest) !! 1%nat) with (Some b).
  cbv zeta. fold (style_calls eraser brushColor brushRadius).
  replace (length (a :: b :: rest) - 1)%nat with (S (length rest))
    by (cbn [length]; lia).
  rewrite (curve_loop_run (a :: b :: rest) (S (length rest)) 0)
    by (cbn [length]; lia).
  rewrite Hlast. cbn [drop]. rewrite <- !app_assoc. reflexivity.
Qed.

Lemma drawPoints_returns eraser points brushColor brushRadius :
  (2 <= length points)%nat ->
  exists calls,
    drawPoints eraser points brushColor brushRadius = Returned calls.
Proof.
  intros Hlen.
  destruct points as [| a [| b rest]]; cbn [length] in Hlen; try lia.
  destruct (last (a :: b :: rest)) as [z |] eqn:Hlast.
  - eexists. apply drawPoints_path. exact Hlast.
  - apply last_None in Hlast. discriminate.
Qed.

Section Handlers.

Context {L C : Type} `{LazyBrush L} `{CoordinateSystem C}.

Lemma canvas_effects_app l1 l2 :
  canvas_effects (l1 ++ l2) = canvas_effects l1 ++ canvas_effects l2.
Proof. unfold canvas_effects. apply List.filter_app. Qed.

Lemma canvas_effects_prevented e : canvas_effects (prevented e) = [].
Proof. unfold prevented. destruct (synthetic e); reflexivity. Qed.

Lemma same_outcome_refl {A : Type} (r : Ending A * World L C * list Effect) :
  same_outcome r r.
Proof. split; reflexivity. Qed.

Lemma same_outcome_trans {A : Type}
    (r1 r2 r3 : Ending A * World L C * list Effect) :
  same_outcome r1 r2 -> same_outcome r2 r3 -> same_outcome r1 r3.
Proof. intros [? ?] [? ?]. split; congruence. Qed.

Lemma same_outcome_sym {A : Type}
    (r1 r2 : Ending A * World L C * list Effect) :
  same_outcome r1 r2 -> same_outcome r2 r1.
Proof. intros [? ?]. split; congruence. Qed.

Lemma same_outcome_bind {A B : Type} (m1 m2 : M A) (k1 k2 : A -> M B)
    (w : World L C) :
  same_outcome (m1 w) (m2 w) ->
  (forall a w', same_outcome (k1 a w') (k2 a w')) ->
  same_outcome (bind m1 k1 w) (bind m2 k2 w).
Proof.
  unfold same_outcome, bind. intros [Hr He] Hk.
  destruct (m1 w) as [[r1 w1] e1], (m2 w) as [[r2 w2] e2].
  simpl in Hr, He. injection Hr as -> ->.
  destruct r2 as [a2 | |]; [| split; [reflexivity | exact He] ..].
  specialize (Hk a2 w2).
  destruct (k1 a2 w2) as [[b1 w1'] e1'], (k2 a2 w2) as [[b2 w2'] e2'].
  simpl in *. destruct Hk as [Hr' He']. split; [exact Hr' |].
  rewrite !canvas_effects_app. congruence.
Qed.

(** A [SyntheticEvent] carries the client point it was made from. *)
Lemma clientPointFromEvent_synthetic pt :
  clientPointFromEvent (SyntheticEvent pt) = pt.
Proof. destruct pt. reflexivity. Qed.

(** [handleDrawMove] of a [DrawingState] reads its event through
    [clientPointFromEvent] only: on an event and on the [SyntheticEvent] of
    its client point it does the same, up to [preventDefault]. *)
Lemma Drawing_handleDrawMove_event isDrawing e shouldStartAtEdge
    (w : World L C) :
  Drawing_handleDrawMove isDrawing e shouldStartAtEdge w =
  let '(a, w', effs) :=
    Drawing_handleDrawMove isDrawing (SyntheticEvent (clientPointFromEvent e))
                           shouldStartAtEdge w in
  (a, w', prevented e ++ effs).
Proof.
  destruct e as [cx cy ck dy ts cts syn].
  unfold Drawing_handleDrawMove.
  destruct cts as [[| t cts'] |];
    match goal with
    | |- bind _ ?k1 w = _ => set (k := k1)
    end;
    match goal with
    | |- context [bind (preventDefault (SyntheticEvent ?pt)) ?k2 w] =>
        change k2 with k
    end;
    unfold bind, preventDefault, prevented; cbn [synthetic SyntheticEvent];
    destruct syn; unfold ret, emit;
    destruct (k tt w) as [[a w'] effs]; reflexivity.
Qed.

Lemma Drawing_handleDrawMove_synthetic isDrawing e shouldStartAtEdge
    (w : World L C) :
  same_outcome
    (Drawing_handleDrawMove isDrawing
       (SyntheticEvent (clientPointFromEvent e)) shouldStartAtEdge w)
    (Drawing_handleDrawMove isDrawing e shouldStartAtEdge w).
Proof.
  rewrite (Drawing_handleDrawMove_event isDrawing e).
  destruct (Drawing_handleDrawMove _ _ _ w) as [[a w'] effs].
  split; [reflexivity |]. simpl.
  rewrite canvas_effects_app, canvas_effects_prevented. reflexivity.
Qed.

(** The same for [handleDrawStart], on an event that carries a touch, as a
    [SyntheticEvent] does. *)
Lemma Drawing_handleDrawStart_synthetic isDrawing e shouldStartAtEdge
    (w : World L C) :
  has_touch e = true ->
  same_outcome
    (Drawing_handleDrawStart isDrawing
       (SyntheticEvent (clientPointFromEvent e)) shouldStartAtEdge w)
    (Drawing_handleDrawStart isDrawing e shouldStartAtEdge w).
Proof.
  intros Htouch. unfold Drawing_handleDrawStart.
  apply same_outcome_bind.
  { unfold preventDefault. cbn [synthetic SyntheticEvent].
    destruct (synthetic e); split; reflexivity. }
  intros _ w1. apply same_outcome_bind.
  { unfold has_touch in Htouch. cbn [touches SyntheticEvent].
    destruct (touches e) as [[| t ts] |]; try discriminate.
    unfold viewPointFromEvent.
    rewrite clientPointFromEvent_synthetic. apply same_outcome_refl. }
  intros _ w2. apply Drawing_handleDrawMove_synthetic.
Qed.

Lemma drawing_moves_synthetic es : forall isDrawing (w : World L C),
  same_outcome
    (drawing_moves isDrawing
       (map SyntheticEvent (map clientPointFromEvent es)) w)
    (drawing_moves isDrawing es w).
Proof.
  induction es as [| e es IH]; intros isDrawing w.
  - apply same_outcome_refl.
  - cbn [map drawing_moves]. apply same_outcome_bind.
    + apply Drawing_handleDrawMove_synthetic.
    + intros b w'. apply IH.
Qed.

Lemma issue_loop_moves rest : forall i nextState (w : World L C),
  issue_loop (S i) rest nextState w
    = drawing_moves nextState (map SyntheticEvent rest) w.
Proof.
  induction rest as [| pt rest IH]; intros i nextState w; [reflexivity |].
  cbn [issue_loop map drawing_moves Nat.eqb]. unfold bind.
  destruct (Drawing_handleDrawMove nextState (SyntheticEvent pt) false w)
    as [[[b | |] w1] effs1]; rewrite ?IH; reflexivity.
Qed.

(** The loop of [issueDeferredPoints] is the replay in buffer order. *)
Lemma issueDeferredPoints_replay this (w : World L C) :
  issueDeferredPoints this w = replay_in_order (deferredPoints this) w.
Proof.
  unfold issueDeferredPoints, replay_in_order, deliver_live.
  destruct (deferredPoints this) as [| pt rest]; [reflexivity |].
  cbn [issue_loop map Nat.eqb]. unfold bind.
  destruct (Drawing_handleDrawStart false (SyntheticEvent pt) false w)
    as [[[b | |] w1] effs1]; rewrite ?issue_loop_moves; reflexivity.
Qed.

(** C5: the points that [WaitForPinchState] has buffered from the events
    [es] (the first of which carried a touch, as the draw-start that enters
    the state does), replayed by [issueDeferredPoints], give what those
    events give when they are delivered live to a new [DrawingState], the
    first as a draw-start and the others as draw-moves: the same state, the
    same world, hence the same stroke points in the same order, and the
    same drawing on the canvases. *)
Theorem replay_reproduces_live_stroke (this : WaitForPinch)
    (es : list Event) (w : World L C) :
  deferredPoints this = map clientPointFromEvent es ->
  match es with
  | e :: _ => has_touch e = true
  | [] => True
  end ->
  same_outcome (issueDeferredPoints this w) (deliver_live es w) /\
  points (snd (fst (issueDeferredPoints this w)))
    = points (snd (fst (deliver_live es w))).
Proof.
  intros Hbuf Htouch.
  assert (Hsame : same_outcome (issueDeferredPoints this w) (deliver_live es w)).
  { rewrite issueDeferredPoints_replay, Hbuf.
    unfold replay_in_order, deliver_live.
    destruct es as [| e es]; [apply same_outcome_refl |].
    cbn [map]. apply same_outcome_bind.
    - apply Drawing_handleDrawStart_synthetic, Htouch.
    - intros b w'. apply drawing_moves_synthetic. }
  split; [exact Hsame |].
  destruct Hsame as [Hfst _]. rewrite Hfst. reflexivity.
Qed.

(** *** [WaitForPinchState]: slop and timeout *)

Lemma preventDefault_run e (w : World L C) :
  preventDefault e w = (Returns tt, w, prevented e).
Proof. unfold preventDefault, prevented. destruct (synthetic e); reflexivity. Qed.

(** [handleDrawMove] of a [WaitForPinchState] on an event with fewer than
    two touches, spelled out. *)
Lemma WaitForPinch_handleDrawMove_single this e (w : World L C) :
  single_touch e = true ->
  WaitForPinch_handleDrawMove this e w =
  let w1 := set_reads (S (reads w)) w in
  let pt := clientPointFromEvent e in
  let buffered := deferredPoints this ++ [pt] in
  if (clock w (reads w) - startTimestamp this <? PINCH_TIMEOUT_MS)%Z then
    let p0 := default pt (startClientPoint this) in
    if (manhattan pt p0 <? TOUCH_SLOP)%float
    then (Returns
            (WaitForPinchState
               (mkWaitForPinch (Some p0) (startTimestamp this) buffered)),
          w1, prevented e)
    else
      let '(r, w', effs) :=
        issueDeferredPoints
          (mkWaitForPinch (Some p0) (startTimestamp this) buffered) w1 in
      (Ending_map DrawingState r, w', prevented e ++ effs)
  else
    let '(r, w', effs) :=
      issueDeferredPoints
        (mkWaitForPinch (startClientPoint this) (startTimestamp this) buffered)
        w1 in
    (Ending_map DrawingState r, w', prevented e ++ effs).
Proof.
  intros Hsingle. unfold single_touch in Hsingle.
  unfold WaitForPinch_handleDrawMove, bind at 1.
  rewrite preventDefault_run. unfold manhattan. cbv zeta.
  destruct (touches e) as [[| t0 [| t1 ts]] |]; try discriminate;
    unfold bind at 1, Date_valueOf;
    cbn [startClientPoint startTimestamp deferredPoints];
    (destruct (_ <? PINCH_TIMEOUT_MS)%Z;
     [ destruct (startClientPoint this) as [p |]; cbn [default];
       destruct (_ <? TOUCH_SLOP)%float |]);
    try (unfold ret; rewrite ?app_nil_r; reflexivity);
    unfold bind;
    destruct (issueDeferredPoints _ _) as [[[b | |] w'] effs];
    unfold ret; cbn [Ending_map]; rewrite ?app_nil_r; reflexivity.
Qed.

(** One event within both thresholds: the state stays and buffers the
    point. *)
Lemma WaitForPinch_stays this e (w : World L C) p0 :
  single_touch e = true ->
  first_point this [e] = Some p0 ->
  (clock w (reads w) - startTimestamp this < PINCH_TIMEOUT_MS)%Z ->
  (manhattan (clientPointFromEvent e) p0 <? TOUCH_SLOP)%float = true ->
  WaitForPinch_handleDrawMove this e w
    = (Returns (WaitForPinchState (wait_after this [e])),
       set_reads (S (reads w)) w, prevented e).
Proof.
  intros Hsingle Hfirst Htime Hslop.
  rewrite WaitForPinch_handleDrawMove_single by exact Hsingle. cbv zeta.
  replace (_ <? PINCH_TIMEOUT_MS)%Z with true
    by (symmetry; apply Z.ltb_lt, Htime).
  assert (Hp0 : default (clientPointFromEvent e) (startClientPoint this) = p0).
  { unfold first_point in Hfirst.
    destruct (startClientPoint this); injection Hfirst as <-; reflexivity. }
  rewrite Hp0, Hslop. unfold wait_after.
  replace (first_point this [e]) with (Some p0). reflexivity.
Qed.

(** One event beyond a threshold: the buffered points are replayed into a
    [DrawingState]. *)
Lemma WaitForPinch_gives_up this e (w : World L C) :
  single_touch e = true ->
  (PINCH_TIMEOUT_MS <= clock w (reads w) - startTimestamp this)%Z \/
  (exists p0, first_point this [e] = Some p0 /\
     (manhattan (clientPointFromEvent e) p0 <? TOUCH_SLOP)%float = false) ->
  WaitForPinch_handleDrawMove this e w =
  let '(r, w', effs) :=
    replay_in_order (deferredPoints this ++ [clientPointFromEvent e])
                    (set_reads (S (reads w)) w) in
  (Ending_map DrawingState r, w', prevented e ++ effs).
Proof.
  intros Hsingle Hbreak.
  rewrite WaitForPinch_handleDrawMove_single by exact Hsingle. cbv zeta.
  rewrite !issueDeferredPoints_replay. cbn [deferredPoints].
  destruct (_ <? PINCH_TIMEOUT_MS)%Z eqn:Htime; [| reflexivity].
  destruct Hbreak as [Hlate | (p0 & Hfirst & Hslop)].
  - apply Z.ltb_lt in Htime. lia.
  - assert (Hp0 : default (clientPointFromEvent e) (startClientPoint this)
                  = p0).
    { unfold first_point in Hfirst.
      destruct (startClientPoint this); injection Hfirst as <-; reflexivity. }
    rewrite Hp0, Hslop. reflexivity.
Qed.

Lemma host_moves_app es1 : forall es2 (h : Value * World L C),
  host_moves (es1 ++ es2) h =
  match host_moves es1 h with
  | Some h' => host_moves es2 h'
  | None => None
  end.
Proof.
  induction es1 as [| e es1 IH]; intros es2 h; [reflexivity |].
  cbn [app host_moves]. destruct (host_handleDrawMove e h); [apply IH | reflexivity].
Qed.

Lemma first_point_cons this e es :
  first_point this (e :: es) = first_point this [e].
Proof. unfold first_point. destruct (startClientPoint this); reflexivity. Qed.

Lemma first_point_wait_after this es e :
  first_point (wait_after this es) [e] = first_point this (es ++ [e]).
Proof.
  unfold first_point, wait_after. cbn [startClientPoint].
  unfold first_point.
  destruct (startClientPoint this), es; reflexivity.
Qed.

Lemma wait_after_nil this : wait_after this [] = this.
Proof.
  destruct this as [[pt |] t pts]; unfold wait_after, first_point;
    cbn; rewrite app_nil_r; reflexivity.
Qed.

Lemma wait_after_cons this e es :
  wait_after (wait_after this [e]) es = wait_after this (e :: es).
Proof.
  unfold wait_after. cbn [startTimestamp deferredPoints startClientPoint map].
  rewrite <- app_assoc. cbn [app]. f_equal.
  unfold first_point. cbn [startClientPoint].
  destruct (startClientPoint this); reflexivity.
Qed.

Lemma set_reads_id (w : World L C) : set_reads (reads w) w = w.
Proof. destruct w. reflexivity. Qed.

Lemma host_move_wait this e (w : World L C) :
  host_handleDrawMove e (VState (WaitForPinchState this), w)
    = match WaitForPinch_handleDrawMove this e w with
      | (Returns s, w', _) => Some (VState s, w')
      | _ => None
      end.
Proof.
  unfold host_handleDrawMove, host_step, handleDrawMove, as_value, bind.
  cbn [fst snd].
  destruct (WaitForPinch_handleDrawMove this e w) as [[[s | |] w'] effs];
    reflexivity.
Qed.

(** A run of events within both thresholds keeps the state and buffers
    their points in order. *)
Lemma WaitForPinch_stays_run es : forall this (w : World L C) p0,
  first_point this es = Some p0 \/ es = [] ->
  (forall i ev, es !! i = Some ev ->
     single_touch ev = true /\
     (clock w (reads w + i) - startTimestamp this < PINCH_TIMEOUT_MS)%Z /\
     (manhattan (clientPointFromEvent ev) p0 <? TOUCH_SLOP)%float = true) ->
  host_moves es (VState (WaitForPinchState this), w)
    = Some (VState (WaitForPinchState (wait_after this es)),
            set_reads (reads w + length es) w).
Proof.
  induction es as [| ev es IH]; intros this w p0 Hfirst Hstay.
  - cbn [host_moves length]. rewrite wait_after_nil, Nat.add_0_r, set_reads_id.
    reflexivity.
  - destruct Hfirst as [Hfirst | Hnil]; [| discriminate].
    destruct (Hstay 0%nat ev eq_refl) as (Hsingle & Htime & Hslop).
    rewrite Nat.add_0_r in Htime.
    rewrite first_point_cons in Hfirst.
    cbn [host_moves]. rewrite host_move_wait.
    rewrite (WaitForPinch_stays this ev w p0) by assumption.
    rewrite (IH (wait_after this [ev]) (set_reads (S (reads w)) w) p0).
    + rewrite wait_after_cons.
      change (set_reads (reads (set_reads (S (reads w)) w) + length es)
                        (set_reads (S (reads w)) w))
        with (set_reads (S (reads w) + length es) w).
      replace (S (reads w) + length es)%nat
        with (reads w + length (ev :: es))%nat by (cbn [length]; lia).
      reflexivity.
    + left. unfold first_point, wait_after. cbn [startClientPoint].
      rewrite Hfirst. reflexivity.
    + intros i ev' Hi. destruct (Hstay (S i) ev' Hi) as (H1 & H2 & H3).
      repeat split; try assumption.
      cbn [wait_after startTimestamp clock reads set_reads].
      replace (S (reads w) + i)%nat with (reads w + S i)%nat by lia.
      exact H2.
Qed.

(** X22.  The thresholds of [WaitForPinchState]: 10 client-space units
    and 250 ms.  Single-touch moves that arrive less than 250 ms after the
    state was entered and whose Manhattan distance [|dx| + |dy|] from the
    first recorded point is below 10 leave the machine in
    [WaitForPinchState], with their points buffered in order.  On the first
    event for which the elapsed time has reached 250 ms or the distance is
    not below 10 all buffered points (that event's included) are replayed
    in order, and the machine goes to [DrawingState] when that replay
    returns; the host is without a state when it does not. *)
Theorem waitForPinch_slop_and_timeout (this : WaitForPinch)
    (es : list Event) (e : Event) (w : World L C) (p0 : ClientPoint) :
  first_point this (es ++ [e]) = Some p0 ->
  (forall i ev, es !! i = Some ev ->
     single_touch ev = true /\
     (clock w (reads w + i) - startTimestamp this < PINCH_TIMEOUT_MS)%Z /\
     (manhattan (clientPointFromEvent ev) p0 <? TOUCH_SLOP)%float = true) ->
  single_touch e = true ->
  (PINCH_TIMEOUT_MS
     <= clock w (reads w + length es) - startTimestamp this)%Z \/
  (manhattan (clientPointFromEvent e) p0 <? TOUCH_SLOP)%float = false ->
  host_moves es (VState (WaitForPinchState this), w)
    = Some (VState (WaitForPinchState (wait_after this es)),
            set_reads (reads w + length es) w) /\
  host_moves (es ++ [e]) (VState (WaitForPinchState this), w)
    = match replay_in_order
              (deferredPoints this ++ map clientPointFromEvent (es ++ [e]))
              (set_reads (S (reads w + length es)) w) with
      | (Returns drawing, w', _) => Some (VState (DrawingState drawing), w')
      | _ => None
      end.
Proof.
  intros Hfirst Hstay Hsingle Hbreak.
  assert (Hrun : host_moves es (VState (WaitForPinchState this), w)
            = Some (VState (WaitForPinchState (wait_after this es)),
                    set_reads (reads w + length es) w)).
  { apply (WaitForPinch_stays_run es this w p0); [| exact Hstay].
    destruct es as [| ev es]; [right; reflexivity | left].
    cbn [app] in Hfirst. rewrite first_point_cons in Hfirst.
    rewrite first_point_cons. exact Hfirst. }
  split; [exact Hrun |].
  rewrite host_moves_app, Hrun.
  cbn [host_moves]. rewrite host_move_wait.
  rewrite WaitForPinch_gives_up.
  - cbn [wait_after deferredPoints].
    change (set_reads (S (reads (set_reads (reads w + length es) w)))
                      (set_reads (reads w + length es) w))
      with (set_reads (S (reads w + length es)) w).
    rewrite map_app, app_assoc. cbn [map].
    match goal with
    | |- context [replay_in_order ?pts ?w1] =>
        destruct (replay_in_order pts w1) as [[[b | |] w'] effs]
    end; reflexivity.
  - exact Hsingle.
  - rewrite first_point_wait_after.
    cbn [wait_after startTimestamp clock reads set_reads].
    destruct Hbreak as [Hlate | Hfar]; [left; exact Hlate | right].
    exists p0. split; assumption.
Qed.

(** *** The replay with the FloodFill tool *)

(** [floodFill] as a call, on a seed that names a pixel of the canvas: it
    returns once the fuel suffices. *)
Lemma run_floodFill_inside x y color (w : World L C) :
  Pixels.wf (drawing_pixels w (fills w)) ->
  Pixels.color32 (css_color w (fills w) color) ->
  Seeds.inside (drawing_pixels w (fills w)) x y ->
  (Pixels.enough_fuel (drawing_pixels w (fills w)) <= fuel w)%nat ->
  run_floodFill x y color w
    = (Returns tt, set_fills (S (fills w)) w, [FloodFillAt x y color]).
Proof.
  intros Hwf Hc Hin Hfuel. unfold run_floodFill. cbv zeta.
  destruct (SeedFacts.floodFill_inside_returns _ _ _ _ _ Hwf Hc Hin Hfuel)
    as [pd' Hrun].
  destruct x as [a | | |], y as [b | | |]; try contradiction.
  destruct Hin as [Ha Hb].
  replace (Pixels.width (drawing_pixels w (fills w)) =? 0)%Z with false
    by (symmetry; apply Z.eqb_neq; lia).
  replace (Pixels.height (drawing_pixels w (fills w)) =? 0)%Z with false
    by (symmetry; apply Z.eqb_neq; lia).
  cbn [orb fuel set_fills]. rewrite Hrun. reflexivity.
Qed.

(** [floodFill] as a call, on a seed that names no pixel of the canvas: it
    is still running, whatever the fuel. *)
Lemma run_floodFill_outside x y color (w : World L C) :
  Pixels.wf (drawing_pixels w (fills w)) ->
  Pixels.width (drawing_pixels w (fills w)) <> 0%Z ->
  Pixels.height (drawing_pixels w (fills w)) <> 0%Z ->
  Pixels.color32 (css_color w (fills w) color) ->
  ~ Seeds.inside (drawing_pixels w (fills w)) x y ->
  fst (fst (run_floodFill x y color w)) = Running.
Proof.
  intros Hwf Hw Hh Hc Hout. unfold run_floodFill. cbv zeta.
  apply Z.eqb_neq in Hw, Hh. rewrite Hw, Hh. cbn [orb].
  rewrite (SeedFacts.floodFill_outside_runs _ _ _ _ _ Hwf Hc Hout).
  reflexivity.
Qed.

(** [handleDrawMove] of a [DrawingState] with the FloodFill tool, on an
    event whose view point, rounded, names no pixel of the canvas. *)
Lemma Drawing_handleDrawMove_fill_outside isDrawing e shouldStartAtEdge
    (w : World L C) :
  tool (props w) = "FloodFill"%string ->
  to_long (clientWidth w) <> 0%Z -> to_long (clientHeight w) <> 0%Z ->
  let canvas := drawing_pixels w (fills w) in
  let p := viewPointFromEvent (coordSystem w) e in
  Pixels.wf canvas ->
  Pixels.width canvas <> 0%Z -> Pixels.height canvas <> 0%Z ->
  Pixels.color32 (css_color w (fills w) (brushColor (props w))) ->
  ~ Seeds.inside canvas (Seeds.Math_round (px p)) (Seeds.Math_round (py p)) ->
  fst (fst (Drawing_handleDrawMove isDrawing e shouldStartAtEdge w)) = Running.
Proof.
  intros Htool Hcw Hch canvas p Hwf Hw Hh Hc Hout.
  unfold Drawing_handleDrawMove, bind at 1. rewrite preventDefault_run.
  unfold bind at 1, get at 1. cbv zeta. cbn iota beta.
  rewrite Htool. cbn [String.eqb Ascii.eqb Bool.eqb].
  unfold bind at 1, modify at 1. cbn iota beta.
  unfold bind at 1, bind at 1.
  unfold getImageData_unused.
  apply Z.eqb_neq in Hcw, Hch. rewrite Hcw, Hch. cbn [orb]. unfold ret at 1.
  cbn iota beta.
  pose proof (run_floodFill_outside
                (Seeds.Math_round (px p)) (Seeds.Math_round (py p))
                (brushColor (props w))
                (set_last (px p) (py p) w) Hwf Hw Hh Hc Hout) as Hrun.
  fold p.
  destruct (run_floodFill _ _ _ (set_last (px p) (py p) w))
    as [[[u | |] w1] effs1]; try discriminate Hrun.
  reflexivity.
Qed.

Lemma Drawing_handleDrawStart_fill_outside isDrawing e shouldStartAtEdge
    (w : World L C) :
  tool (props w) = "FloodFill"%string ->
  to_long (clientWidth w) <> 0%Z -> to_long (clientHeight w) <> 0%Z ->
  let canvas := drawing_pixels w (fills w) in
  let p := viewPointFromEvent (coordSystem w) e in
  Pixels.wf canvas ->
  Pixels.width canvas <> 0%Z -> Pixels.height canvas <> 0%Z ->
  Pixels.color32 (css_color w (fills w) (brushColor (props w))) ->
  ~ Seeds.inside canvas (Seeds.Math_round (px p)) (Seeds.Math_round (py p)) ->
  fst (fst (Drawing_handleDrawStart isDrawing e shouldStartAtEdge w))
    = Running.
Proof.
  intros Htool Hcw Hch canvas p Hwf Hw Hh Hc Hout.
  unfold Drawing_handleDrawStart, bind at 1. rewrite preventDefault_run.
  unfold bind at 1.
  assert (Hmove : forall w1 : World L C,
            props w1 = props w -> clientWidth w1 = clientWidth w ->
            clientHeight w1 = clientHeight w ->
            coordSystem w1 = coordSystem w ->
            drawing_pixels w1 = drawing_pixels w ->
            css_color w1 = css_color w -> fills w1 = fills w ->
            fst (fst (Drawing_handleDrawMove isDrawing e shouldStartAtEdge w1))
              = Running).
  { intros w1 Ep Ew Eh Ec Ed Es Ef.
    apply Drawing_handleDrawMove_fill_outside;
      rewrite ?Ep, ?Ew, ?Eh, ?Ec, ?Ed, ?Es, ?Ef; assumption. }
  destruct (touches e) as [[| t ts] |].
  all: unfold ret, bind, get, modify; cbn iota beta.
  all: match goal with
       | |- context [Drawing_handleDrawMove _ _ _ ?w1] =>
           specialize (Hmove w1 eq_refl eq_refl eq_refl eq_refl eq_refl
                             eq_refl eq_refl);
           destruct (Drawing_handleDrawMove isDrawing e shouldStartAtEdge w1)
             as [[[b | |] w2] effs2]; try discriminate Hmove
       end.
  all: reflexivity.
Qed.

(** C4 (the code departs from the claim).  In [WaitForPinchState], on the
    single-touch move with which the elapsed time reaches 250 ms or the
    Manhattan distance from the first recorded point is no longer below
    10, the buffered points are replayed through [DrawingState].  With the
    FloodFill tool the replay of the first point calls
    [canvasDraw.floodFill] at its view point, rounded; when that names no
    pixel of the drawing canvas the fill never returns, so neither does
    the handler: whatever the fuel [n], the call is still running, and the
    host has no [DrawingState] to store. *)
Theorem waitForPinch_fill_replay_never_returns (this : WaitForPinch)
    (e : Event) (w : World L C) (first : ClientPoint) :
  single_touch e = true ->
  (PINCH_TIMEOUT_MS <= clock w (reads w) - startTimestamp this)%Z \/
  (exists p0, first_point this [e] = Some p0 /\
     (manhattan (clientPointFromEvent e) p0 <? TOUCH_SLOP)%float = false) ->
  head (deferredPoints this ++ [clientPointFromEvent e]) = Some first ->
  tool (props w) = "FloodFill"%string ->
  to_long (clientWidth w) <> 0%Z -> to_long (clientHeight w) <> 0%Z ->
  let canvas := drawing_pixels w (fills w) in
  let p := cs_clientPointToViewPoint (coordSystem w) first in
  Pixels.wf canvas ->
  Pixels.width canvas <> 0%Z -> Pixels.height canvas <> 0%Z ->
  Pixels.color32 (css_color w (fills w) (brushColor (props w))) ->
  ~ Seeds.inside canvas (Seeds.Math_round (px p)) (Seeds.Math_round (py p)) ->
  forall n,
    fst (fst (handleDrawMove (WaitForPinchState this) e (set_fuel n w)))
      = Running /\
    host_handleDrawMove e (VState (WaitForPinchState this), set_fuel n w)
      = None.
Proof.
  intros Hsingle Hbreak Hfirst Htool Hcw Hch canvas p Hwf Hw Hh Hc Hout n.
  assert (Hrun : fst (fst (WaitForPinch_handleDrawMove this e (set_fuel n w)))
                 = Running).
  { rewrite WaitForPinch_gives_up by assumption.
    destruct (deferredPoints this ++ [clientPointFromEvent e])
      as [| pt rest]; [discriminate Hfirst |].
    injection Hfirst as ->.
    unfold replay_in_order, deliver_live. cbn [map]. unfold bind at 1.
    match goal with
    | |- context [Drawing_handleDrawStart false ?ev false ?w1] =>
        pose proof (Drawing_handleDrawStart_fill_outside false ev false w1)
          as Hstart;
        destruct (Drawing_handleDrawStart false ev false w1)
          as [[[b | |] w2] effs2]
    end.
    all: cbv zeta in Hstart; unfold viewPointFromEvent in Hstart.
    all: rewrite clientPointFromEvent_synthetic in Hstart.
    all: specialize (Hstart Htool Hcw Hch Hwf Hw Hh Hc Hout).
    all: try discriminate Hstart.
    reflexivity. }
  split.
  - unfold handleDrawMove, as_value, bind.
    destruct (WaitForPinch_handleDrawMove this e (set_fuel n w))
      as [[[s | |] w1] effs1]; try discriminate Hrun.
    reflexivity.
  - rewrite host_move_wait.
    destruct (WaitForPinch_handleDrawMove this e (set_fuel n w))
      as [[[s | |] w1] effs1]; try discriminate Hrun.
    reflexivity.
Qed.

(** *** Wheel events *)

Lemma SUPPRESS_SCROLL_run e (w : World L C) :
  SUPPRESS_SCROLL e w = (Returns VUndefined, w, prevented e).
Proof.
  unfold SUPPRESS_SCROLL, bind, module_this. rewrite preventDefault_run.
  unfold ret. rewrite app_nil_r. reflexivity.
Qed.

(** C2 (the code departs from the claim): on every state object of an
    active gesture ([PanState], [WaitForPinchState], [ScaleOrPanState],
    [TouchPanState], [TouchScaleState], [DrawingState]) [handleMouseWheel]
    is [SUPPRESS_SCROLL], which cancels the event and returns the [this] of
    the module, [undefined], in place of the state object. *)
Theorem wheel_in_active_gesture_returns_undefined (s : GestureState)
    (e : Event) (w : World L C) :
  kind_of s <> Default -> kind_of s <> Disabled ->
  handleMouseWheel s e w = (Returns VUndefined, w, prevented e).
Proof.
  intros Hdefault Hdisabled.
  destruct s; try contradiction; apply SUPPRESS_SCROLL_run.
Qed.

(** What the three draw handlers return, on every state and every event,
    is a state object. *)
Lemma draw_handlers_return_states (s : GestureState) (e : Event)
    (shouldStartAtEdge : bool) (w : World L C) (v : Value) :
  fst (fst (handleDrawStart s e shouldStartAtEdge w)) = Returns v \/
  fst (fst (handleDrawMove s e w)) = Returns v \/
  fst (fst (handleDrawEnd s e w)) = Returns v ->
  exists s', v = VState s'.
Proof.
  unfold handleDrawStart, handleDrawMove, handleDrawEnd, as_value.
  intros [Hv | [Hv | Hv]]; revert Hv;
    match goal with
    | |- context [bind ?m _ w] =>
        unfold bind at 1; destruct (m w) as [[[s' | |] w'] effs];
        cbn; intros [= <-]; exists s'; reflexivity
    end.
Qed.

(** After such a wheel event the host holds [undefined], and its next
    handler call fails. *)
Lemma wheel_then_move_fails (s : GestureState) (e e' : Event) (w : World L C) :
  kind_of s <> Default -> kind_of s <> Disabled ->
  host_handleWheel e (VState s, w) = Some (VUndefined, w) /\
  host_handleDrawMove e' (VUndefined, w) = None.
Proof.
  intros Hdefault Hdisabled. split; [| reflexivity].
  unfold host_handleWheel, host_step. cbn [fst snd].
  destruct s; try contradiction; cbn [handleMouseWheel];
    rewrite SUPPRESS_SCROLL_run; reflexivity.
Qed.

(** *** A click *)

(** [drawPoints] as a call: it returns on two points or more and throws
    on fewer. *)
Lemma run_drawPoints_run pts color radius (w : World L C) :
  run_drawPoints pts color radius w =
  (if (2 <=? length pts)%nat then Returns tt else Throws, w,
   [DrawPoints pts color radius]).
Proof.
  unfold run_drawPoints.
  destruct (Nat.leb_spec 2 (length pts)) as [Hlong | Hshort].
  - destruct (drawPoints_returns (type (props w) =? "eraser")%string
                pts color radius Hlong) as [calls ->].
    reflexivity.
  - unfold drawPoints. rewrite (lookup_ge_None_2 pts 1) by lia. reflexivity.
Qed.

Lemma saveLine_run color radius (w : World L C) :
  saveLine color radius w =
  if (length (points w) <? 2)%nat then (Returns tt, w, [])
  else
    (Returns tt,
     set_points []
       (set_lines
          (lines w ++
           [mkLine (points w)
              match color with
              | Some c => or_string c (brushColor (props w))
              | None => brushColor (props w)
              end
              match radius with
              | Some r => or_number r (brushRadius (props w))
              | None => brushRadius (props w)
              end]) w),
     [LineSaved]).
Proof.
  unfold saveLine, bind, get. cbn iota beta.
  destruct (length (points w) <? 2)%nat; reflexivity.
Qed.

(** [DrawingState.handleDrawMove] with the Pencil or the Eraser, spelled
    out: the brush point is recorded once, or twice when the stroke starts
    (or the filter is disabled), and the stroke so far is drawn, which
    takes two points. *)
Lemma Drawing_handleDrawMove_pencil isDrawing e (w : World L C) :
  tool (props w) = "Pencil"%string \/ tool (props w) = "Eraser"%string ->
  let p := viewPointFromEvent (coordSystem w) e in
  let w1 := set_lazy (lazy_update (lazy w) (mkPoint (px p) (py p)) false)
                     (set_last (px p) (py p) (set_last (px p) (py p) w)) in
  let starts := negb isDrawing || negb (lazy_isEnabled (lazy w1)) in
  let brush := clampPointToDocument w1 (lazy_brush (lazy w1)) in
  let pts := points w ++ (if starts then [brush; brush] else [brush]) in
  Drawing_handleDrawMove isDrawing e false w =
  (if (2 <=? length pts)%nat then Returns (if starts then true else isDrawing)
   else Throws,
   set_points pts w1,
   prevented e ++
   [DrawPoints pts
      (if (tool (props w) =? "Eraser")%string then "#FFFFFF"%string
       else brushColor (props w))
      (brushRadius (props w))]).
Proof.
  intros Htool. cbv zeta.
  unfold Drawing_handleDrawMove, bind at 1. rewrite preventDefault_run.
  unfold bind at 1, get at 1. cbn iota beta.
  destruct Htool as [Htool | Htool]; rewrite Htool;
    cbn [String.eqb Ascii.eqb Bool.eqb negb andb];
    unfold bind, ret, modify, get, emit, push_brush;
    cbn [fst snd lazy set_lazy set_last set_points points props coordSystem
         lastX lastY clientWidth clientHeight lines clock reads];
    destruct (negb isDrawing || _);
    unfold modify;
    cbn [fst snd lazy set_lazy set_last set_points points props coordSystem
         lastX lastY clientWidth clientHeight lines clock reads];
    rewrite run_drawPoints_run;
    unfold clampPointToDocument;
    cbn [fst snd lazy set_lazy set_last set_points points props coordSystem
         lastX lastY clientWidth clientHeight lines clock reads];
    rewrite <- ?app_assoc; cbn [app];
    destruct (2 <=? _)%nat; reflexivity.
Qed.

Lemma set_lines_id (w : World L C) : lines w = [] -> set_lines [] w = w.
Proof. destruct w. cbn. intros ->. reflexivity. Qed.

(** [applyView] with no line saved redraws nothing. *)
Lemma applyView_no_lines (w : World L C) :
  lines w = [] -> applyView w = (Returns tt, w, [ViewApplied]).
Proof.
  intros Hlines. unfold applyView, bind, emit, get, modify.
  rewrite Hlines. cbn [simulateDrawingLines]. unfold ret.
  rewrite set_lines_id by exact Hlines. reflexivity.
Qed.

Lemma clear_run (w : World L C) :
  clear w =
  (Returns tt, set_coordSystem (cs_resetView (coordSystem w)) (set_lines [] w),
   [ViewApplied]).
Proof.
  unfold clear, bind, modify.
  rewrite applyView_no_lines by reflexivity. reflexivity.
Qed.

Lemma drawRect_run (w : World L C) :
  drawRect w =
  (Returns tt, set_coordSystem (cs_resetView (coordSystem w)) (set_lines [] w),
   [ViewApplied; DrawRect]).
Proof. unfold drawRect, bind. rewrite clear_run. reflexivity. Qed.

Lemma drawCircle_run (w : World L C) :
  drawCircle w =
  (Returns tt, set_coordSystem (cs_resetView (coordSystem w)) (set_lines [] w),
   [ViewApplied; DrawCircle]).
Proof. unfold drawCircle, bind. rewrite clear_run. reflexivity. Qed.

(** [DrawingState.handleDrawMove] with a tool that neither draws nor
    fills: no point is recorded and no line is saved. *)
Lemma Drawing_handleDrawMove_other isDrawing e (w : World L C) :
  tool (props w) <> "Pencil"%string -> tool (props w) <> "Eraser"%string ->
  tool (props w) <> "FloodFill"%string ->
  exists w' effs,
    Drawing_handleDrawMove isDrawing e false w
      = (Returns isDrawing, w', effs) /\
    points w' = points w /\ props w' = props w /\ ~ In LineSaved effs.
Proof.
  intros HP HE HF. apply String.eqb_neq in HP, HE, HF.
  unfold Drawing_handleDrawMove, bind at 1. rewrite preventDefault_run.
  unfold bind at 1, get at 1. cbn iota beta. rewrite HP, HE. cbn [negb andb].
  assert (Hprev : ~ In LineSaved (prevented e)).
  { unfold prevented. destruct (synthetic e); simpl; intuition discriminate. }
  rewrite HF.
  destruct (tool (props w) =? "Rectangle")%string,
           (tool (props w) =? "Circle")%string;
    unfold bind, ret, emit, modify;
    rewrite ?drawRect_run; cbn iota beta; rewrite ?drawCircle_run;
    eexists _, _; (split; [reflexivity |]);
    (split; [reflexivity |]); (split; [reflexivity |]);
    rewrite in_app_iff; intros [Hin | Hin]; try contradiction;
    simpl in Hin; intuition discriminate.
Qed.

(** A draw-start without touches, with pan and zoom switched off, goes
    from [DefaultState] straight to [DrawingState.handleDrawStart], which
    is [handleDrawMove]. *)
Lemma Default_handleDrawStart_mouse e shouldStartAtEdge (w : World L C) :
  touches e = None -> disabled (props w) = false ->
  enablePanAndZoom (props w) = false ->
  handleDrawStart DefaultState e shouldStartAtEdge w =
  let '(r, w', effs) :=
    Drawing_handleDrawMove false e shouldStartAtEdge
                           (set_reads (S (reads w)) w) in
  (Ending_map (fun isDrawing => VState (DrawingState isDrawing)) r, w',
   prevented e ++ prevented e ++ effs).
Proof.
  intros Htouch Hdisabled Hpan.
  unfold handleDrawStart, as_value, Default_handleDrawStart.
  unfold bind at 1 2, get at 1. cbn iota beta.
  rewrite Hdisabled, Hpan, andb_false_r.
  unfold bind at 1, new_WaitForPinchState.
  unfold bind at 1, Date_valueOf. cbn iota beta. unfold ret at 1. cbn iota beta.
  unfold WaitForPinch_handleDrawStart.
  unfold bind at 1, get at 1. cbn iota beta.
  unfold bind at 1. rewrite preventDefault_run. rewrite Htouch.
  unfold bind at 1. unfold Drawing_handleDrawStart.
  unfold bind at 1. rewrite preventDefault_run. rewrite Htouch.
  unfold bind at 1, ret at 1. cbn iota beta.
  destruct (Drawing_handleDrawMove false e shouldStartAtEdge
              (set_reads (S (reads w)) w)) as [[[b | |] w'] effs];
    unfold ret; cbn [app Ending_map]; rewrite ?app_nil_r; reflexivity.
Qed.

(** [DrawingState.handleDrawEnd]: a last [handleDrawMove] and, when that
    returns, [saveLine]. *)
Lemma Drawing_handleDrawEnd_run isDrawing e (w : World L C) :
  Drawing_handleDrawEnd isDrawing e w =
  match Drawing_handleDrawMove isDrawing e false w with
  | (Returns _, w1, effs1) =>
      let '(_, w2, effs2) := saveLine None None w1 in
      (Returns DefaultState, w2, prevented e ++ effs1 ++ effs2)
  | (Throws, w1, effs1) => (Throws, w1, prevented e ++ effs1)
  | (Running, w1, effs1) => (Running, w1, prevented e ++ effs1)
  end.
Proof.
  unfold Drawing_handleDrawEnd, bind at 1. rewrite preventDefault_run.
  unfold bind.
  destruct (Drawing_handleDrawMove isDrawing e false w)
    as [[[b | |] w1] effs1]; try reflexivity.
  rewrite saveLine_run.
  destruct (length (points w1) <? 2)%nat; unfold ret;
    rewrite ?app_nil_r; reflexivity.
Qed.

(** C9, as the code has it.  With a tool other than FloodFill, a mouse
    draw-start (no touches) with pan and zoom switched off goes straight to
    [DrawingState], and the draw-end that follows returns to
    [DefaultState].  With the Pencil or the Eraser the start has recorded
    the brush point twice and the end records it again, so the stroke
    holds at least three points and [saveLine] commits it as a line.  With
    any other of these tools no point is recorded and no line is
    committed. *)
Theorem mouse_click_without_pan_zoom (e : Event) (w : World L C) :
  touches e = None -> disabled (props w) = false ->
  enablePanAndZoom (props w) = false -> points w = [] ->
  tool (props w) <> "FloodFill"%string ->
  exists isDrawing w1 effs1 w2 effs2,
    handleDrawStart DefaultState e false w
      = (Returns (VState (DrawingState isDrawing)), w1, effs1) /\
    handleDrawEnd (DrawingState isDrawing) e w1
      = (Returns (VState DefaultState), w2, effs2) /\
    (tool (props w) = "Pencil"%string \/ tool (props w) = "Eraser"%string ->
     (2 <= length (points w1))%nat /\
     exists line,
       lines w2 = lines w ++ [line] /\
       (3 <= length (line_points line))%nat /\ In LineSaved effs2) /\
    (tool (props w) <> "Pencil"%string -> tool (props w) <> "Eraser"%string ->
     points w1 = [] /\ points w2 = [] /\ ~ In LineSaved (effs1 ++ effs2)).
Proof.
  intros Htouch Hdisabled Hpan Hpoints Hfill.
  set (w0 := set_reads (S (reads w)) w).
  assert (Hnot : ~ In LineSaved (prevented e)).
  { unfold prevented. destruct (synthetic e); simpl; intuition discriminate. }
  assert (Hend : forall b b' w1 w1' effs1,
            Drawing_handleDrawMove b e false w1 = (Returns b', w1', effs1) ->
            handleDrawEnd (DrawingState b) e w1 =
            let '(_, w2, effs2) := saveLine None None w1' in
            (Returns (VState DefaultState), w2,
             (prevented e ++ effs1 ++ effs2) ++ [])).
  { intros b b' w1 w1' effs1 Hmove.
    unfold handleDrawEnd, as_value, bind at 1.
    rewrite Drawing_handleDrawEnd_run, Hmove.
    destruct (saveLine None None w1') as [[u w2] effs2]. reflexivity. }
  assert (Hstart0 : forall b w1 effs1,
            Drawing_handleDrawMove false e false w0 = (Returns b, w1, effs1) ->
            handleDrawStart DefaultState e false w
            = (Returns (VState (DrawingState b)), w1,
               prevented e ++ prevented e ++ effs1)).
  { intros b w1 effs1 Hmove.
    rewrite Default_handleDrawStart_mouse by assumption.
    fold w0. rewrite Hmove. reflexivity. }
  destruct (string_dec (tool (props w)) "Pencil") as [HP | HP];
    [| destruct (string_dec (tool (props w)) "Eraser") as [HE | HE]].
  3:{ (* a tool that neither draws nor fills *)
      destruct (Drawing_handleDrawMove_other false e w0 HP HE Hfill)
        as (w1 & effs1 & Hstart & Hpts1 & Hprops1 & Hno1).
      destruct (Drawing_handleDrawMove_other false e w1)
        as (w1' & effs1' & Hmove & Hpts1' & Hprops1' & Hno1');
        try (rewrite Hprops1; assumption).
      assert (Hempty : points w1' = [])
        by (rewrite Hpts1', Hpts1; exact Hpoints).
      eexists false, w1, _, w1', _.
      split; [apply Hstart0; exact Hstart |].
      split.
      { rewrite (Hend _ _ _ _ _ Hmove), saveLine_run, Hempty. reflexivity. }
      split; [intros [Hc | Hc]; contradiction |].
      intros _ _. split; [rewrite Hpts1; exact Hpoints |].
      split; [exact Hempty |].
      rewrite !app_nil_r, !in_app_iff. tauto. }
  all: (* the Pencil, the Eraser *)
    pose proof (Drawing_handleDrawMove_pencil false e w0) as Hstart;
    cbv zeta in Hstart; specialize (Hstart ltac:(auto));
    cbn [negb orb] in Hstart;
    replace (points w0) with (@nil Point) in Hstart
      by (symmetry; exact Hpoints);
    cbn [app length Nat.leb] in Hstart;
    match type of Hstart with
    | _ = (_, ?W1, _) => set (w1 := W1) in *
    end;
    assert (Hpts1 : length (points w1) = 2%nat) by reflexivity;
    pose proof (Drawing_handleDrawMove_pencil true e w1) as Hmove;
    cbv zeta in Hmove; specialize (Hmove ltac:(auto));
    match type of Hmove with
    | _ = (_, ?W1', _) => set (w1' := W1') in *
    end;
    assert (Hlen : (3 <= length (points w1'))%nat)
      by (subst w1'; cbn [points set_points]; rewrite length_app, Hpts1;
          destruct (negb true || _); cbn [length]; lia);
    match type of Hmove with
    | context [(2 <=? ?n)%nat] =>
        replace (2 <=? n)%nat with true in Hmove
          by (symmetry; apply Nat.leb_le;
              change n with (length (points w1')); lia)
    end;
    eexists true, w1, _, _, _;
    (split; [apply Hstart0; exact Hstart |]);
    (split; [rewrite (Hend _ _ _ _ _ Hmove), saveLine_run;
             replace (length (points w1') <? 2)%nat with false
               by (symmetry; apply Nat.ltb_ge; lia);
             reflexivity |]);
    (split; [| intros Hc1 Hc2; exfalso; auto]);
    intros _; (split; [lia |]);
    eexists; (split; [reflexivity |]);
    (split; [exact Hlen |]);
    rewrite !in_app_iff; left; right; right; left; reflexivity.
Qed.

(** *** Pinch scaling *)

Lemma saveLine_coordSystem color radius (w : World L C) :
  coordSystem (snd (fst (saveLine color radius w))) = coordSystem w.
Proof.
  rewrite saveLine_run. destruct (length (points w) <? 2)%nat; reflexivity.
Qed.

Lemma simulateDrawingLines_coordSystem ls : forall (w : World L C),
  coordSystem (snd (fst (simulateDrawingLines ls w))) = coordSystem w.
Proof.
  induction ls as [| l ls IH]; intros w; [reflexivity |].
  cbn [simulateDrawingLines]. unfold bind at 1. rewrite run_drawPoints_run.
  destruct (2 <=? length (line_points l))%nat; [| reflexivity].
  unfold bind, emit, modify.
  match goal with
  | |- context [saveLine ?c ?r ?w1] =>
      pose proof (saveLine_coordSystem c r w1) as Hsave;
      rewrite (saveLine_run c r w1) in *;
      destruct (length (points w1) <? 2)%nat
  end.
  all: cbn [fst snd] in Hsave.
  all: match goal with
       | |- context [simulateDrawingLines ?ls' ?w2] =>
           specialize (IH w2);
           destruct (simulateDrawingLines ls' w2) as [[[u' | |] w3] effs3]
       end.
  all: cbn [fst snd] in *; rewrite IH; exact Hsave.
Qed.

(** [simulateDrawingLines] returns when every line can be drawn, and throws
    otherwise. *)
Lemma simulateDrawingLines_ending ls : forall (w : World L C),
  fst (fst (simulateDrawingLines ls w))
    = if forallb drawable ls then Returns tt else Throws.
Proof.
  induction ls as [| l ls IH]; intros w; [reflexivity |].
  cbn [simulateDrawingLines forallb]. unfold bind at 1.
  rewrite run_drawPoints_run. unfold drawable at 1.
  destruct (2 <=? length (line_points l))%nat; [| reflexivity].
  cbn [andb]. unfold bind, emit, modify.
  match goal with
  | |- context [saveLine ?c ?r ?w1] =>
      rewrite (saveLine_run c r w1);
      destruct (length (points w1) <? 2)%nat
  end.
  all: match goal with
       | |- context [simulateDrawingLines ?ls' ?w2] =>
           specialize (IH w2);
           destruct (simulateDrawingLines ls' w2) as [[[u' | |] w3] effs3]
       end.
  all: cbn [fst snd] in *; rewrite <- IH; try reflexivity.
  all: destruct u'; reflexivity.
Qed.

(** [scaleAtClientPoint] leaves the view that the coordinate system
    computes: the listener does not touch it. *)
Lemma scaleAtClientPoint_coordSystem deltaScale pt (w : World L C) :
  coordSystem (snd (fst (scaleAtClientPoint deltaScale pt w)))
    = cs_scaleAtClientPoint (coordSystem w) deltaScale pt.
Proof.
  unfold scaleAtClientPoint, applyView, bind, modify, emit, get.
  match goal with
  | |- context [simulateDrawingLines ?ls ?w1] =>
      pose proof (simulateDrawingLines_coordSystem ls w1) as Hsim;
      destruct (simulateDrawingLines ls w1) as [[[u | |] w2] effs2]
  end.
  all: cbn [fst snd] in *; rewrite Hsim; reflexivity.
Qed.

Lemma scaleAtClientPoint_ending deltaScale pt (w : World L C) :
  fst (fst (scaleAtClientPoint deltaScale pt w))
    = if forallb drawable (lines w) then Returns tt else Throws.
Proof.
  unfold scaleAtClientPoint, applyView, bind, modify, emit, get.
  match goal with
  | |- context [simulateDrawingLines ?ls ?w1] =>
      pose proof (simulateDrawingLines_ending ls w1) as Hsim;
      destruct (simulateDrawingLines ls w1) as [[[u | |] w2] effs2]
  end.
  all: cbn [fst snd lines set_lines set_coordSystem] in *; rewrite <- Hsim.
  all: reflexivity.
Qed.

(** [TouchScaleState.handleDrawMove] on two touches: the coordinate system
    is asked for a change of scale by
    [scaleStart * (distance / start.distance) - scale] at the centroid, and
    the state stays when the redraw of the saved lines returns. *)
Lemma TouchScale_handleDrawMove_run ref e touch0 touch1 more (w : World L C) :
  touches e = Some (touch0 :: touch1 :: more) ->
  let metrics := getTouchMetrics touch0 touch1 in
  let targetScale :=
    (scaleStart ref * (distance metrics / distance (start ref)))%float in
  exists w' effs,
    TouchScale_handleDrawMove ref e w
      = (if forallb drawable (lines w)
         then Returns (TouchScaleState
                (mkScaleOrPan (start ref) (panStart ref) (scaleStart ref)
                              (Some metrics)))
         else Throws, w', effs) /\
    coordSystem w'
      = cs_scaleAtClientPoint (coordSystem w)
          (targetScale - cs_scale (coordSystem w))%float (centroid metrics).
Proof.
  intros Htouch metrics targetScale.
  unfold TouchScale_handleDrawMove, bind at 1. rewrite preventDefault_run.
  rewrite Htouch. unfold bind at 1, get at 1. cbn iota beta.
  cbn [scaleStart start]. fold metrics. fold targetScale.
  unfold bind at 1.
  pose proof (scaleAtClientPoint_coordSystem
                (targetScale - cs_scale (coordSystem w))%float
                (centroid metrics) w) as Hcs.
  pose proof (scaleAtClientPoint_ending
                (targetScale - cs_scale (coordSystem w))%float
                (centroid metrics) w) as Hend.
  destruct (scaleAtClientPoint _ _ w) as [[[u | |] w'] effs].
  all: unfold ret; cbn [fst snd] in Hcs, Hend.
  all: destruct (forallb drawable (lines w)); try discriminate Hend.
  all: eexists w', _; split; [reflexivity | exact Hcs].
Qed.

End Handlers.

(** The scale that the modelled [scaleAtClientPoint] leaves: the requested
    one clamped to the extents, unless that equals the current scale, in
    which case the view stays as it is. *)
Lemma spec_scaleAtClientPoint_scale c deltaScale pt :
  view_scale (spec_scaleAtClientPoint c deltaScale pt)
    = clamp (view_scale c + deltaScale)%float (minScale c) (maxScale c) \/
  spec_scaleAtClientPoint c deltaScale pt = c.
Proof.
  unfold spec_scaleAtClientPoint.
  destruct (_ =? _)%float; [right | left]; reflexivity.
Qed.

(** C8, as the code and the modelled coordinate system have it.  In
    [ScaleOrPanState] a move with two touches whose distance differs from
    the baseline distance by at least the slop threshold goes to
    [TouchScaleState], whatever the centroid has done (the test comes
    first).  [TouchScaleState] asks the coordinate system to change the
    scale by [baselineScale * (currentDistance / baselineDistance)] minus
    the current scale, anchored at the touch centroid; the view scale
    becomes the current scale plus that difference, clamped to
    [minScale, maxScale] (or the view stays as it is when the clamped value
    equals the current scale).  The handler returns the new state when
    every saved line has two points or more, as [saveLine] leaves them;
    the redraw of a shorter line throws, after the view has changed. *)
Theorem scaleOrPan_switches_to_scaling {L : Type} `{LazyBrush L}
    (this : ScaleOrPan) (e : Event) (touch0 touch1 : ClientPoint)
    (more : list ClientPoint) (w : World L ViewState) :
  touches e = Some (touch0 :: touch1 :: more) ->
  (TOUCH_SLOP <=? abs (distance (getTouchMetrics touch0 touch1)
                       - distance (start this)))%float = true ->
  let metrics := getTouchMetrics touch0 touch1 in
  let targetScale :=
    (scaleStart this * (distance metrics / distance (start this)))%float in
  let dScale := (targetScale - view_scale (coordSystem w))%float in
  exists w' effs,
    ScaleOrPan_handleDrawMove this e w
      = (if forallb drawable (lines w)
         then Returns (TouchScaleState
                (mkScaleOrPan (start this) (panStart this) (scaleStart this)
                              (Some metrics)))
         else Throws, w', effs) /\
    coordSystem w'
      = spec_scaleAtClientPoint (coordSystem w) dScale (centroid metrics) /\
    (view_scale (coordSystem w')
       = clamp (view_scale (coordSystem w) + dScale)%float
               (minScale (coordSystem w)) (maxScale (coordSystem w)) \/
     coordSystem w' = coordSystem w).
Proof.
  intros Htouch Hslop metrics targetScale dScale.
  destruct (TouchScale_handleDrawMove_run
              (mkScaleOrPan (start this) (panStart this) (scaleStart this)
                            (Some metrics)) e touch0 touch1 more w Htouch)
    as (w' & effs & Hrun & Hcs).
  cbn [start panStart scaleStart] in Hrun, Hcs.
  unfold ScaleOrPan_handleDrawMove, bind at 1. rewrite preventDefault_run.
  rewrite Htouch. cbn [start panStart scaleStart]. fold metrics.
  unfold metrics at 1. rewrite Hslop. fold metrics. rewrite Hrun.
  eexists w', _. split; [destruct (forallb _ _); reflexivity |].
  split; [exact Hcs |].
  rewrite Hcs. apply spec_scaleAtClientPoint_scale.
Qed.

(** Scenario C at baseline scale 1: touches at [(0,0)] and [(10,0)], then
    at [(0,0)] and [(30,0)]; the machine is in [TouchScaleState] and the
    scale is [1 * (30 / 10)]. *)
Lemma scaleOrPan_switches_to_scaling_witness :
  let this :=
    mkScaleOrPan (getTouchMetrics (mkClientPoint 0 0) (mkClientPoint 10 0))
                 (mkPoint 0 0) 1 None in
  let e := touch_event [mkClientPoint 0 0; mkClientPoint 30 0] in
  exists w' effs,
    ScaleOrPan_handleDrawMove this e (world_with "Pencil" true 1)
      = (Returns (TouchScaleState
           (mkScaleOrPan (start this) (panStart this) (scaleStart this)
              (Some (getTouchMetrics (mkClientPoint 0 0)
                                     (mkClientPoint 30 0))))), w', effs) /\
    view_scale (coordSystem w') = (1 * (30 / 10))%float.
Proof.
  intros this e.
  destruct (scaleOrPan_switches_to_scaling this e (mkClientPoint 0 0)
              (mkClientPoint 30 0) [] (world_with "Pencil" true 1))
    as (w' & effs & Hrun & Hcs & _).
  - reflexivity.
  - vm_compute. reflexivity.
  - exists w', effs. split; [exact Hrun |].
    rewrite Hcs. vm_compute. reflexivity.
Defined.

(** C8 as stated fails at baseline scale 2 with the default extents
    [0.33, 3]: the same two events, through the host from [DefaultState],
    end in [TouchScaleState] with scale 3, not [2 * (30 / 10)]. *)
Lemma pinch_scale_is_clamped :
  let start := touch_event [mkClientPoint 0 0; mkClientPoint 10 0] in
  let move := touch_event [mkClientPoint 0 0; mkClientPoint 30 0] in
  let h0 := (VState DefaultState, world_with "Pencil" true 2) in
  let h1 := host_handleDrawStart start false h0 in
  let h2 := match h1 with
            | Some h => host_handleDrawMove move h
            | None => None
            end in
  option_map (fun h =>
      match fst h with
      | VState (ScaleOrPanState this) => Some (scaleStart this)
      | _ => None
      end) h1 = Some (Some 2%float) /\
  option_map (fun h =>
      match fst h with
      | VState (TouchScaleState ref) =>
          Some (scaleStart ref, view_scale (coordSystem (snd h)))
      | _ => None
      end) h2 = Some (Some (2%float, 3%float)) /\
  (3 =? 2 * (30 / 10))%float = false.
Proof. repeat split; vm_compute; reflexivity. Qed.

(** A wheel event during a pan. *)
Lemma wheel_in_active_gesture_returns_undefined_witness :
  handleMouseWheel (PanState (mkPan (mkClientPoint 5 5) (mkPoint 0 0)))
                   (wheel_event 5 5 3 true) (world_with "Pencil" true 1)
  = (Returns VUndefined, world_with "Pencil" true 1, [PreventDefault]).
Proof.
  apply (wheel_in_active_gesture_returns_undefined
           (PanState (mkPan (mkClientPoint 5 5) (mkPoint 0 0)))
           (wheel_event 5 5 3 true) (world_with "Pencil" true 1));
    discriminate.
Defined.

(** The same through the host, from [DefaultState]: a draw-start with the
    control key enters [PanState], the wheel event leaves the host with
    [undefined], and the next draw-move fails. *)
Example wheel_during_pan_breaks_host :
  let h0 := (VState DefaultState, world_with "Pencil" true 1) in
  let h1 := host_handleDrawStart (mouse_event 5 5 true) false h0 in
  let h2 := match h1 with
            | Some h => host_handleWheel (wheel_event 5 5 3 true) h
            | None => None
            end in
  let h3 := match h2 with
            | Some h => host_handleDrawMove (mouse_event 6 6 true) h
            | None => None
            end in
  option_map fst h1
    = Some (VState (PanState (mkPan (mkClientPoint 5 5) (mkPoint 0 0)))) /\
  option_map fst h2 = Some VUndefined /\
  option_map fst h3 = None.
Proof. repeat split; vm_compute; reflexivity. Qed.

(** C9 as stated fails with the Pencil: a mouse click that does not move,
    pan and zoom switched off, goes through [DrawingState] with two points
    recorded at the start and leaves a line of three points. *)
Lemma pencil_click_commits_line :
  let e := mouse_event 50 60 false in
  let h0 := (VState DefaultState, world_with "Pencil" false 1) in
  option_map (fun h => (fst h, points (snd h)))
             (host_handleDrawStart e false h0)
    = Some (VState (DrawingState true), [mkPoint 50 60; mkPoint 50 60]) /\
  option_map (fun h => (fst h, points (snd h), lines (snd h)))
             (host_click e h0)
    = Some (VState DefaultState, [],
            [mkLine [mkPoint 50 60; mkPoint 50 60; mkPoint 50 60]
                    "#db2727" 10]).
Proof. split; vm_compute; reflexivity. Qed.

(** A click with the Rectangle tool. *)
Lemma mouse_click_without_pan_zoom_witness :
  let e := mouse_event 50 60 false in
  let w := world_with "Rectangle" false 1 in
  exists isDrawing w1 effs1 w2 effs2,
    handleDrawStart DefaultState e false w
      = (Returns (VState (DrawingState isDrawing)), w1, effs1) /\
    handleDrawEnd (DrawingState isDrawing) e w1
      = (Returns (VState DefaultState), w2, effs2) /\
    points w1 = [] /\ points w2 = [] /\ ~ In LineSaved (effs1 ++ effs2).
Proof.
  intros e w.
  destruct (mouse_click_without_pan_zoom e w)
    as (b & w1 & effs1 & w2 & effs2 & Hstart & Hend & _ & Hother);
    try reflexivity; [vm_compute; discriminate |].
  exists b, w1, effs1, w2, effs2.
  split; [exact Hstart |]. split; [exact Hend |].
  apply Hother; vm_compute; discriminate.
Defined.

(** Two moves within the thresholds and a third at distance 11, with the
    Pencil. *)
Lemma waitForPinch_slop_and_timeout_witness :
  let this := mkWaitForPinch (Some (mkClientPoint 10 10)) 1000
                             [mkClientPoint 10 10] in
  let es := [touch_event [mkClientPoint 12 11];
             touch_event [mkClientPoint 13 14]] in
  let e := touch_event [mkClientPoint 18 13] in
  let w := world_with "Pencil" true 1 in
  host_moves es (VState (WaitForPinchState this), w)
    = Some (VState (WaitForPinchState (wait_after this es)),
            set_reads (reads w + length es) w) /\
  host_moves (es ++ [e]) (VState (WaitForPinchState this), w)
    = match replay_in_order
              (deferredPoints this ++ map clientPointFromEvent (es ++ [e]))
              (set_reads (S (reads w + length es)) w) with
      | (Returns drawing, w', _) => Some (VState (DrawingState drawing), w')
      | _ => None
      end.
Proof.
  intros this es e w.
  apply (waitForPinch_slop_and_timeout this es e w (mkClientPoint 10 10)).
  - reflexivity.
  - intros i ev Hi.
    destruct i as [| [| i]]; cbn in Hi; try discriminate;
      injection Hi as <-; repeat split; vm_compute; reflexivity.
  - reflexivity.
  - right. vm_compute. reflexivity.
Defined.

(** That run, evaluated: two moves at distances 3 and 7 from [(10, 10)]
    are buffered, the move at distance 11 gives up, and the stroke holds
    the four buffered points in order (the first twice, as every start of a
    stroke records it). *)
Example waitForPinch_run :
  let this := mkWaitForPinch (Some (mkClientPoint 10 10)) 1000
                             [mkClientPoint 10 10] in
  let es := [touch_event [mkClientPoint 12 11];
             touch_event [mkClientPoint 13 14]] in
  let e := touch_event [mkClientPoint 18 13] in
  let w := world_with "Pencil" true 1 in
  option_map fst (host_moves es (VState (WaitForPinchState this), w))
    = Some (VState (WaitForPinchState
              (mkWaitForPinch (Some (mkClientPoint 10 10)) 1000
                 [mkClientPoint 10 10; mkClientPoint 12 11;
                  mkClientPoint 13 14]))) /\
  option_map (fun h => (fst h, points (snd h)))
             (host_moves (es ++ [e]) (VState (WaitForPinchState this), w))
    = Some (VState (DrawingState true),
            [mkPoint 10 10; mkPoint 10 10; mkPoint 12 11; mkPoint 13 14;
             mkPoint 18 13]).
Proof. split; vm_compute; reflexivity. Qed.

(** A touch that moves from [(50, 50)] to [(70, 50)] with the FloodFill
    tool, on a view panned to [x = 100]: the first buffered point is at
    [x = -50] of the document. *)
Lemma waitForPinch_fill_replay_never_returns_witness :
  let this := mkWaitForPinch (Some (mkClientPoint 50 50)) 1000
                             [mkClientPoint 50 50] in
  let e := touch_event [mkClientPoint 70 50] in
  fst (fst (handleDrawMove (WaitForPinchState this) e
              (set_fuel 5000 panned_fill_world))) = Running /\
  host_handleDrawMove e (VState (WaitForPinchState this),
                         set_fuel 5000 panned_fill_world) = None.
Proof.
  intros this e.
  apply (waitForPinch_fill_replay_never_returns this e panned_fill_world
           (mkClientPoint 50 50)).
  - reflexivity.
  - right. exists (mkClientPoint 50 50). split; vm_compute; reflexivity.
  - reflexivity.
  - reflexivity.
  - vm_compute. discriminate.
  - vm_compute. discriminate.
  - exact PixelFacts.wf_white_2x2.
  - discriminate.
  - discriminate.
  - unfold Pixels.color32. vm_compute. split; [discriminate | reflexivity].
  - vm_compute. intros [[Hx _] _]. exact (Hx eq_refl).
Defined.

(** The same through the host, from [DefaultState]: the touch enters
    [WaitForPinchState], and the move leaves the host without a state. *)
Example fill_touch_leaves_host_without_state :
  let h0 := (VState DefaultState, panned_fill_world) in
  let h1 := host_handleDrawStart (touch_event [mkClientPoint 50 50]) false h0 in
  let h2 := match h1 with
            | Some h => host_handleDrawMove (touch_event [mkClientPoint 70 50]) h
            | None => None
            end in
  option_map fst h1
    = Some (VState (WaitForPinchState
              (mkWaitForPinch (Some (mkClientPoint 50 50)) 1000
                              [mkClientPoint 50 50]))) /\
  h2 = None.
Proof. split; vm_compute; reflexivity. Qed.

(** A click with the FloodFill tool on a pixel of the canvas: the fill
    returns, and the machine is in [DrawingState]. *)
Example fill_click_inside_returns :
  let r := handleDrawStart DefaultState (mouse_event 1 1 false) false
                           (world_with "FloodFill" false 1) in
  fst (fst r) = Returns (VState (DrawingState false)) /\
  snd r = [PreventDefault; PreventDefault; PreventDefault;
           FloodFillAt (Seeds.Fin 1) (Seeds.Fin 1) "#db2727"].
Proof. split; vm_compute; reflexivity. Qed.

Lemma replay_reproduces_live_stroke_witness :
  let es := [touch_event [mkClientPoint 10 10];
             touch_event [mkClientPoint 12 11];
             mouse_event 15 13 false] in
  let this := mkWaitForPinch (Some (mkClientPoint 10 10)) 1000
                [mkClientPoint 10 10; mkClientPoint 12 11;
                 mkClientPoint 15 13] in
  points (snd (fst (issueDeferredPoints this (world_with "Pencil" true 1))))
    = points (snd (fst (deliver_live es (world_with "Pencil" true 1)))).
Proof.
  intros es this.
  apply (replay_reproduces_live_stroke this es (world_with "Pencil" true 1)).
  - reflexivity.
  - reflexivity.
Defined.

(** The stroke of that replay: the first point twice, as every start of a
    stroke records it, then one point per move. *)
Example replay_stroke_points :
  points (snd (fst (issueDeferredPoints
                      (mkWaitForPinch (Some (mkClientPoint 10 10)) 1000
                         [mkClientPoint 10 10; mkClientPoint 12 11;
                          mkClientPoint 15 13])
                      (world_with "Pencil" true 1))))
  = [mkPoint 10 10; mkPoint 10 10; mkPoint 12 11; mkPoint 15 13].
Proof. vm_compute. reflexivity. Qed.

End GestureFacts.

(** ** Facts about the pixel and colour helpers of [src/index.js] *)

Module RasterFacts.
Import SpanFill SpanFacts Raster.

Lemma read_put_byte l i v j :
  Pixels.read (put_byte l i v) j =
  if (i =? j) && (0 <=? i) && (i <? Z.of_nat (length l))
  then Some (clamp8 v) else Pixels.read l j.
Proof.
  unfold Pixels.read, put_byte.
  destruct (Z.eqb_spec i j) as [-> | Hij]; cbn [andb].
  - destruct (Z.leb_spec 0 j), (Z.ltb_spec j (Z.of_nat (length l)));
      cbn [andb]; try reflexivity.
    destruct (Z.ltb_spec j 0); [lia |].
    apply list_lookup_insert_eq. lia.
  - destruct ((0 <=? i) && (i <? Z.of_nat (length l))) eqn:Hin;
      [| reflexivity].
    destruct (Z.ltb_spec j 0); [reflexivity |].
    apply list_lookup_insert_ne. lia.
Qed.

Lemma read_None l m : Z.of_nat (length l) <= m -> Pixels.read l m = None.
Proof.
  intros Hm. unfold Pixels.read. destruct (Z.ltb_spec m 0); [reflexivity |].
  apply lookup_ge_None. lia.
Qed.

Lemma seqZ_snoc k : 0 <= k -> seqZ 0 (Z.succ k) = seqZ 0 k ++ [k].
Proof.
  intros Hk. replace (Z.succ k) with (k + 1) by lia.
  rewrite seqZ_app by lia. f_equal.
Qed.

Lemma mod4_add k c : 0 <= c < 4 -> (4 * k + c) mod 4 = c.
Proof. intros Hc. symmetry. apply Z.mod_unique with k; lia. Qed.

Lemma div4_add k c : 0 <= c < 4 -> (4 * k + c) / 4 = k.
Proof. intros Hc. symmetry. apply Z.div_unique with c; lia. Qed.

Lemma white_at_neg pix i : i < 0 -> white_at pix i = false.
Proof.
  intros Hi. unfold white_at, Pixels.read.
  destruct (Z.ltb_spec i 0); [reflexivity | lia].
Qed.

(** The loop of [white2transparent] after [k] pixels. *)
Lemma white2transparent_upto pix k :
  0 <= k ->
  let cur := fold_left (fun pix i => whiten i pix)
                       ((fun k => 4 * k) <$> seqZ 0 k) pix in
  length cur = length pix /\
  forall m,
    Pixels.read cur m =
    if (m mod 4 =? 3) && (m / 4 <? k) && white_at pix (m - 3)
       && (m <? Z.of_nat (length pix))
    then Some 0 else Pixels.read pix m.
Proof.
  intros Hk. pattern k. apply natlike_ind; [| | exact Hk]; clear k Hk.
  - cbn. split; [reflexivity |]. intros m.
    destruct (Z.eqb_spec (m mod 4) 3) as [E3 |]; [| reflexivity].
    destruct (Z.ltb_spec (m / 4) 0) as [E |]; [| reflexivity].
    rewrite white_at_neg by (pose proof (Z.div_mod m 4); lia). reflexivity.
  - intros k Hk [IHlen IH].
    rewrite seqZ_snoc by exact Hk. rewrite fmap_app, fold_left_app.
    set (cur := fold_left _ (_ <$> seqZ 0 k) pix) in *.
    cbn [fmap list_fmap fold_left].
    assert (Hkeep : forall c, 0 <= c < 3 ->
              Pixels.read cur (4 * k + c) = Pixels.read pix (4 * k + c)).
    { intros c Hc. rewrite IH.
      rewrite mod4_add by lia.
      destruct (Z.eqb_spec c 3); [lia | reflexivity]. }
    assert (Htest : is255 (Pixels.read cur (4 * k))
                    && is255 (Pixels.read cur (4 * k + 1))
                    && is255 (Pixels.read cur (4 * k + 2))
                    = white_at pix (4 * k)).
    { unfold white_at. rewrite <- (Hkeep 1), <- (Hkeep 2) by lia.
      pose proof (Hkeep 0 ltac:(lia)) as H0.
      rewrite Z.add_0_r in H0. rewrite H0. reflexivity. }
    unfold whiten. rewrite Htest.
    assert (Hother : forall m, m <> 4 * k + 3 ->
              (m mod 4 =? 3) && (m / 4 <? Z.succ k)
              = (m mod 4 =? 3) && (m / 4 <? k)).
    { intros m Hm. destruct (Z.eqb_spec (m mod 4) 3) as [E3 |];
        [| reflexivity]. cbn [andb].
      pose proof (Z.div_mod m 4 ltac:(lia)).
      destruct (Z.ltb_spec (m / 4) (Z.succ k)), (Z.ltb_spec (m / 4) k);
        try reflexivity; lia. }
    assert (Hat : (4 * k + 3) mod 4 = 3 /\ (4 * k + 3) / 4 = k).
    { split; [apply mod4_add | apply div4_add]; lia. }
    destruct Hat as [Hmod Hdiv].
    destruct (white_at pix (4 * k)) eqn:Hw.
    + split; [rewrite length_put_byte; exact IHlen |].
      intros m. rewrite read_put_byte, IHlen.
      destruct (Z.eqb_spec (4 * k + 3) m) as [<- | Hm].
      * rewrite Hmod, Hdiv. cbn [andb].
        replace (4 * k + 3 - 3) with (4 * k) by lia. rewrite Hw.
        destruct (Z.leb_spec 0 (4 * k + 3)); [| lia].
        destruct (Z.ltb_spec (4 * k + 3) (Z.of_nat (length pix)));
          cbn [andb]; destruct (Z.ltb_spec k (Z.succ k)); try lia;
          cbn [andb]; [reflexivity |].
        rewrite andb_false_r, !read_None by (rewrite ?IHlen; lia).
        reflexivity.
      * cbn [andb]. rewrite IH, Hother by congruence. reflexivity.
    + split; [exact IHlen |].
      intros m. rewrite IH.
      destruct (Z.eq_dec m (4 * k + 3)) as [-> | Hm].
      * rewrite Hmod, Hdiv. replace (4 * k + 3 - 3) with (4 * k) by lia.
        rewrite Hw, Z.ltb_irrefl. cbn [andb].
        destruct (k <? Z.succ k); reflexivity.
      * rewrite Hother by exact Hm. reflexivity.
Qed.

Lemma ceil4 n : 0 <= n -> forall m, 0 <= m < n -> m / 4 < (n + 3) / 4.
Proof.
  intros Hn m Hm.
  pose proof (Z.div_mod m 4 ltac:(lia)).
  pose proof (Z.mod_pos_bound m 4 ltac:(lia)).
  pose proof (Z.div_mod (n + 3) 4 ltac:(lia)).
  pose proof (Z.mod_pos_bound (n + 3) 4 ltac:(lia)).
  lia.
Qed.

Lemma white2transparent_read pix m :
  Pixels.read (white2transparent pix) m =
  if (m mod 4 =? 3) && white_at pix (m - 3) && (m <? Z.of_nat (length pix))
  then Some 0 else Pixels.read pix m.
Proof.
  unfold white2transparent.
  destruct (white2transparent_upto pix ((Z.of_nat (length pix) + 3) / 4))
    as [_ Hread]; [apply Z.div_pos; lia |].
  rewrite Hread. clear Hread.
  destruct (Z.eqb_spec (m mod 4) 3) as [E3 |]; [| reflexivity].
  destruct (Z.ltb_spec m (Z.of_nat (length pix))) as [Hlt | Hge];
    [| rewrite !andb_false_r; reflexivity].
  destruct (Z.le_gt_cases 0 m) as [Hpos | Hneg].
  - pose proof (ceil4 (Z.of_nat (length pix)) ltac:(lia) m ltac:(lia)).
    destruct (Z.ltb_spec (m / 4) ((Z.of_nat (length pix) + 3) / 4)); [| lia].
    reflexivity.
  - rewrite white_at_neg by lia. rewrite !andb_false_r. reflexivity.
Qed.

Lemma length_white2transparent pix :
  length (white2transparent pix) = length pix.
Proof.
  unfold white2transparent.
  apply (white2transparent_upto pix ((Z.of_nat (length pix) + 3) / 4)).
  apply Z.div_pos; lia.
Qed.

Lemma read_ext (l1 l2 : list Z) :
  (forall m, Pixels.read l1 m = Pixels.read l2 m) -> l1 = l2.
Proof.
  intros Hread. apply list_eq. intros i.
  specialize (Hread (Z.of_nat i)). unfold Pixels.read in Hread.
  destruct (Z.ltb_spec (Z.of_nat i) 0); [lia |].
  rewrite Nat2Z.id in Hread. exact Hread.
Qed.

(** X1.  [white2transparent] keeps the length of the data and every
    colour byte; the alpha byte of a pixel becomes 0 when its red, green
    and blue bytes are all 255 and is kept otherwise.  ([j] counts pixels,
    [c] the three colour channels.) *)
Theorem white2transparent_pixels (pix : list Z) :
  length (white2transparent pix) = length pix /\
  forall j, 0 <= j ->
    (forall c, 0 <= c < 3 ->
       Pixels.read (white2transparent pix) (4 * j + c)
         = Pixels.read pix (4 * j + c)) /\
    (4 * j + 3 < Z.of_nat (length pix) ->
     Pixels.read (white2transparent pix) (4 * j + 3)
       = if white_at pix (4 * j) then Some 0
         else Pixels.read pix (4 * j + 3)).
Proof.
  split; [apply length_white2transparent |].
  intros j Hj. split.
  - intros c Hc. rewrite white2transparent_read.
    rewrite mod4_add by lia.
    destruct (Z.eqb_spec c 3); [lia | reflexivity].
  - intros Hin. rewrite white2transparent_read.
    rewrite mod4_add by lia.
    replace (4 * j + 3 - 3) with (4 * j) by lia.
    destruct (Z.ltb_spec (4 * j + 3) (Z.of_nat (length pix))); [| lia].
    cbn [Z.eqb Pos.eqb andb]. rewrite andb_true_r. reflexivity.
Qed.

(** X2.  [white2transparent] is idempotent: a second pass changes
    nothing. *)
Theorem white2transparent_idempotent (pix : list Z) :
  white2transparent (white2transparent pix) = white2transparent pix.
Proof.
  apply read_ext. intros m.
  rewrite (white2transparent_read (white2transparent pix)).
  rewrite length_white2transparent.
  destruct (Z.eqb_spec (m mod 4) 3) as [E3 |]; [| reflexivity].
  cbn [andb].
  assert (Hw : white_at (white2transparent pix) (m - 3)
               = white_at pix (m - 3)).
  { unfold white_at. rewrite !white2transparent_read.
    pose proof (Z.div_mod m 4 ltac:(lia)) as Hm.
    replace (m - 3) with (4 * (m / 4) + 0) by lia.
    replace (4 * (m / 4) + 0 + 1) with (4 * (m / 4) + 1) by lia.
    replace (4 * (m / 4) + 0 + 2) with (4 * (m / 4) + 2) by lia.
    rewrite !mod4_add by lia.
    reflexivity. }
  rewrite Hw, white2transparent_read.
  rewrite (proj2 (Z.eqb_eq _ _) E3). cbn [andb].
  destruct (white_at pix (m - 3) && (m <? Z.of_nat (length pix)));
    reflexivity.
Qed.

(** *** [scaleImageData] *)

Lemma for_preserve_list {S : Type} (Q : S -> Prop) (l : list Z) body (s : S) :
  (forall i s, i ∈ l -> Q s -> Q (body i s)) ->
  Q s -> Q (fold_left (fun s i => body i s) l s).
Proof.
  revert s. induction l as [| i l IH]; intros s Hbody Hs; [exact Hs |].
  cbn [fold_left]. apply IH.
  - intros j s' Hj. apply Hbody. right. exact Hj.
  - apply Hbody; [left | exact Hs].
Qed.

Lemma for_preserve {S : Type} (Q : S -> Prop) n body (s : S) :
  (forall i s, 0 <= i < n -> Q s -> Q (body i s)) ->
  Q s -> Q (for_ n body s).
Proof.
  intros Hbody. apply for_preserve_list.
  intros i s' Hi. apply Hbody. apply elem_of_seqZ in Hi. lia.
Qed.

(** A property that the run at [i0] establishes and that no run destroys
    holds after the loop. *)
Lemma for_establish {S : Type} (I P : S -> Prop) n body i0 (s : S) :
  0 <= i0 < n ->
  (forall i s, 0 <= i < n -> I s -> I (body i s)) ->
  (forall i s, 0 <= i < n -> P s -> P (body i s)) ->
  (forall s, I s -> P (body i0 s)) ->
  I s -> P (for_ n body s).
Proof.
  intros Hi0 HI HP Hest Hs. unfold for_.
  replace n with (i0 + (1 + (n - i0 - 1))) by lia.
  rewrite seqZ_app, seqZ_app by lia. rewrite !fold_left_app.
  change (seqZ (0 + i0) 1) with [0 + i0]. cbn [fold_left].
  rewrite Z.add_0_l.
  apply (for_preserve_list P).
  - intros i s' Hi. apply HP. apply elem_of_seqZ in Hi. lia.
  - apply Hest. apply (for_preserve_list I); [| exact Hs].
    intros i s' Hi. apply HI. apply elem_of_seqZ in Hi. lia.
Qed.

(** The five nested loops of [scaleImageData] around one write. *)
Lemma nest_preserve (Q : ImageData -> Prop)
    (wr : Z -> Z -> Z -> Z -> Z -> ImageData -> ImageData) h w scale s :
  (forall row col y x i s,
     0 <= row < h -> 0 <= col < w -> 0 <= y < scale -> 0 <= x < scale ->
     0 <= i < 4 -> Q s -> Q (wr row col y x i s)) ->
  Q s ->
  Q (for_ h (fun row s => for_ w (fun col s => for_ scale (fun y s =>
       for_ scale (fun x s => for_ 4 (fun i s => wr row col y x i s) s) s) s)
       s) s).
Proof.
  intros Hwr Hs.
  apply (for_preserve Q); [intros row s1 Hrow Hs1 | exact Hs].
  apply (for_preserve Q); [intros col s2 Hcol Hs2 | exact Hs1].
  apply (for_preserve Q); [intros y s3 Hy Hs3 | exact Hs2].
  apply (for_preserve Q); [intros x s4 Hx Hs4 | exact Hs3].
  apply (for_preserve Q); [intros i s5 Hi Hs5 | exact Hs4].
  apply Hwr; assumption.
Qed.

Lemma nest_establish (I P : ImageData -> Prop)
    (wr : Z -> Z -> Z -> Z -> Z -> ImageData -> ImageData) h w scale
    row0 col0 y0 x0 i0 s :
  0 <= row0 < h -> 0 <= col0 < w -> 0 <= y0 < scale -> 0 <= x0 < scale ->
  0 <= i0 < 4 ->
  (forall row col y x i s,
     0 <= row < h -> 0 <= col < w -> 0 <= y < scale -> 0 <= x < scale ->
     0 <= i < 4 -> I s -> I (wr row col y x i s)) ->
  (forall row col y x i s,
     0 <= row < h -> 0 <= col < w -> 0 <= y < scale -> 0 <= x < scale ->
     0 <= i < 4 -> P s -> P (wr row col y x i s)) ->
  (forall s, I s -> P (wr row0 col0 y0 x0 i0 s)) ->
  I s ->
  P (for_ h (fun row s => for_ w (fun col s => for_ scale (fun y s =>
       for_ scale (fun x s => for_ 4 (fun i s => wr row col y x i s) s) s) s)
       s) s).
Proof.
  intros Hrow0 Hcol0 Hy0 Hx0 Hi0 HI HP Hest Hs.
  assert (HQ : forall Q : ImageData -> Prop,
            (forall row col y x i s,
               0 <= row < h -> 0 <= col < w -> 0 <= y < scale ->
               0 <= x < scale -> 0 <= i < 4 -> Q s -> Q (wr row col y x i s)) ->
            (forall row s, 0 <= row < h -> Q s ->
               Q (for_ w (fun col s => for_ scale (fun y s =>
                    for_ scale (fun x s =>
                      for_ 4 (fun i s => wr row col y x i s) s) s) s) s)) /\
            (forall row col s, 0 <= row < h -> 0 <= col < w -> Q s ->
               Q (for_ scale (fun y s => for_ scale (fun x s =>
                    for_ 4 (fun i s => wr row col y x i s) s) s) s)) /\
            (forall row col y s, 0 <= row < h -> 0 <= col < w ->
               0 <= y < scale -> Q s ->
               Q (for_ scale (fun x s =>
                    for_ 4 (fun i s => wr row col y x i s) s) s)) /\
            (forall row col y x s, 0 <= row < h -> 0 <= col < w ->
               0 <= y < scale -> 0 <= x < scale -> Q s ->
               Q (for_ 4 (fun i s => wr row col y x i s) s))).
  { intros Q HQ.
    assert (H4 : forall row col y x s, 0 <= row < h -> 0 <= col < w ->
               0 <= y < scale -> 0 <= x < scale -> Q s ->
               Q (for_ 4 (fun i s => wr row col y x i s) s)).
    { intros. apply (for_preserve Q); [| assumption].
      intros. apply HQ; assumption. }
    assert (H3 : forall row col y s, 0 <= row < h -> 0 <= col < w ->
               0 <= y < scale -> Q s ->
               Q (for_ scale (fun x s =>
                    for_ 4 (fun i s => wr row col y x i s) s) s)).
    { intros. apply (for_preserve Q); [| assumption].
      intros. apply H4; assumption. }
    assert (H2 : forall row col s, 0 <= row < h -> 0 <= col < w -> Q s ->
               Q (for_ scale (fun y s => for_ scale (fun x s =>
                    for_ 4 (fun i s => wr row col y x i s) s) s) s)).
    { intros. apply (for_preserve Q); [| assumption].
      intros. apply H3; assumption. }
    repeat split; try assumption.
    intros. apply (for_preserve Q); [| assumption].
    intros. apply H2; assumption. }
  destruct (HQ I HI) as (I1 & I2 & I3 & I4).
  destruct (HQ P HP) as (P1 & P2 & P3 & P4).
  apply (for_establish I P) with (i0 := row0); auto.
  intros s1 Hs1.
  apply (for_establish I P) with (i0 := col0); auto.
  intros s2 Hs2.
  apply (for_establish I P) with (i0 := y0); auto.
  intros s3 Hs3.
  apply (for_establish I P) with (i0 := x0); auto.
  intros s4 Hs4.
  apply (for_establish I P) with (i0 := i0); auto.
Qed.

Lemma clamp8_byte v : byte v -> clamp8 v = v.
Proof. unfold byte, clamp8. lia. Qed.

Lemma byte_at_byte l i : Forall byte l -> byte (byte_at l i).
Proof.
  intros Hl. unfold byte_at. destruct (i <? 0); [unfold byte; lia |].
  destruct (l !! Z.to_nat i) as [v |] eqn:Hv; cbn; [| unfold byte; lia].
  rewrite Forall_forall in Hl. apply Hl.
  apply list_elem_of_lookup. eauto.
Qed.

Lemma cell_inj W a b a' b' :
  0 <= a < W -> 0 <= a' < W -> b * W + a = b' * W + a' -> a = a' /\ b = b'.
Proof.
  intros Ha Ha' Heq.
  assert (b = b').
  { rewrite (Z.div_unique (b * W + a) W b a) by lia.
    rewrite (Z.div_unique (b * W + a) W b' a') by lia. reflexivity. }
  subst b'. lia.
Qed.

(** X3.  For a positive integral [scale], [scaleImageData] returns an
    image [scale] times as wide and as high in which the pixel at
    [(X, Y)] is the source pixel at [(X / scale, Y / scale)], byte for
    byte: each source pixel becomes a block of [scale] by [scale] equal
    pixels. *)
Theorem scaleImageData_blocks (img : ImageData) (scale : Z) :
  0 < width img -> 0 < height img -> 1 <= scale ->
  Forall byte (data img) ->
  exists scaled,
    scaleImageData img scale = Some scaled /\
    width scaled = width img * scale /\
    height scaled = height img * scale /\
    Z.of_nat (length (data scaled)) = 4 * (width scaled * height scaled) /\
    forall X Y i,
      0 <= X < width scaled -> 0 <= Y < height scaled -> 0 <= i < 4 ->
      byte_at (data scaled) ((Y * width scaled + X) * 4 + i)
      = byte_at (data img) ((Y / scale * width img + X / scale) * 4 + i).
Proof.
  intros Hw Hh Hscale Hbytes.
  unfold scaleImageData, createImageData.
  destruct (Z.eqb_spec (width img * scale) 0) as [E | _]; [nia |].
  destruct (Z.eqb_spec (height img * scale) 0) as [E | _]; [nia |].
  cbn [orb]. rewrite !Z.abs_eq by nia.
  set (W := width img * scale). set (H := height img * scale).
  set (s0 := mkImageData W H (replicate (Z.to_nat (4 * (W * H))) 0)).
  set (wr := fun row col y x i (scaled : ImageData) =>
               set_data scaled
                 (put_byte (data scaled)
                    (((row * scale + y) * width scaled + (col * scale + x)) * 4
                     + i)
                    (byte_at (data img) ((row * width img + col) * 4 + i)))).
  set (I := fun s : ImageData =>
              width s = W /\ height s = H /\
              Z.of_nat (length (data s)) = 4 * (W * H)).
  assert (HI0 : I s0).
  { unfold I, s0. cbn [width height data]. rewrite length_replicate.
    repeat split. apply Z2Nat.id.
    unfold W, H. repeat apply Z.mul_nonneg_nonneg; lia. }
  assert (HI : forall row col y x i s,
             0 <= row < height img -> 0 <= col < width img ->
             0 <= y < scale -> 0 <= x < scale -> 0 <= i < 4 ->
             I s -> I (wr row col y x i s)).
  { intros row col y x i s _ _ _ _ _ (Hsw & Hsh & Hsl).
    unfold I, wr, set_data. cbn [width height data].
    rewrite length_put_byte. auto. }
  eexists. split; [reflexivity |].
  match goal with |- width ?r = _ /\ _ => set (result := r) end.
  assert (Hres : I result).
  { unfold result. apply (nest_preserve I wr); assumption. }
  destruct Hres as (Hrw & Hrh & Hrl).
  rewrite Hrw, Hrh. repeat split; try reflexivity; try assumption.
  intros X Y i HX HY Hi.
  set (P := fun s : ImageData =>
              I s /\
              byte_at (data s) ((Y * W + X) * 4 + i)
              = byte_at (data img)
                  ((Y / scale * width img + X / scale) * 4 + i)).
  assert (HYdiv := Z.div_mod Y scale ltac:(lia)).
  assert (HYmod := Z.mod_pos_bound Y scale ltac:(lia)).
  assert (HXdiv := Z.div_mod X scale ltac:(lia)).
  assert (HXmod := Z.mod_pos_bound X scale ltac:(lia)).
  assert (HYrow : 0 <= Y / scale < height img).
  { split; [apply Z.div_pos; lia |].
    apply Z.div_lt_upper_bound; [lia |]. unfold H in HY. lia. }
  assert (HXcol : 0 <= X / scale < width img).
  { split; [apply Z.div_pos; lia |].
    apply Z.div_lt_upper_bound; [lia |]. unfold W in HX. lia. }
  enough (HP : P result) by apply HP.
  unfold result.
  apply (nest_establish I P wr) with
    (row0 := Y / scale) (col0 := X / scale)
    (y0 := Y mod scale) (x0 := X mod scale) (i0 := i);
    try assumption.
  - (* no write destroys the byte *)
    intros row col y x i' s Hrow Hcol Hy Hx Hi' [HIs HPs].
    split; [apply HI; assumption |].
    destruct HIs as (Hsw & Hsh & Hsl).
    unfold wr, set_data. cbn [data]. rewrite Hsw.
    destruct (Z.eq_dec
                (((row * scale + y) * W + (col * scale + x)) * 4 + i')
                ((Y * W + X) * 4 + i)) as [Heq | Hne].
    + rewrite Heq, byte_at_put_same.
      2:{ rewrite Hsl. unfold W, H in *. nia. }
      rewrite clamp8_byte by (apply byte_at_byte; exact Hbytes).
      assert (i' = i /\ (row * scale + y) * W + (col * scale + x)
                          = Y * W + X) as [-> Hcell] by lia.
      apply cell_inj in Hcell as [Hc Hr]; [| unfold W; nia | lia].
      assert (col = X / scale) as ->
        by (apply Z.div_unique with x; lia).
      assert (row = Y / scale) as ->
        by (apply Z.div_unique with y; lia).
      reflexivity.
    + rewrite byte_at_put_other by exact Hne. exact HPs.
  - (* the write that sets it *)
    intros s HIs. split; [apply HI; assumption |].
    destruct HIs as (Hsw & Hsh & Hsl).
    unfold wr, set_data. cbn [data]. rewrite Hsw.
    replace (((Y / scale * scale + Y mod scale) * W
              + (X / scale * scale + X mod scale)) * 4 + i)
      with ((Y * W + X) * 4 + i) by lia.
    rewrite byte_at_put_same.
    2:{ rewrite Hsl. unfold W, H in *. nia. }
    apply clamp8_byte, byte_at_byte, Hbytes.
Qed.

Lemma scaleImageData_blocks_witness :
  exists scaled,
    scaleImageData two_pixels 2 = Some scaled /\
    width scaled = 4 /\ height scaled = 2 /\
    byte_at (data scaled) ((1 * width scaled + 3) * 4 + 0) = 40.
Proof.
  destruct (scaleImageData_blocks two_pixels 2)
    as (scaled & Hrun & Hw & Hh & _ & Hpix).
  - cbn. lia.
  - cbn. lia.
  - lia.
  - unfold two_pixels, byte. cbn [data]. repeat constructor; lia.
  - cbn in Hw, Hh. exists scaled. split; [exact Hrun |].
    split; [exact Hw |]. split; [exact Hh |].
    rewrite Hpix by lia. reflexivity.
Defined.

(** *** [reverseUint32] and [getIsLittleEndian] *)

Lemma length_Uint8_set buf i v : length (Uint8_set buf i v) = length buf.
Proof.
  unfold Uint8_set. destruct (_ && _); [apply length_insert | reflexivity].
Qed.

Lemma Uint8_get_set buf i v j :
  Uint8_get (Uint8_set buf i v) j =
  if (i =? j) && (0 <=? i) && (i <? Z.of_nat (length buf))
  then v mod 256 else Uint8_get buf j.
Proof.
  unfold Uint8_get, Uint8_set, byte_at.
  destruct (Z.eqb_spec i j) as [-> | Hij]; cbn [andb].
  - destruct (Z.leb_spec 0 j), (Z.ltb_spec j (Z.of_nat (length buf)));
      cbn [andb]; try reflexivity.
    destruct (Z.ltb_spec j 0); [lia |].
    rewrite list_lookup_insert_eq by lia. reflexivity.
  - destruct ((0 <=? i) && (i <? Z.of_nat (length buf))) eqn:Hin;
      [| reflexivity].
    destruct (Z.ltb_spec j 0); [reflexivity |].
    rewrite list_lookup_insert_ne by lia. reflexivity.
Qed.

(** The four bytes of a 32-bit number. *)
Lemma bytes32 v :
  0 <= v < 2 ^ 32 ->
  v = v mod 256 + 2 ^ 8 * (v / 2 ^ 8 mod 256) + 2 ^ 16 * (v / 2 ^ 16 mod 256)
      + 2 ^ 24 * (v / 2 ^ 24 mod 256).
Proof.
  intros Hv.
  pose proof (Z.div_mod v 256 ltac:(lia)) as H0.
  pose proof (Z.div_mod (v / 2 ^ 8) 256 ltac:(lia)) as H1.
  pose proof (Z.div_mod (v / 2 ^ 16) 256 ltac:(lia)) as H2.
  assert (E16 : v / 2 ^ 8 / 256 = v / 2 ^ 16)
    by (rewrite Z.div_div by lia; reflexivity).
  assert (E24 : v / 2 ^ 16 / 256 = v / 2 ^ 24)
    by (rewrite Z.div_div by lia; reflexivity).
  assert (v / 2 ^ 24 mod 256 = v / 2 ^ 24).
  { apply Z.mod_small. split; [apply Z.div_pos; lia |].
    apply Z.div_lt_upper_bound; lia. }
  change (2 ^ 8) with 256 in *. lia.
Qed.

Lemma compose32 b0 b1 b2 b3 :
  byte b0 -> byte b1 -> byte b2 -> byte b3 ->
  let v := b0 + 2 ^ 8 * b1 + 2 ^ 16 * b2 + 2 ^ 24 * b3 in
  0 <= v < 2 ^ 32 /\ v mod 256 = b0 /\ v / 2 ^ 8 mod 256 = b1 /\
  v / 2 ^ 16 mod 256 = b2 /\ v / 2 ^ 24 mod 256 = b3.
Proof.
  intros H0 H1 H2 H3 v. unfold byte in *.
  assert (E8 : v / 2 ^ 8 = b1 + 2 ^ 8 * b2 + 2 ^ 16 * b3)
    by (symmetry; apply Z.div_unique with b0; unfold v; lia).
  assert (E16 : v / 2 ^ 16 = b2 + 2 ^ 8 * b3)
    by (symmetry; apply Z.div_unique with (b0 + 2 ^ 8 * b1); unfold v; lia).
  assert (E24 : v / 2 ^ 24 = b3)
    by (symmetry;
        apply Z.div_unique with (b0 + 2 ^ 8 * b1 + 2 ^ 16 * b2);
        unfold v; lia).
  rewrite E8, E16, E24.
  split; [unfold v; lia |].
  repeat split; symmetry.
  - apply Z.mod_unique with (b1 + 2 ^ 8 * b2 + 2 ^ 16 * b3); unfold v; lia.
  - apply Z.mod_unique with (b2 + 2 ^ 8 * b3); lia.
  - apply Z.mod_unique with b3; lia.
  - apply Z.mod_unique with 0; lia.
Qed.

(** The number that [reverseUint32] returns, whatever the byte order. *)
Lemma reverseUint32_value littleEndian x :
  let v := x mod 2 ^ 32 in
  reverseUint32 littleEndian x =
  v / 2 ^ 24 mod 256 + 2 ^ 8 * (v / 2 ^ 16 mod 256)
  + 2 ^ 16 * (v / 2 ^ 8 mod 256) + 2 ^ 24 * (v mod 256).
Proof.
  intros v. unfold reverseUint32, Uint32_set, bytes_of_Uint32, Uint32_get.
  fold v.
  change (v / 2 ^ (8 * 0)) with (v / 1). rewrite Z.div_1_r.
  change (8 * 1) with 8. change (8 * 2) with 16. change (8 * 3) with 24.
  generalize (v mod 256) (v / 2 ^ 8 mod 256) (v / 2 ^ 16 mod 256)
             (v / 2 ^ 24 mod 256) (Z.mod_pos_bound v 256 ltac:(lia))
             (Z.mod_pos_bound (v / 2 ^ 8) 256 ltac:(lia))
             (Z.mod_pos_bound (v / 2 ^ 16) 256 ltac:(lia))
             (Z.mod_pos_bound (v / 2 ^ 24) 256 ltac:(lia)).
  intros b0 b1 b2 b3 H0 H1 H2 H3.
  change (4 * 0 + 0) with 0. change (4 * 0 + 1) with 1.
  change (4 * 0 + 2) with 2. change (4 * 0 + 3) with 3.
  change (4 * 0) with 0.
  destruct littleEndian;
    rewrite !Uint8_get_set, !length_Uint8_set;
    change (Z.of_nat (length (new_ArrayBuffer 16))) with 16;
    cbn [Z.eqb Pos.eqb Z.leb Z.ltb Z.compare Pos.compare
         Pos.compare_cont andb];
    rewrite !(Z.mod_small b0 256), !(Z.mod_small b1 256),
            !(Z.mod_small b2 256), !(Z.mod_small b3 256) by lia;
    reflexivity.
Qed.

(** X4.  [reverseUint32] reverses the four bytes of a 32-bit number: of
    the number reduced modulo [2^32], as the [Uint32Array] stores it, the
    highest byte becomes the lowest, the second highest the second lowest,
    and so on.  The result is the same on a little-endian and on a
    big-endian platform, and reversing twice gives the (reduced) number
    back. *)
Theorem reverseUint32_involutive (littleEndian : bool) (x : Z) :
  let v := x mod 2 ^ 32 in
  reverseUint32 littleEndian x =
    v / 2 ^ 24 mod 256 + 2 ^ 8 * (v / 2 ^ 16 mod 256)
    + 2 ^ 16 * (v / 2 ^ 8 mod 256) + 2 ^ 24 * (v mod 256) /\
  reverseUint32 littleEndian x = reverseUint32 (negb littleEndian) x /\
  reverseUint32 littleEndian (reverseUint32 littleEndian x) = v.
Proof.
  intros v0. split; [apply reverseUint32_value |]. subst v0.
  split; [rewrite !reverseUint32_value; reflexivity |].
  rewrite (reverseUint32_value littleEndian x). cbv zeta.
  set (v := x mod 2 ^ 32).
  assert (Hv : 0 <= v < 2 ^ 32) by (apply Z.mod_pos_bound; lia).
  destruct (compose32 (v / 2 ^ 24 mod 256) (v / 2 ^ 16 mod 256)
                      (v / 2 ^ 8 mod 256) (v mod 256))
    as (Hr & E0 & E1 & E2 & E3);
    try (unfold byte;
         match goal with
         | |- 0 <= ?a mod 256 <= 255 =>
             pose proof (Z.mod_pos_bound a 256 ltac:(lia)); lia
         end).
  rewrite reverseUint32_value. cbv zeta.
  rewrite (Z.mod_small _ (2 ^ 32)) by exact Hr.
  rewrite E0, E1, E2, E3. symmetry. rewrite (bytes32 v Hv) at 1. lia.
Qed.

(** The bytes 11, 22, 33, 44 (hexadecimal) come back as 44, 33, 22, 11. *)
Example reverseUint32_bytes :
  reverseUint32 true 0x11223344 = 0x44332211 /\
  reverseUint32 false 0x11223344 = 0x44332211.
Proof. split; vm_compute; reflexivity. Qed.

(** X5.  [getIsLittleEndian] answers the byte order of the platform: on
    its first call ([isLittleEndian] still [true]) it returns [true] on a
    little-endian platform and [false] on a big-endian one, and once it has
    answered [false] it keeps doing so. *)
Theorem getIsLittleEndian_detects (littleEndian isLittleEndian : bool) :
  getIsLittleEndian littleEndian isLittleEndian
  = isLittleEndian && littleEndian.
Proof. destruct littleEndian, isLittleEndian; vm_compute; reflexivity. Qed.

(** *** [hexToRgb] *)

Lemma hex_digit_range c d : hex_digit c = Some d -> 0 <= d <= 15.
Proof.
  unfold hex_digit.
  repeat match goal with
         | |- context [if ?b then _ else _] => destruct b eqn:?
         end; intros [= <-]; lia.
Qed.

Lemma parseInt16_byte c1 c2 v : parseInt16 c1 c2 = Some v -> byte v.
Proof.
  unfold parseInt16.
  destruct (hex_digit c1) as [d1 |] eqn:H1; [| discriminate].
  destruct (hex_digit c2) as [d2 |] eqn:H2; [| discriminate].
  intros [= <-]. apply hex_digit_range in H1, H2. unfold byte. lia.
Qed.

(** X6.  Whenever [hexToRgb] returns a colour, its three channels are
    bytes, and the string had six characters, or seven when it began with
    [#]; every other string, the three-digit shorthand among them, gives
    [null]. *)
Theorem hexToRgb_bytes (hex : string) (c : RGB) :
  hexToRgb hex = Some c ->
  byte (red c) /\ byte (green c) /\ byte (blue c) /\
  (String.length hex = 6%nat \/
   String.length hex = 7%nat /\ String.get 0 hex = Some "#"%char).
Proof.
  unfold hexToRgb.
  set (digits := match hex with
                 | String c rest => if (c =? "#")%char then rest else hex
                 | EmptyString => hex
                 end).
  assert (Hlen : String.length digits = 6%nat ->
                 String.length hex = 6%nat \/
                 String.length hex = 7%nat /\ String.get 0 hex = Some "#"%char).
  { unfold digits. destruct hex as [| c0 rest]; [auto |].
    destruct (Ascii.eqb_spec c0 "#") as [-> | _]; [| auto].
    intros Hr. right. cbn. split; [congruence | reflexivity]. }
  clearbody digits.
  destruct digits as [| c1 [| c2 [| c3 [| c4 [| c5 [| c6 [| c7 rest]]]]]]];
    try discriminate.
  destruct (parseInt16 c1 c2) as [r |] eqn:Hr; [| discriminate].
  destruct (parseInt16 c3 c4) as [g |] eqn:Hg; [| discriminate].
  destruct (parseInt16 c5 c6) as [b |] eqn:Hb; [| discriminate].
  intros [= <-]. cbn [red green blue].
  split; [eapply parseInt16_byte; exact Hr |].
  split; [eapply parseInt16_byte; exact Hg |].
  split; [eapply parseInt16_byte; exact Hb |].
  apply Hlen. reflexivity.
Qed.

Lemma hexToRgb_bytes_witness :
  hexToRgb "#db2727" = Some (mkRGB 219 39 39) /\ byte 219.
Proof.
  assert (Hrun : hexToRgb "#db2727" = Some (mkRGB 219 39 39))
    by (vm_compute; reflexivity).
  split; [exact Hrun |].
  exact (proj1 (hexToRgb_bytes "#db2727" (mkRGB 219 39 39) Hrun)).
Defined.

(** *** The undo queue *)

Section UndoFacts.

Context {Img : Type}.

Lemma length_pushToUndoQueue (imageData : Img) (q : UndoQueue Img) :
  (length q <= 6 -> length (pushToUndoQueue imageData q) <= 6)%nat.
Proof.
  intros Hq. unfold pushToUndoQueue.
  destruct (Nat.leb_spec 6 (length q)); cbn [length]; [| lia].
  destruct q; cbn [tail length] in *; lia.
Qed.

Lemma pushes_short (imgs : list Img) :
  (length imgs <= 6)%nat ->
  fold_left (fun q img => pushToUndoQueue img q) imgs [] = rev imgs.
Proof.
  induction imgs as [| x l IH] using rev_ind; [reflexivity |].
  rewrite length_app. cbn [length]. intros Hlen.
  rewrite fold_left_app, rev_unit. cbn [fold_left].
  rewrite IH by lia. unfold pushToUndoQueue. rewrite length_rev.
  destruct (Nat.leb_spec 6 (length l)); [lia | reflexivity].
Qed.

(** X7.  The undo queue never holds more than six snapshots, whatever
    sequence of [pushToUndoQueue] and [undo] calls is made on a new
    component. *)
Theorem undoImageQueue_bounded (imageData : option Img)
    (ops : list (UndoOp Img)) :
  (length (snd (fold_left undo_step ops (imageData, []))) <= 6)%nat.
Proof.
  assert (Hgen : forall st : option Img * UndoQueue Img,
            (length (snd st) <= 6)%nat ->
            (length (snd (fold_left undo_step ops st)) <= 6)%nat).
  { induction ops as [| op ops IH]; intros st Hst; [exact Hst |].
    cbn [fold_left]. apply IH.
    destruct op as [img |]; cbn [undo_step snd].
    - apply length_pushToUndoQueue. exact Hst.
    - unfold undo. destruct st as [i [| top rest]]; cbn [snd length] in *;
        lia. }
  apply Hgen. cbn. lia.
Qed.

(** X8.  Once six snapshots are queued, every further [pushToUndoQueue]
    replaces the newest one: after the snapshots [imgs] (six or more) have
    been pushed on an empty queue, the queue holds the last of them on top
    of the first five, and the snapshots in between are lost. *)
Theorem undoImageQueue_keeps_oldest (imgs : list Img) (newest : Img) :
  (6 <= length imgs)%nat ->
  last imgs = Some newest ->
  fold_left (fun q img => pushToUndoQueue img q) imgs []
  = newest :: rev (take 5 imgs).
Proof.
  revert newest.
  induction imgs as [| x l IH] using rev_ind; intros newest;
    [discriminate |].
  rewrite length_app, last_snoc. cbn [length]. intros Hlen [= <-].
  rewrite fold_left_app. cbn [fold_left].
  rewrite take_app_le by lia.
  destruct (decide (length l = 5%nat)) as [H5 | H5].
  - rewrite pushes_short by lia. unfold pushToUndoQueue.
    rewrite length_rev, H5. cbn [Nat.leb].
    rewrite take_ge by lia. reflexivity.
  - destruct (last l) as [y |] eqn:Hlast.
    2:{ apply last_None in Hlast. subst l. cbn in Hlen. lia. }
    rewrite (IH y ltac:(lia) eq_refl). unfold pushToUndoQueue.
    cbn [length]. rewrite length_rev, length_take.
    replace (5 `min` length l)%nat with 5%nat by lia. reflexivity.
Qed.

End UndoFacts.

Lemma undoImageQueue_keeps_oldest_witness :
  fold_left (fun q img => pushToUndoQueue img q)
            [1; 2; 3; 4; 5; 6; 7; 8]%nat []
  = [8; 5; 4; 3; 2; 1]%nat.
Proof.
  apply (undoImageQueue_keeps_oldest [1; 2; 3; 4; 5; 6; 7; 8]%nat 8%nat).
  - cbn. lia.
  - reflexivity.
Defined.

End RasterFacts.

(** ** More facts about [CanvasDraw.floodFill] *)

Module FillFacts.
Import Pixels PixelFacts.

(** X18.  Filling twice is filling once: after [floodFill] has returned,
    the same call on its result returns at once (on any fuel) and changes
    nothing, because the seed pixel already holds the fill colour.  The
    result is a well-formed buffer of the same size. *)
Theorem floodFill_idempotent pd sx sy F :
  wf pd -> inb pd sx sy -> color32 F ->
  exists pd',
    (forall fuel, (enough_fuel pd <= fuel)%nat ->
                  floodFill fuel pd sx sy F = Some pd') /\
    (forall fuel, floodFill fuel pd' sx sy F = Some pd') /\
    wf pd' /\ width pd' = width pd /\ height pd' = height pd.
Proof.
  intros Hwf Hin HF.
  destruct (getPixel_inb_color _ _ _ Hwf Hin) as (S & Hseed & HS).
  assert (Hsame : forall p fuel,
            getPixel p sx sy = Some F -> floodFill fuel p sx sy F = Some p).
  { intros p fuel Hp. unfold floodFill. rewrite Hp.
    destruct (decide (Some F <> Some F)) as [Hn | _]; [contradiction |].
    reflexivity. }
  destruct (decide (F = S)) as [-> | HFS].
  - exists pd. split; [intros fuel _; apply Hsame, Hseed |].
    split; [intros fuel; apply Hsame, Hseed | auto].
  - destruct (floodFill_total pd sx sy S F Hwf Hseed HS HF HFS)
      as (pd' & Hrun & Hfin).
    exists pd'. split; [exact Hrun |].
    split; [| destruct Hfin; auto].
    intros fuel. apply Hsame.
    apply (fill_inv_done_region pd S F (sx, sy) pd' Hfin (sx, sy)).
    apply region_seed. exact Hseed.
Qed.

Lemma floodFill_idempotent_witness :
  exists pd',
    floodFill 17 (mkPixelData 3 1 [white; white; black]) 0 0 red = Some pd' /\
    floodFill 0 pd' 0 0 red = Some pd'.
Proof.
  destruct (floodFill_idempotent
              (mkPixelData 3 1 [white; white; black]) 0 0 red)
    as (pd' & Hrun & Hagain & _).
  - exact wf_row_wwb.
  - unfold inb; simpl; lia.
  - unfold color32, red; lia.
  - exists pd'. split; [apply Hrun; unfold enough_fuel; simpl; lia |].
    apply Hagain.
Defined.

(** The loop runs once for every pixel on the stack and four times more
    for every pixel it recolours. *)
Lemma fill_loop_exact T F (HT : color32 T) (HF : color32 F) (HFT : F <> T)
    fuel : forall stack pd pd',
  wf pd ->
  fill_loop fuel (Some T) F stack pd = Some pd' ->
  (count_color T (data pd') <= count_color T (data pd))%nat /\
  forall n,
    fill_loop n (Some T) F stack pd =
    if (length stack
        + 4 * (count_color T (data pd) - count_color T (data pd')) <=? n)%nat
    then Some pd' else None.
Proof.
  induction fuel as [| fuel IH]; intros stack pd pd' Hwf Hrun.
  - destruct stack as [| [x y] rest]; [| discriminate].
    injection Hrun as <-. split; [lia |].
    intros n. rewrite Nat.sub_diag. cbn [length Nat.mul Nat.add Nat.leb].
    destruct n; reflexivity.
  - destruct stack as [| [x y] rest].
    { injection Hrun as <-. split; [lia |].
      intros n. rewrite Nat.sub_diag. cbn [length Nat.mul Nat.add Nat.leb].
      destruct n; reflexivity. }
    cbn [fill_loop] in Hrun. unfold loop_body in *.
    destruct (decide (getPixel pd x y = Some T)) as [Hg | Hg].
    + assert (Hin : inb pd x y).
      { eapply getPixel_color_inb; eassumption. }
      pose proof (count_color_setPixel pd x y T F Hwf Hin Hg) as Hc.
      rewrite Z.mod_small in Hc by exact HF. specialize (Hc HFT).
      destruct (IH _ _ _ (wf_setPixel pd x y F Hwf) Hrun) as [Hle Hall].
      split; [lia |].
      intros [| n].
      * cbn [fill_loop length].
        destruct (Nat.leb_spec
                    (S (length rest)
                     + 4 * (count_color T (data pd)
                            - count_color T (data pd'))) 0); [lia |].
        reflexivity.
      * cbn [fill_loop]. unfold loop_body.
        destruct (decide (getPixel pd x y = Some T)); [| contradiction].
        rewrite Hall. cbn [length].
        destruct (Nat.leb_spec
                    (S (S (S (S (length rest))))
                     + 4 * (count_color T (data (setPixel pd x y F))
                            - count_color T (data pd'))) n),
                 (Nat.leb_spec
                    (S (length rest)
                     + 4 * (count_color T (data pd)
                            - count_color T (data pd'))) (S n));
          try reflexivity; lia.
    + destruct (IH _ _ _ Hwf Hrun) as [Hle Hall].
      split; [exact Hle |].
      intros [| n].
      * cbn [fill_loop length].
        destruct (Nat.leb_spec
                    (S (length rest)
                     + 4 * (count_color T (data pd)
                            - count_color T (data pd'))) 0); [lia |].
        reflexivity.
      * cbn [fill_loop]. unfold loop_body.
        destruct (decide (getPixel pd x y = Some T)); [contradiction |].
        rewrite Hall. cbn [length].
        destruct (Nat.leb_spec
                    (length rest
                     + 4 * (count_color T (data pd)
                            - count_color T (data pd'))) n),
                 (Nat.leb_spec
                    (S (length rest)
                     + 4 * (count_color T (data pd)
                            - count_color T (data pd'))) (S n));
          try reflexivity; lia.
Qed.

(** X19.  The cost of a fill: for a seed inside the buffer whose colour
    [S] differs from the fill colour, the loop of [floodFill] runs exactly
    [4 * k + 1] times, where [k] is the number of pixels that the fill
    recolours (the pixels of colour [S] that are gone afterwards): that
    much fuel lets the call return, and less does not. *)
Theorem floodFill_iterations pd sx sy S F :
  wf pd -> getPixel pd sx sy = Some S -> color32 S -> color32 F -> F <> S ->
  exists pd',
    (count_color S (data pd') <= count_color S (data pd))%nat /\
    forall fuel,
      floodFill fuel pd sx sy F =
      if (4 * (count_color S (data pd) - count_color S (data pd')) + 1
          <=? fuel)%nat
      then Some pd' else None.
Proof.
  intros Hwf Hseed HS HF HFS.
  destruct (floodFill_total pd sx sy S F Hwf Hseed HS HF HFS)
    as (pd' & Hrun & _).
  specialize (Hrun (enough_fuel pd) (le_n _)).
  unfold floodFill in *. rewrite Hseed in *.
  destruct (decide (Some S <> Some F)) as [_ | Hn];
    [| exfalso; apply Hn; congruence].
  destruct (fill_loop_exact S F HS HF HFS _ _ _ _ Hwf Hrun) as [Hle Hall].
  exists pd'. split; [exact Hle |].
  intros fuel. rewrite Hall. cbn [length].
  destruct (Nat.leb_spec
              (1 + 4 * (count_color S (data pd) - count_color S (data pd')))
              fuel),
           (Nat.leb_spec
              (4 * (count_color S (data pd) - count_color S (data pd')) + 1)
              fuel); try reflexivity; lia.
Qed.

Lemma floodFill_iterations_witness :
  exists pd',
    floodFill 9 (mkPixelData 3 1 [white; white; black]) 0 0 red = Some pd' /\
    floodFill 8 (mkPixelData 3 1 [white; white; black]) 0 0 red = None.
Proof.
  destruct (floodFill_iterations
              (mkPixelData 3 1 [white; white; black]) 0 0 white red)
    as (pd' & Hle & Hall).
  - exact wf_row_wwb.
  - reflexivity.
  - unfold color32, white; lia.
  - unfold color32, red; lia.
  - discriminate.
  - assert (Hpd' : pd' = mkPixelData 3 1 [red; red; black]).
    { specialize (Hall 17%nat).
      destruct (_ <=? 17)%nat eqn:E in Hall.
      - vm_compute in Hall. injection Hall as <-. reflexivity.
      - apply Nat.leb_gt in E.
        pose proof (count_color_le white
                      (data (mkPixelData 3 1 [white; white; black]))).
        cbn [data length] in *. lia. }
    subst pd'. exists (mkPixelData 3 1 [red; red; black]).
    split; [rewrite Hall | rewrite Hall]; vm_compute; reflexivity.
Defined.

End FillFacts.

(** ** Facts about the whole of [FloodFill.fill] *)

Module SpanTotalFacts.
Import SpanFill SpanFacts SpanTotal.

Lemma filter_count_le {A : Type} (f g : A -> bool) l :
  (forall p, In p l -> f p = true -> g p = true) ->
  (length (List.filter f l) <= length (List.filter g l))%nat.
Proof.
  induction l as [| p l IH]; intros Hfg; [reflexivity |].
  cbn [List.filter].
  assert (IH' : (length (List.filter f l) <= length (List.filter g l))%nat).
  { apply IH. intros q Hq. apply Hfg. right. exact Hq. }
  destruct (f p) eqn:Hf.
  - rewrite (Hfg p (or_introl eq_refl) Hf). cbn [length]. lia.
  - destruct (g p); cbn [length]; lia.
Qed.

Lemma filter_count_lt {A : Type} (f g : A -> bool) l p0 :
  (forall p, In p l -> f p = true -> g p = true) ->
  In p0 l -> g p0 = true -> f p0 = false ->
  (length (List.filter f l) < length (List.filter g l))%nat.
Proof.
  induction l as [| p l IH]; intros Hfg Hin Hg Hf; [destruct Hin |].
  cbn [List.filter].
  assert (Hle : (length (List.filter f l) <= length (List.filter g l))%nat).
  { apply filter_count_le. intros q Hq. apply Hfg. right. exact Hq. }
  destruct Hin as [-> | Hin].
  - rewrite Hf, Hg. cbn [length]. lia.
  - assert (IH' : (length (List.filter f l) < length (List.filter g l))%nat).
    { apply IH; try assumption. intros q Hq. apply Hfg. right. exact Hq. }
    destruct (f p) eqn:Hfp.
    + rewrite (Hfg p (or_introl eq_refl) Hfp). cbn [length]. lia.
    + destruct (g p); cbn [length]; lia.
Qed.

Section Total.

Context {Img Color : Type} `{ImageOps Img Color}.

Variable good : Img -> Prop.
Variable newColor : Color.
Hypothesis good_set : forall img c x y,
  good img -> good (setColorAtPixel img c x y).
Hypothesis set_width : forall img c x y,
  img_width (setColorAtPixel img c x y) = img_width img.
Hypothesis set_height : forall img c x y,
  img_height (setColorAtPixel img c x y) = img_height img.
Hypothesis get_set_same : forall img x y,
  good img -> in_image img x y ->
  getColorAtPixel (setColorAtPixel img newColor x y) x y = newColor.
Hypothesis get_set_other : forall img c x y x' y',
  good img -> in_image img x y -> in_image img x' y' -> (x', y') <> (x, y) ->
  getColorAtPixel (setColorAtPixel img c x y) x' y' = getColorAtPixel img x' y'.

Variables (orig : Img) (replaced : Color) (tolerance : Z).
Hypothesis different : isSameColor replaced newColor tolerance = false.
Hypothesis width_int32 : img_width orig < 2 ^ 31.
Hypothesis height_int32 : img_height orig < 2 ^ 31.

Local Abbreviation filling_ := (filling good orig replaced newColor tolerance).
Local Abbreviation painted_stays_ := (painted_stays orig newColor).

Lemma in_coords (img : Img) a b : In (a, b) (coords img) <-> in_image img a b.
Proof.
  unfold coords, in_image. rewrite in_prod_iff.
  rewrite <- !list_elem_of_In, !elem_of_seqZ. lia.
Qed.

Lemma length_coords (img : Img) :
  length (coords img)
  = (Z.to_nat (img_width img) * Z.to_nat (img_height img))%nat.
Proof. unfold coords. rewrite length_prod, !length_seqZ. reflexivity. Qed.

Lemma valid_count_le this :
  (valid_count this
   <= Z.to_nat (img_width (imageData this))
      * Z.to_nat (img_height (imageData this)))%nat.
Proof.
  unfold valid_count. rewrite <- length_coords. apply List.filter_length_le.
Qed.

Lemma valid_count_ext (this this' : FloodFill Img Color) :
  imageData this' = imageData this ->
  _replacedColor this' = _replacedColor this ->
  _tolerance this' = _tolerance this ->
  valid_count this' = valid_count this.
Proof.
  intros Hi Hr Ht. unfold valid_count, isValidTarget.
  rewrite Hi, Hr, Ht. reflexivity.
Qed.

Lemma in_image_orig this a b :
  filling_ this -> in_image (imageData this) a b <-> in_image orig a b.
Proof.
  intros Hf. unfold in_image.
  rewrite (fl_width _ _ _ _ _ _ Hf), (fl_height _ _ _ _ _ _ Hf). reflexivity.
Qed.

Lemma painted_stays_refl this : painted_stays_ this this.
Proof. intros a b _ Hc. exact Hc. Qed.

Lemma painted_stays_trans t1 t2 t3 :
  painted_stays_ t1 t2 -> painted_stays_ t2 t3 -> painted_stays_ t1 t3.
Proof. intros H12 H23 a b Hin Hc. apply H23, H12; assumption. Qed.

(** A span painted by [fillLineAt]. *)
Lemma paint_span this x y this1 minX maxX :
  filling_ this -> in_image orig x y ->
  isValidTarget this (Some (x, y)) = true ->
  span_post good this x y this1 minX maxX ->
  filling_ this1 /\ (valid_count this1 < valid_count this)%nat /\
  painted_stays_ this this1 /\
  getColorAtPixel (imageData this1) x y = newColor /\
  _queue this1 = _queue this.
Proof.
  intros Hf Hin Hvalid
    (Hmin & Hmax & Hsame & Hspan & _ & _ & Hframe).
  pose proof Hsame as (Ht & Hr & Hn & Hq & Hw & Hh & Hg).
  destruct Hf as [Ft Fr Fn Fw Fh Fg Fpix Fqueue].
  assert (Hcases : forall a b, in_image orig a b ->
            (b = y /\ minX <= a <= maxX /\
             getColorAtPixel (imageData this1) a b = newColor /\
             isValidTarget this (Some (a, b)) = true) \/
            (~ (b = y /\ minX <= a <= maxX) /\
             getColorAtPixel (imageData this1) a b
             = getColorAtPixel (imageData this) a b)).
  { intros a b Hab.
    destruct (decide (b = y /\ minX <= a <= maxX)) as [[-> Ha] | Hout].
    - left. destruct (Hspan a Ha) as [Hv Hc].
      repeat split; try lia; [congruence | exact Hv].
    - right. split; [exact Hout |]. apply Hframe; [| exact Hout].
      unfold in_image. rewrite Fw, Fh. exact Hab. }
  split; [| split; [| split; [| split]]].
  - constructor; try congruence.
    + intros a b Hab.
      destruct (Hcases a b Hab) as [(-> & Ha & Hc & Hv) | (Hout & Hc)].
      * right. split; [exact Hc |].
        unfold isValidTarget in Hv. rewrite Fr, Ft in Hv.
        destruct (Fpix a y Hab) as [He | [He Hv0]]; [| exact Hv0].
        rewrite <- He. exact Hv.
      * rewrite Hc. apply Fpix. exact Hab.
    + intros s e y' p Hl. rewrite Hq in Hl. eapply Fqueue. exact Hl.
  - unfold valid_count.
    assert (Hcoords : coords (imageData this1) = coords (imageData this))
      by (unfold coords; rewrite Hw, Hh; reflexivity).
    rewrite Hcoords. apply filter_count_lt with (p0 := (x, y)).
    + intros [a b] Hab Hv1. apply in_coords in Hab.
      unfold in_image in Hab. rewrite Fw, Fh in Hab.
      destruct (Hcases a b Hab) as [(-> & Ha & Hc & Hv) | (Hout & Hc)].
      * exact Hv.
      * unfold isValidTarget in *. rewrite Ht, Hr, Hc in Hv1. exact Hv1.
    + apply in_coords. unfold in_image. rewrite Fw, Fh. exact Hin.
    + exact Hvalid.
    + destruct (Hcases x y Hin) as [(_ & Ha & Hc & Hv) | (Hout & Hc)].
      * unfold isValidTarget. rewrite Ht, Hr, Hc, Fr, Ft. exact different.
      * exfalso. apply Hout. split; [reflexivity | lia].
  - intros a b Hab Hc.
    destruct (Hcases a b Hab) as [(_ & _ & Hc1 & _) | (_ & Hc1)];
      congruence.
  - destruct (Hcases x y Hin) as [(_ & _ & Hc & _) | (Hout & _)];
      [exact Hc |].
    exfalso. apply Hout. split; [reflexivity | lia].
  - exact Hq.
Qed.

(** What [enqueue_rows] adds: at most two lines, on rows inside the
    image. *)
Lemma enqueue_rows_spec this start end_ y parentY lineStart lineEnd :
  0 <= y < img_height (imageData this) ->
  let this' := enqueue_rows this start end_ y parentY lineStart lineEnd in
  imageData this' = imageData this /\
  _tolerance this' = _tolerance this /\
  _replacedColor this' = _replacedColor this /\
  _newColor this' = _newColor this /\
  exists new,
    _queue this' = new ++ _queue this /\ (length new <= 2)%nat /\
    (lineStart = -1 -> new = []) /\
    forall l, In l new ->
      exists y', l = (lineStart, lineEnd, y', y) /\
                 0 <= y' < img_height (imageData this).
Proof.
  intros Hy. cbv zeta. unfold enqueue_rows, addToQueue.
  destruct (Z.eqb_spec lineStart (-1)) as [Hls | Hls]; cbn [negb].
  { repeat split. exists []. repeat split; auto. intros l []. }
  destruct ((lineStart >=? start) && (lineEnd <=? end_)
            && negb (parentY =? -1)).
  - destruct ((parentY <? y) && (y + 1 <? img_height (imageData this)))
      eqn:E1; cbn [imageData _queue _tolerance _replacedColor _newColor];
      destruct ((parentY >? y) && (y >? 0)) eqn:E2;
      cbn [imageData _queue _tolerance _replacedColor _newColor];
      repeat split;
      [ exists [(lineStart, lineEnd, y - 1, y); (lineStart, lineEnd, y + 1, y)]
      | exists [(lineStart, lineEnd, y + 1, y)]
      | exists [(lineStart, lineEnd, y - 1, y)]
      | exists [] ];
      (split; [reflexivity |]); (split; [cbn; lia |]);
      (split; [intros; contradiction |]);
      intros l Hl; cbn [In] in Hl;
      repeat match goal with
             | H : _ \/ _ |- _ => destruct H as [<- | H]
             | H : False |- _ => destruct H
             end;
      eexists; (split; [reflexivity | lia]).
  - destruct (y >? 0) eqn:E1;
      cbn [imageData _queue _tolerance _replacedColor _newColor];
      destruct (y + 1 <? img_height (imageData this)) eqn:E2;
      cbn [imageData _queue _tolerance _replacedColor _newColor];
      repeat split;
      [ exists [(lineStart, lineEnd, y + 1, y); (lineStart, lineEnd, y - 1, y)]
      | exists [(lineStart, lineEnd, y - 1, y)]
      | exists [(lineStart, lineEnd, y + 1, y)]
      | exists [] ];
      (split; [reflexivity |]); (split; [cbn; lia |]);
      (split; [intros; contradiction |]);
      intros l Hl; cbn [In] in Hl;
      repeat match goal with
             | H : _ \/ _ |- _ => destruct H as [<- | H]
             | H : False |- _ => destruct H
             end;
      eexists; (split; [reflexivity | lia]).
Qed.

Lemma line_loop_done fuel (this : FloodFill Img Color)
    start end_ y parentY currX :
  0 <= currX -> end_ < currX ->
  line_loop fuel this start end_ y parentY currX = Some this.
Proof.
  intros H0 Hgt.
  destruct fuel; cbn [line_loop];
    replace (negb (currX =? -1) && (currX <=? end_)) with false by lia;
    reflexivity.
Qed.

(** The inner loop of [fillQueue] on a line inside the image. *)
Lemma line_loop_total start end_ y parentY :
  0 <= y < img_height orig -> end_ < img_width orig ->
  forall n fuel this currX,
    filling_ this -> 0 <= currX ->
    (Z.to_nat (end_ + 1 - currX) <= n)%nat ->
    (n + Z.to_nat (img_width orig) + 1 <= fuel)%nat ->
    exists this',
      line_loop fuel this start end_ y parentY currX = Some this' /\
      filling_ this' /\ (measure this' <= measure this)%nat /\
      painted_stays_ this this' /\
      (currX <= end_ -> isValidTarget this (Some (currX, y)) = true ->
       getColorAtPixel (imageData this') currX y = newColor).
Proof.
  intros Hy He.
  induction n as [| n IH]; intros fuel this currX Hf H0 Hn Hfuel.
  { exists this. rewrite line_loop_done by lia.
    split; [reflexivity |]. split; [exact Hf |]. split; [lia |].
    split; [apply painted_stays_refl |]. intros Hc. lia. }
  destruct (Z.lt_ge_cases end_ currX) as [Hgt | Hle].
  { exists this. rewrite line_loop_done by lia.
    split; [reflexivity |]. split; [exact Hf |]. split; [lia |].
    split; [apply painted_stays_refl |]. intros Hc. lia. }
  destruct fuel as [| fuel]; [lia |].
  cbn [line_loop].
  replace (negb (currX =? -1) && (currX <=? end_)) with true by lia.
  pose proof Hf as [Ft Fr Fn Fw Fh Fg Fpix Fqueue].
  assert (Hin : in_image orig currX y) by (unfold in_image; lia).
  destruct (isValidTarget this (Some (currX, y))) eqn:Hvalid.
  - destruct (fillLineAt_span good newColor good_set set_width set_height
                get_set_same get_set_other fuel this currX y)
      as (this1 & minX & maxX & Hfill & Hpost);
      try assumption; try lia.
    { unfold in_image. rewrite Fw, Fh. exact Hin. }
    rewrite Hfill.
    destruct (paint_span this currX y this1 minX maxX Hf Hin Hvalid Hpost)
      as (Hf1 & Hcount & Hstays1 & Hcolor & Hq1).
    pose proof Hpost as ((Hmin0 & Hminx) & (Hmaxx & Hmaxw) & _).
    pose proof Hf1 as [Ft1 Fr1 Fn1 Fw1 Fh1 Fg1 Fpix1 Fqueue1].
    destruct (enqueue_rows_spec this1 start end_ y parentY minX maxX)
      as (Ei & Et & Er & En & new & Eq & Elen & _ & Enew);
      [rewrite Fh1; exact Hy |].
    set (this2 := enqueue_rows this1 start end_ y parentY minX maxX) in *.
    assert (Hf2 : filling_ this2).
    { constructor; try congruence.
      - rewrite Ei. exact Fpix1.
      - intros s e y' p Hl. rewrite Eq in Hl.
        apply in_app_iff in Hl as [Hl | Hl]; [| eapply Fqueue1; exact Hl].
        destruct (Enew _ Hl) as (y'' & [= -> -> -> ->] & Hy'').
        rewrite Fh1 in Hy''. rewrite Fw in Hmaxw. lia. }
    assert (Hm2 : (measure this2 <= measure this)%nat).
    { unfold measure. rewrite (valid_count_ext this1 this2) by congruence.
      rewrite Eq, length_app, Hq1. lia. }
    replace ((maxX =? -1) && (currX <=? end_)) with false by lia.
    destruct (IH fuel this2 (maxX + 1) Hf2) as (this' & Hrun & Hf' & Hm'
                                                 & Hstays' & _);
      try lia.
    exists this'. split; [exact Hrun |]. split; [exact Hf' |].
    split; [lia |].
    assert (Hstays2 : painted_stays_ this1 this').
    { intros a b Hab Hc. apply Hstays'; [exact Hab |].
      rewrite Ei. exact Hc. }
    split; [eapply painted_stays_trans; eassumption |].
    intros _ _. apply Hstays2; assumption.
  - assert (Hfill : fillLineAt fuel this currX y = Some (this, (-1, -1))).
    { unfold fillLineAt. rewrite Hvalid. reflexivity. }
    rewrite Hfill.
    assert (Henq : enqueue_rows this start end_ y parentY (-1) (-1) = this)
      by reflexivity.
    rewrite Henq.
    replace ((-1 =? -1) && (currX <=? end_)) with true by lia.
    destruct (IH fuel this (currX + 1) Hf) as (this' & Hrun & Hf' & Hm'
                                                & Hstays' & _);
      try lia.
    exists this'. split; [exact Hrun |]. split; [exact Hf' |].
    split; [exact Hm' |]. split; [exact Hstays' |]. discriminate.
Qed.

(** [fillQueue] empties the queue. *)
Lemma fillQueue_total : forall n fuel this,
  filling_ this -> (measure this <= n)%nat ->
  (n + 2 * Z.to_nat (img_width orig) + 2 <= fuel)%nat ->
  exists this',
    fillQueue fuel this = Some this' /\ filling_ this' /\
    _queue this' = [] /\ painted_stays_ this this' /\
    (forall start end_ y parentY rest,
       _queue this = (start, end_, y, parentY) :: rest ->
       start <= end_ -> isValidTarget this (Some (start, y)) = true ->
       getColorAtPixel (imageData this') start y = newColor).
Proof.
  induction n as [| n IH]; intros fuel this Hf Hm Hfuel;
    destruct (_queue this) as [| [[[start end_] y] parentY] rest] eqn:Hq;
    try (exists this; split;
         [destruct fuel; cbn [fillQueue]; unfold popFromQueue; rewrite Hq;
          reflexivity |];
         split; [exact Hf |]; split; [exact Hq |];
         split; [apply painted_stays_refl | discriminate]).
  { unfold measure in Hm. rewrite Hq in Hm. cbn [length] in Hm. lia. }
  destruct fuel as [| fuel]; [lia |].
  cbn [fillQueue]. unfold popFromQueue. rewrite Hq.
  set (popped := mkFloodFill (imageData this) (_tolerance this) rest
                             (_replacedColor this) (_newColor this)).
  pose proof Hf as [Ft Fr Fn Fw Fh Fg Fpix Fqueue].
  destruct (Fqueue start end_ y parentY) as (Hs0 & Hew & Hy);
    [rewrite Hq; left; reflexivity |].
  assert (Hfp : filling_ popped).
  { constructor; try assumption.
    intros s e y' p Hl. apply (Fqueue s e y' p). rewrite Hq. right. exact Hl. }
  assert (Hmp : (measure popped + 1 = measure this)%nat).
  { unfold measure. rewrite (valid_count_ext this popped) by reflexivity.
    rewrite Hq. cbn [_queue popped length]. lia. }
  destruct (line_loop_total start end_ y parentY Hy Hew
              (Z.to_nat (img_width orig)) fuel popped start Hfp Hs0)
    as (this1 & Hrun1 & Hf1 & Hm1 & Hstays1 & Hhead); try lia.
  rewrite Hrun1.
  destruct (IH fuel this1 Hf1) as (this' & Hrun & Hf' & Hq' & Hstays' & _);
    try lia.
  exists this'. split; [exact Hrun |]. split; [exact Hf' |].
  split; [exact Hq' |].
  assert (Hstays : painted_stays_ this this').
  { intros a b Hab Hc. apply Hstays', Hstays1; assumption. }
  split; [exact Hstays |].
  intros s e y' p r [= <- <- <- <- <-] Hle Hvalid.
  apply Hstays'; [unfold in_image; lia |].
  apply Hhead; assumption.
Qed.

(** *** The fill reaches every target that is joined to the seed *)

Section Spread.

Variables x0 y0 : Z.

Local Abbreviation target_ := (target orig replaced tolerance).
Local Abbreviation painted_ := (painted orig replaced newColor tolerance).
Local Abbreviation joined_ := (joined orig replaced tolerance x0 y0).
Local Abbreviation from_parent_ :=
  (from_parent orig replaced newColor tolerance x0 y0).
Local Abbreviation spreading_ :=
  (spreading orig replaced newColor tolerance x0 y0).

Lemma valid_target this a b :
  filling_ this -> in_image orig a b ->
  isValidTarget this (Some (a, b)) = true -> target_ a b.
Proof.
  intros [Ft Fr Fn Fw Fh Fg Fpix Fqueue] Hin Hv. split; [exact Hin |].
  unfold isValidTarget in Hv. rewrite Fr, Ft in Hv.
  destruct (Fpix a b Hin) as [He | [He Hv0]]; [| exact Hv0].
  rewrite <- He. exact Hv.
Qed.

Lemma target_cases this a b :
  filling_ this -> target_ a b ->
  isValidTarget this (Some (a, b)) = true \/ painted_ this a b.
Proof.
  intros [Ft Fr Fn Fw Fh Fg Fpix Fqueue] [Hin Hv].
  destruct (Fpix a b Hin) as [He | [He _]].
  - left. unfold isValidTarget. rewrite Fr, Ft, He. exact Hv.
  - right. split; [split; assumption | exact He].
Qed.

Lemma painted_later this this' a b :
  painted_stays_ this this' -> painted_ this a b -> painted_ this' a b.
Proof.
  intros Hs [[Hin Hv] Hc]. split; [split; assumption |].
  apply Hs; assumption.
Qed.

Lemma from_parent_later this this' line :
  painted_stays_ this this' ->
  from_parent_ this line -> from_parent_ this' line.
Proof.
  intros Hs. destruct line as [[[s e] row] p]. cbn.
  intros [Hseed | [Hp Hrow]]; [left; exact Hseed | right].
  split; [exact Hp |]. intros a Ha. eapply painted_later; eauto.
Qed.

(** A run of targets on one row is joined to the seed as soon as one of
    them is. *)
Lemma joined_along_row c y ls le :
  joined_ c y -> ls <= c <= le ->
  (forall i, ls <= i <= le -> target_ i y) ->
  forall i, ls <= i <= le -> joined_ i y.
Proof.
  intros Hc Hcin Ht.
  assert (Hright : forall n : nat,
            c + Z.of_nat n <= le -> joined_ (c + Z.of_nat n) y).
  { induction n as [| n IH]; intros Hn.
    - replace (c + Z.of_nat 0) with c by lia. exact Hc.
    - apply (joined_step _ _ _ _ _ (c + Z.of_nat n) y).
      + apply IH. lia.
      + left. split; [reflexivity | left; lia].
      + apply Ht. lia. }
  assert (Hleft : forall n : nat,
            ls <= c - Z.of_nat n -> joined_ (c - Z.of_nat n) y).
  { induction n as [| n IH]; intros Hn.
    - replace (c - Z.of_nat 0) with c by lia. exact Hc.
    - apply (joined_step _ _ _ _ _ (c - Z.of_nat n) y).
      + apply IH. lia.
      + left. split; [reflexivity | right; lia].
      + apply Ht. lia. }
  intros i Hi. destruct (Z.le_ge_cases c i).
  - replace i with (c + Z.of_nat (Z.to_nat (i - c))) by lia.
    apply Hright. lia.
  - replace i with (c - Z.of_nat (Z.to_nat (c - i))) by lia.
    apply Hleft. lia.
Qed.

(** The lines that [enqueue_rows] adds lie on the rows next to [y]. *)
Lemma enqueue_rows_new (this : FloodFill Img Color)
    start end_ y parentY lineStart lineEnd line :
  In line (_queue (enqueue_rows this start end_ y parentY lineStart lineEnd)) ->
  In line (_queue this) \/
  (lineStart <> -1 /\
   (line = (lineStart, lineEnd, y + 1, y) \/
    line = (lineStart, lineEnd, y - 1, y))).
Proof.
  unfold enqueue_rows, addToQueue.
  destruct (Z.eqb_spec lineStart (-1)) as [Hls | Hls]; cbn [negb];
    [intros Hl; left; exact Hl |].
  destruct ((lineStart >=? start) && (lineEnd <=? end_)
            && negb (parentY =? -1)).
  - destruct ((parentY <? y) && (y + 1 <? img_height (imageData this)));
      cbn [imageData _queue];
      destruct ((parentY >? y) && (y >? 0)); cbn [imageData _queue In];
      intuition auto.
  - destruct (y >? 0); cbn [imageData _queue];
      destruct (y + 1 <? img_height (imageData this)); cbn [imageData _queue In];
      intuition auto.
Qed.

(** [enqueue_rows] queues the rows above and below a painted span, but
    for the row of the parent when the span lies within the parent's. *)
Lemma enqueue_rows_covers (this : FloodFill Img Color)
    start end_ y parentY lineStart lineEnd b' :
  lineStart <> -1 -> b' = y + 1 \/ b' = y - 1 ->
  0 <= b' < img_height (imageData this) ->
  In (lineStart, lineEnd, b', y)
     (_queue (enqueue_rows this start end_ y parentY lineStart lineEnd)) \/
  (start <= lineStart /\ lineEnd <= end_ /\ parentY <> -1 /\
   ~ (parentY < y /\ b' = y + 1) /\ ~ (parentY > y /\ b' = y - 1)).
Proof.
  intros Hls Hb Hin. unfold enqueue_rows, addToQueue.
  destruct (Z.eqb_spec lineStart (-1)); [contradiction |]. cbn [negb].
  destruct ((lineStart >=? start) && (lineEnd <=? end_)
            && negb (parentY =? -1)) eqn:Hprune.
  - destruct ((parentY <? y) && (y + 1 <? img_height (imageData this)))
      eqn:E1; cbn [imageData _queue];
      destruct ((parentY >? y) && (y >? 0)) eqn:E2; cbn [imageData _queue];
      destruct Hb as [-> | ->];
      first [ left; first [left; reflexivity | right; left; reflexivity]
            | right; lia ].
  - destruct (y >? 0) eqn:E1; cbn [imageData _queue];
      destruct (y + 1 <? img_height (imageData this)) eqn:E2;
      cbn [imageData _queue];
      destruct Hb as [-> | ->];
      first [ left; first [left; reflexivity | right; left; reflexivity]
            | lia ].
Qed.

(** The line that [fillQueue] looks at is done. *)
Lemma spreading_done this currX end_ y parentY :
  end_ < currX ->
  spreading_ [(currX, end_, y, parentY)] this -> spreading_ [] this.
Proof.
  intros Hgt [Sj Sr Sq Sc]. constructor; try assumption.
  intros a b b' Hp Hb Ht.
  destruct (Sc a b b' Hp Hb Ht) as [Hp' | (s & e & p & Hl & Ha)];
    [left; exact Hp' | right].
  cbn [app In] in Hl. destruct Hl as [[= <- <- <- <-] | Hl]; [lia |].
  exists s, e, p. split; [exact Hl | exact Ha].
Qed.

(** [fillLineAt] found no target at [currX]. *)
Lemma spreading_skip this currX end_ y parentY :
  filling_ this -> isValidTarget this (Some (currX, y)) = false ->
  spreading_ [(currX, end_, y, parentY)] this ->
  spreading_ [(currX + 1, end_, y, parentY)] this.
Proof.
  intros Hf Hinv [Sj Sr Sq Sc]. constructor; try assumption.
  intros a b b' Hp Hb Ht.
  destruct (Sc a b b' Hp Hb Ht) as [Hp' | (s & e & p & Hl & Ha)];
    [left; exact Hp' |].
  cbn [app In] in Hl. destruct Hl as [[= <- <- <- <-] | Hl].
  - destruct (Z.eq_dec a currX) as [-> | Hne].
    + left. destruct (target_cases this currX y Hf Ht) as [Hv | Hp'];
        [congruence | exact Hp'].
    + right. exists (currX + 1), end_, parentY.
      split; [left; reflexivity | lia].
  - right. exists s, e, p. split; [right; exact Hl | exact Ha].
Qed.

(** [fillLineAt] painted the span from [ls] to [le] around [currX], and
    [enqueue_rows] queued its neighbours. *)
Lemma spreading_paint this this1 start end_ y parentY currX ls le :
  filling_ this -> filling_ this1 ->
  0 <= y < img_height orig -> start <= currX <= end_ ->
  isValidTarget this (Some (currX, y)) = true ->
  span_post good this currX y this1 ls le ->
  from_parent_ this (start, end_, y, parentY) ->
  spreading_ [(currX, end_, y, parentY)] this ->
  spreading_ [(le + 1, end_, y, parentY)]
             (enqueue_rows this1 start end_ y parentY ls le).
Proof.
  intros Hf Hf1 Hy Hcur Hvalid
    ((Hmin0 & Hminx) & (Hmaxx & Hmaxw) & Hsame & Hspan & Hleft & Hright
     & Hframe) Hparent [Sj Sr Sq Sc].
  pose proof Hsame as (Ht & Hr & Hn & Hq & Hw & Hh & Hg).
  pose proof Hf as [Ft Fr Fn Fw Fh Fg Fpix Fqueue].
  assert (Hstays : painted_stays_ this this1).
  { intros a b Hab Hc.
    destruct (decide (b = y /\ ls <= a <= le)) as [[-> Ha] | Hout].
    - destruct (Hspan a Ha) as [_ Hc1]. congruence.
    - rewrite Hframe; [exact Hc | | exact Hout].
      unfold in_image. rewrite Fw, Fh. exact Hab. }
  assert (Hin_span : forall i, ls <= i <= le -> painted_ this1 i y).
  { intros i Hi. destruct (Hspan i Hi) as [Hv Hc]. split; [| congruence].
    apply (valid_target this); [exact Hf | | exact Hv].
    unfold in_image. rewrite Fw in Hmaxw. lia. }
  assert (Hcases : forall a b, painted_ this1 a b ->
            painted_ this a b \/ (b = y /\ ls <= a <= le)).
  { intros a b [Htg Hc].
    destruct (decide (b = y /\ ls <= a <= le)) as [Hinside | Hout];
      [right; exact Hinside | left].
    split; [exact Htg |]. rewrite <- Hc. symmetry.
    apply Hframe; [| exact Hout].
    unfold in_image. rewrite Fw, Fh. exact (proj1 Htg). }
  assert (Hjoin : joined_ currX y).
  { assert (Htg : target_ currX y).
    { apply (valid_target this); [exact Hf | | exact Hvalid].
      unfold in_image. rewrite Fw in Hmaxw. lia. }
    cbn in Hparent. destruct Hparent as [(Hp & Hs & He & Hrow) | [Hp Hrow]].
    - assert (currX = x0) by lia. subst currX y. apply joined_seed. exact Htg.
    - apply (joined_step _ _ _ _ _ currX parentY).
      + apply Sj, Hrow. lia.
      + right. split; [reflexivity | lia].
      + exact Htg. }
  set (this2 := enqueue_rows this1 start end_ y parentY ls le).
  assert (Ei : imageData this2 = imageData this1).
  { apply (enqueue_rows_spec this1 start end_ y parentY ls le).
    rewrite (fl_height _ _ _ _ _ _ Hf1). exact Hy. }
  assert (Hp2 : forall a b, painted_ this2 a b <-> painted_ this1 a b).
  { intros a b. unfold painted. rewrite Ei. reflexivity. }
  constructor.
  - intros a b Hp. apply Hp2 in Hp.
    destruct (Hcases a b Hp) as [Hold | [-> Ha]]; [apply Sj; exact Hold |].
    apply (joined_along_row currX y ls le); try assumption; [lia |].
    intros i Hi. apply (Hin_span i Hi).
  - intros a b a' Hp Ha' Htg. apply Hp2. apply Hp2 in Hp.
    destruct (Hcases a b Hp) as [Hold | [-> Ha]].
    { eapply painted_later; [exact Hstays |]. eapply Sr; eassumption. }
    destruct (decide (ls <= a' <= le)) as [Hi | Ho]; [apply Hin_span; exact Hi |].
    eapply painted_later; [exact Hstays |].
    destruct (target_cases this a' y Hf Htg) as [Hv | Hp']; [| exact Hp'].
    exfalso. destruct Htg as [[Ha0 _] _]. rewrite <- Fw in Ha0.
    destruct (Z.eq_dec a' (ls - 1)) as [-> | Hne].
    + rewrite Hleft in Hv by lia. discriminate.
    + assert (a' = le + 1) by lia. subst a'.
      rewrite Hright in Hv by lia. discriminate.
  - intros line Hl.
    apply enqueue_rows_new in Hl as [Hl | (Hls & Hl)].
    + eapply from_parent_later.
      * intros a b Hab Hc. rewrite Ei. apply Hstays; eassumption.
      * apply Sq. rewrite <- Hq. exact Hl.
    + assert (Hrow : forall a, ls <= a <= le -> painted_ this2 a y)
        by (intros a Ha; apply Hp2, Hin_span; exact Ha).
      destruct Hl as [-> | ->]; cbn; right; (split; [lia | exact Hrow]).
  - intros a b b' Hp Hb Htg. apply Hp2 in Hp.
    destruct (Hcases a b Hp) as [Hold | [-> Ha]].
    + destruct (Sc a b b' Hold Hb Htg) as [Hp' | (s & e & p & Hl & Hse)].
      { left. apply Hp2. eapply painted_later; eassumption. }
      cbn [app In] in Hl. destruct Hl as [[= <- <- <- <-] | Hl].
      * destruct (Z.le_gt_cases a le) as [Hle | Hgt].
        -- left. apply Hp2, Hin_span. lia.
        -- right. exists (le + 1), end_, parentY.
           split; [left; reflexivity | lia].
      * right. exists s, e, p. split; [| exact Hse].
        right. unfold this2.
        destruct (enqueue_rows_spec this1 start end_ y parentY ls le)
          as (_ & _ & _ & _ & new & Eq & _);
          [rewrite (fl_height _ _ _ _ _ _ Hf1); exact Hy |].
        cbn [app]. rewrite Eq, in_app_iff, Hq. right. exact Hl.
    + assert (Hb' : 0 <= b' < img_height (imageData this1)).
      { destruct Htg as [[_ Hb'] _].
        rewrite (fl_height _ _ _ _ _ _ Hf1). exact Hb'. }
      destruct (enqueue_rows_covers this1 start end_ y parentY ls le b')
        as [Hl | Hprune]; [lia | exact Hb | exact Hb' | |].
      * right. exists ls, le, y. split; [right; exact Hl | exact Ha].
      * left. apply Hp2. eapply painted_later; [exact Hstays |].
        cbn in Hparent.
        destruct Hparent as [(Hp0 & _) | [Hpy Hrow]]; [lia |].
        assert (b' = parentY) by lia. subst b'. apply Hrow. lia.
Qed.

(** The inner loop of [fillQueue] keeps the fill spreading. *)
Lemma line_loop_spreads start end_ y parentY :
  0 <= y < img_height orig -> end_ < img_width orig ->
  forall n fuel this currX,
    filling_ this -> 0 <= currX -> start <= currX ->
    from_parent_ this (start, end_, y, parentY) ->
    spreading_ [(currX, end_, y, parentY)] this ->
    (Z.to_nat (end_ + 1 - currX) <= n)%nat ->
    (n + Z.to_nat (img_width orig) + 1 <= fuel)%nat ->
    exists this',
      line_loop fuel this start end_ y parentY currX = Some this' /\
      filling_ this' /\ (measure this' <= measure this)%nat /\
      painted_stays_ this this' /\ spreading_ [] this' /\
      (currX <= end_ -> isValidTarget this (Some (currX, y)) = true ->
       getColorAtPixel (imageData this') currX y = newColor).
Proof.
  intros Hy He.
  induction n as [| n IH];
    intros fuel this currX Hf H0 Hsc Hparent Hsp Hn Hfuel.
  { exists this. rewrite line_loop_done by lia.
    split; [reflexivity |]. split; [exact Hf |]. split; [lia |].
    split; [apply painted_stays_refl |].
    split; [eapply spreading_done; [| exact Hsp]; lia |]. intros Hc. lia. }
  destruct (Z.lt_ge_cases end_ currX) as [Hgt | Hle].
  { exists this. rewrite line_loop_done by lia.
    split; [reflexivity |]. split; [exact Hf |]. split; [lia |].
    split; [apply painted_stays_refl |].
    split; [eapply spreading_done; [| exact Hsp]; lia |]. intros Hc. lia. }
  destruct fuel as [| fuel]; [lia |].
  cbn [line_loop].
  replace (negb (currX =? -1) && (currX <=? end_)) with true by lia.
  pose proof Hf as [Ft Fr Fn Fw Fh Fg Fpix Fqueue].
  assert (Hin : in_image orig currX y) by (unfold in_image; lia).
  destruct (isValidTarget this (Some (currX, y))) eqn:Hvalid.
  - destruct (fillLineAt_span good newColor good_set set_width set_height
                get_set_same get_set_other fuel this currX y)
      as (this1 & minX & maxX & Hfill & Hpost);
      try assumption; try lia.
    { unfold in_image. rewrite Fw, Fh. exact Hin. }
    rewrite Hfill.
    destruct (paint_span this currX y this1 minX maxX Hf Hin Hvalid Hpost)
      as (Hf1 & Hcount & Hstays1 & Hcolor & Hq1).
    pose proof Hpost as ((Hmin0 & Hminx) & (Hmaxx & Hmaxw) & _).
    pose proof Hf1 as [Ft1 Fr1 Fn1 Fw1 Fh1 Fg1 Fpix1 Fqueue1].
    destruct (enqueue_rows_spec this1 start end_ y parentY minX maxX)
      as (Ei & Et & Er & En & new & Eq & Elen & _ & Enew);
      [rewrite Fh1; exact Hy |].
    pose proof (spreading_paint this this1 start end_ y parentY currX
                  minX maxX Hf Hf1 Hy (conj Hsc Hle) Hvalid Hpost Hparent Hsp)
      as Hsp2.
    set (this2 := enqueue_rows this1 start end_ y parentY minX maxX) in *.
    assert (Hf2 : filling_ this2).
    { constructor; try congruence.
      - rewrite Ei. exact Fpix1.
      - intros s e y' p Hl. rewrite Eq in Hl.
        apply in_app_iff in Hl as [Hl | Hl]; [| eapply Fqueue1; exact Hl].
        destruct (Enew _ Hl) as (y'' & [= -> -> -> ->] & Hy'').
        rewrite Fh1 in Hy''. rewrite Fw in Hmaxw. lia. }
    assert (Hm2 : (measure this2 <= measure this)%nat).
    { unfold measure. rewrite (valid_count_ext this1 this2) by congruence.
      rewrite Eq, length_app, Hq1. lia. }
    assert (Hstays12 : painted_stays_ this this2).
    { intros a b Hab Hc. rewrite Ei. apply Hstays1; assumption. }
    replace ((maxX =? -1) && (currX <=? end_)) with false by lia.
    destruct (IH fuel this2 (maxX + 1) Hf2) as (this' & Hrun & Hf' & Hm'
                                                 & Hstays' & Hsp' & _);
      try lia.
    { eapply from_parent_later; eassumption. }
    { exact Hsp2. }
    exists this'. split; [exact Hrun |]. split; [exact Hf' |].
    split; [lia |].
    split; [eapply painted_stays_trans; eassumption |].
    split; [exact Hsp' |].
    intros _ _. apply Hstays'; [exact Hin |]. rewrite Ei. exact Hcolor.
  - assert (Hfill : fillLineAt fuel this currX y = Some (this, (-1, -1))).
    { unfold fillLineAt. rewrite Hvalid. reflexivity. }
    rewrite Hfill.
    assert (Henq : enqueue_rows this start end_ y parentY (-1) (-1) = this)
      by reflexivity.
    rewrite Henq.
    replace ((-1 =? -1) && (currX <=? end_)) with true by lia.
    destruct (IH fuel this (currX + 1) Hf) as (this' & Hrun & Hf' & Hm'
                                                & Hstays' & Hsp' & _);
      try lia; try assumption.
    { apply spreading_skip; assumption. }
    exists this'. split; [exact Hrun |]. split; [exact Hf' |].
    split; [exact Hm' |]. split; [exact Hstays' |].
    split; [exact Hsp' | discriminate].
Qed.

(** [fillQueue] empties the queue with the fill still spreading: nothing
    is left to look at. *)
Lemma fillQueue_spreads : forall n fuel this,
  filling_ this -> spreading_ [] this -> (measure this <= n)%nat ->
  (n + 2 * Z.to_nat (img_width orig) + 2 <= fuel)%nat ->
  exists this',
    fillQueue fuel this = Some this' /\ filling_ this' /\
    _queue this' = [] /\ spreading_ [] this' /\ painted_stays_ this this' /\
    (forall start end_ y parentY rest,
       _queue this = (start, end_, y, parentY) :: rest ->
       start <= end_ -> isValidTarget this (Some (start, y)) = true ->
       getColorAtPixel (imageData this') start y = newColor).
Proof.
  induction n as [| n IH]; intros fuel this Hf Hsp Hm Hfuel;
    destruct (_queue this) as [| [[[start end_] y] parentY] rest] eqn:Hq;
    try (exists this; split;
         [destruct fuel; cbn [fillQueue]; unfold popFromQueue; rewrite Hq;
          reflexivity |];
         split; [exact Hf |]; split; [exact Hq |];
         split; [exact Hsp |];
         split; [apply painted_stays_refl | discriminate]).
  { unfold measure in Hm. rewrite Hq in Hm. cbn [length] in Hm. lia. }
  destruct fuel as [| fuel]; [lia |].
  cbn [fillQueue]. unfold popFromQueue. rewrite Hq.
  set (popped := mkFloodFill (imageData this) (_tolerance this) rest
                             (_replacedColor this) (_newColor this)).
  pose proof Hf as [Ft Fr Fn Fw Fh Fg Fpix Fqueue].
  destruct (Fqueue start end_ y parentY) as (Hs0 & Hew & Hy);
    [rewrite Hq; left; reflexivity |].
  assert (Hfp : filling_ popped).
  { constructor; try assumption.
    intros s e y' p Hl. apply (Fqueue s e y' p). rewrite Hq. right. exact Hl. }
  assert (Hmp : (measure popped + 1 = measure this)%nat).
  { unfold measure. rewrite (valid_count_ext this popped) by reflexivity.
    rewrite Hq. cbn [_queue popped length]. lia. }
  pose proof Hsp as [Sj Sr Sq Sc].
  assert (Hparent : from_parent_ popped (start, end_, y, parentY)).
  { apply (Sq (start, end_, y, parentY)). rewrite Hq. left. reflexivity. }
  assert (Hspp : spreading_ [(start, end_, y, parentY)] popped).
  { constructor.
    - exact Sj.
    - exact Sr.
    - intros line Hl. apply (Sq line). rewrite Hq. right. exact Hl.
    - intros a b b' Hp Hb Htg.
      destruct (Sc a b b' Hp Hb Htg) as [Hp' | Hpend];
        [left; exact Hp' | right].
      rewrite Hq in Hpend. exact Hpend. }
  destruct (line_loop_spreads start end_ y parentY Hy Hew
              (Z.to_nat (img_width orig)) fuel popped start Hfp Hs0)
    as (this1 & Hrun1 & Hf1 & Hm1 & Hstays1 & Hsp1 & Hhead);
    try lia; try assumption.
  rewrite Hrun1.
  destruct (IH fuel this1 Hf1 Hsp1)
    as (this' & Hrun & Hf' & Hq' & Hsp' & Hstays' & _); try lia.
  exists this'. split; [exact Hrun |]. split; [exact Hf' |].
  split; [exact Hq' |]. split; [exact Hsp' |].
  assert (Hstays : painted_stays_ this this').
  { intros a b Hab Hc. apply Hstays', Hstays1; assumption. }
  split; [exact Hstays |].
  intros s e y' p r [= <- <- <- <- <-] Hle Hvalid.
  apply Hstays'; [unfold in_image; lia |].
  apply Hhead; assumption.
Qed.

End Spread.

End Total.

(** X20.  Every [fill] returns, and paints targets only.  On an image
    that the pixel utilities read and write faithfully, with a seed
    inside it whose colour does not match the new colour, [fill] returns
    on all fuel from [fill_fuel] on, with the queue empty and the image
    as large as before; every pixel then either has the colour it had or
    holds the new colour and matched the seed's colour within the
    tolerance; and the seed pixel itself is painted when [isSameColor]
    takes its colour to match itself. *)
Theorem fill_returns_painting_targets_only {Img Color : Type}
    `{ImageOps Img Color} (good : Img -> Prop) (this : FloodFill Img Color)
    (newColor : Color) (x y tolerance : Z) (fuel : nat) :
  (forall img c x y, good img -> good (setColorAtPixel img c x y)) ->
  (forall img c x y, img_width (setColorAtPixel img c x y) = img_width img) ->
  (forall img c x y, img_height (setColorAtPixel img c x y) = img_height img) ->
  (forall img x y, good img -> in_image img x y ->
     getColorAtPixel (setColorAtPixel img newColor x y) x y = newColor) ->
  (forall img c x y x' y', good img -> in_image img x y ->
     in_image img x' y' -> (x', y') <> (x, y) ->
     getColorAtPixel (setColorAtPixel img c x y) x' y'
       = getColorAtPixel img x' y') ->
  good (imageData this) ->
  img_width (imageData this) < 2 ^ 31 ->
  img_height (imageData this) < 2 ^ 31 ->
  in_image (imageData this) x y ->
  _queue this = [] ->
  isSameColor (getColorAtPixel (imageData this) x y) newColor tolerance
    = false ->
  (fill_fuel (imageData this) <= fuel)%nat ->
  let replaced := getColorAtPixel (imageData this) x y in
  exists this',
    fill fuel this newColor x y tolerance = Some this' /\
    _queue this' = [] /\
    img_width (imageData this') = img_width (imageData this) /\
    img_height (imageData this') = img_height (imageData this) /\
    (forall a b, in_image (imageData this) a b ->
       getColorAtPixel (imageData this') a b
         = getColorAtPixel (imageData this) a b \/
       (getColorAtPixel (imageData this') a b = newColor /\
        isSameColor replaced (getColorAtPixel (imageData this) a b) tolerance
          = true)) /\
    (isSameColor replaced replaced tolerance = true ->
     getColorAtPixel (imageData this') x y = newColor).
Proof.
  intros Hgs Hsw Hsh Hsame Hother Hgood Hw Hh Hin Hqueue Hdiff Hfuel replaced.
  unfold fill. cbn [_replacedColor _newColor _tolerance].
  fold replaced. fold replaced in Hdiff. rewrite Hdiff.
  set (this0 := addToQueue _ _).
  assert (Hf0 : filling good (imageData this) replaced newColor tolerance
                        this0).
  { constructor; try reflexivity; try assumption.
    - intros a b _. left. reflexivity.
    - intros s e y' p. unfold this0. cbn [_queue addToQueue].
      rewrite Hqueue. intros [[= <- <- <- <-] | []].
      destruct Hin. lia. }
  assert (Hm0 : (measure this0
                 <= 2 * (Z.to_nat (img_width (imageData this))
                         * Z.to_nat (img_height (imageData this))) + 1)%nat).
  { unfold measure. pose proof (valid_count_le this0) as Hvc.
    unfold this0 at 2 3 in Hvc. cbn [imageData addToQueue] in Hvc.
    unfold this0 at 2. cbn [_queue addToQueue]. rewrite Hqueue.
    cbn [length]. lia. }
  destruct (fillQueue_total good newColor Hgs Hsw Hsh Hsame Hother
              (imageData this) replaced tolerance Hdiff Hw Hh
              _ fuel this0 Hf0 Hm0)
    as (this' & Hrun & Hf' & Hq' & Hstays & Hhead).
  { unfold fill_fuel in Hfuel. lia. }
  exists this'. split; [exact Hrun |]. split; [exact Hq' |].
  destruct Hf' as [Ft Fr Fn Fw Fh Fg Fpix Fqueue].
  split; [exact Fw |]. split; [exact Fh |]. split; [exact Fpix |].
  intros Hrefl.
  apply (Hhead x x y (-1) []).
  - unfold this0. cbn [_queue addToQueue]. rewrite Hqueue. reflexivity.
  - lia.
  - unfold isValidTarget, this0.
    cbn [imageData _replacedColor _tolerance addToQueue]. exact Hrefl.
Qed.

Lemma fill_returns_painting_targets_only_witness :
  exists this',
    fill 15 (fill_on row_wwb) rgba_red 0 0 0 = Some this' /\
    _queue this' = [] /\
    rgba_get (imageData this') 0 0 = rgba_red /\
    rgba_get (imageData this') 2 0 = rgba_black.
Proof.
  destruct (fill_returns_painting_targets_only
              rgba_wf (fill_on row_wwb) rgba_red 0 0 0 15)
    as (this' & Hrun & Hq & _ & _ & Hpix & Hseed).
  - intros img c x y. apply rgba_wf_set.
  - reflexivity.
  - reflexivity.
  - intros img x y. apply rgba_get_set_same.
    unfold rgba_byte, rgba_red; simpl. lia.
  - intros img c x y x' y'. apply rgba_get_set_other.
  - unfold rgba_wf, row_wwb; simpl. lia.
  - simpl. lia.
  - simpl. lia.
  - unfold in_image; simpl. lia.
  - reflexivity.
  - reflexivity.
  - vm_compute. lia.
  - exists this'. split; [exact Hrun |]. split; [exact Hq |].
    split; [apply Hseed; reflexivity |].
    destruct (Hpix 2 0) as [He | [_ Hv]];
      [unfold in_image; simpl; lia | exact He | discriminate Hv].
Defined.

Lemma joined_target {Img Color : Type} `{ImageOps Img Color}
    (orig : Img) (replaced : Color) (tolerance x y a b : Z) :
  joined orig replaced tolerance x y a b -> target orig replaced tolerance a b.
Proof. intros [Ht | a0 b0 a' b' _ _ Ht]; exact Ht. Qed.

(** X21.  [fill] paints exactly the targets that are joined to the seed.
    On an image that the pixel utilities read and write faithfully, with a
    seed inside it whose colour does not match the new colour, [fill]
    returns on all fuel from [fill_fuel] on, and in the image it leaves a
    pixel holds the new colour when a path of pixels inside the image,
    each beside the one before (left, right, above or below) and each
    matching the seed's colour within the tolerance, starts at the seed
    and ends at it, and has the colour it had otherwise. *)
Theorem fill_paints_joined_targets {Img Color : Type}
    `{ImageOps Img Color} (good : Img -> Prop) (this : FloodFill Img Color)
    (newColor : Color) (x y tolerance : Z) (fuel : nat) :
  (forall img c x y, good img -> good (setColorAtPixel img c x y)) ->
  (forall img c x y, img_width (setColorAtPixel img c x y) = img_width img) ->
  (forall img c x y, img_height (setColorAtPixel img c x y) = img_height img) ->
  (forall img x y, good img -> in_image img x y ->
     getColorAtPixel (setColorAtPixel img newColor x y) x y = newColor) ->
  (forall img c x y x' y', good img -> in_image img x y ->
     in_image img x' y' -> (x', y') <> (x, y) ->
     getColorAtPixel (setColorAtPixel img c x y) x' y'
       = getColorAtPixel img x' y') ->
  good (imageData this) ->
  img_width (imageData this) < 2 ^ 31 ->
  img_height (imageData this) < 2 ^ 31 ->
  in_image (imageData this) x y ->
  _queue this = [] ->
  isSameColor (getColorAtPixel (imageData this) x y) newColor tolerance
    = false ->
  (fill_fuel (imageData this) <= fuel)%nat ->
  let orig := imageData this in
  let replaced := getColorAtPixel orig x y in
  exists this',
    fill fuel this newColor x y tolerance = Some this' /\
    (forall a b, joined orig replaced tolerance x y a b ->
       getColorAtPixel (imageData this') a b = newColor) /\
    (forall a b, in_image orig a b ->
       ~ joined orig replaced tolerance x y a b ->
       getColorAtPixel (imageData this') a b = getColorAtPixel orig a b).
Proof.
  intros Hgs Hsw Hsh Hsame Hother Hgood Hw Hh Hin Hqueue Hdiff Hfuel.
  cbv zeta. unfold fill. cbn [_replacedColor _newColor _tolerance].
  set (replaced := getColorAtPixel (imageData this) x y) in *.
  rewrite Hdiff.
  set (this0 := addToQueue _ _).
  assert (Hf0 : filling good (imageData this) replaced newColor tolerance this0).
  { constructor; try reflexivity; try assumption.
    - intros a b _. left. reflexivity.
    - intros s e y' p. unfold this0. cbn [_queue addToQueue].
      rewrite Hqueue. intros [[= <- <- <- <-] | []].
      destruct Hin. lia. }
  assert (Hsp0 : spreading (imageData this) replaced newColor tolerance x y [] this0).
  { assert (Hnone : forall a b,
              ~ painted (imageData this) replaced newColor tolerance this0 a b).
    { intros a b [[_ Hv] Hc]. unfold this0 in Hc.
      cbn [imageData addToQueue] in Hc.
      rewrite Hc in Hv. congruence. }
    constructor.
    - intros a b Hp. destruct (Hnone a b Hp).
    - intros a b a' Hp. destruct (Hnone a b Hp).
    - intros line. unfold this0. cbn [_queue addToQueue]. rewrite Hqueue.
      intros [<- | []]. left. repeat split; reflexivity.
    - intros a b b' Hp. destruct (Hnone a b Hp). }
  assert (Hm0 : (measure this0
                 <= 2 * (Z.to_nat (img_width (imageData this))
                         * Z.to_nat (img_height (imageData this))) + 1)%nat).
  { unfold measure. pose proof (valid_count_le this0) as Hvc.
    unfold this0 at 2 3 in Hvc. cbn [imageData addToQueue] in Hvc.
    unfold this0 at 2. cbn [_queue addToQueue]. rewrite Hqueue.
    cbn [length]. lia. }
  destruct (fillQueue_spreads good newColor Hgs Hsw Hsh Hsame Hother
              (imageData this) replaced tolerance Hdiff Hw Hh x y
              _ fuel this0 Hf0 Hsp0 Hm0)
    as (this' & Hrun & Hf' & Hq' & [Sj Sr Sq Sc] & Hstays & Hhead).
  { unfold fill_fuel in Hfuel. lia. }
  exists this'. split; [exact Hrun |].
  assert (Hall : forall a b, joined (imageData this) replaced tolerance x y a b ->
            painted (imageData this) replaced newColor tolerance this' a b).
  { induction 1 as [Hseed | a b a' b' Hj IH Hb Ht].
    - split; [exact Hseed |].
      apply (Hhead x x y (-1) []).
      + unfold this0. cbn [_queue addToQueue]. rewrite Hqueue. reflexivity.
      + lia.
      + unfold isValidTarget, this0.
        cbn [imageData _replacedColor _tolerance addToQueue].
        exact (proj2 Hseed).
    - destruct Hb as [[-> Ha] | [-> Hb]].
      + apply (Sr a b a' IH Ha Ht).
      + destruct (Sc a b b' IH Hb Ht) as [Hp | (s & e & p & Hl & _)];
          [exact Hp |].
        rewrite Hq' in Hl. destruct Hl. }
  split.
  - intros a b Hj. exact (proj2 (Hall a b Hj)).
  - intros a b Hab Hnot.
    destruct (fl_pixels _ _ _ _ _ _ Hf' a b Hab) as [He | [He Hv]];
      [exact He |].
    exfalso. apply Hnot, Sj. split; [split; assumption | exact He].
Qed.

Lemma fill_paints_joined_targets_witness :
  exists this',
    fill 15 (fill_on row_wwb) rgba_red 0 0 0 = Some this' /\
    rgba_get (imageData this') 1 0 = rgba_red /\
    rgba_get (imageData this') 2 0 = rgba_black.
Proof.
  destruct (fill_paints_joined_targets
              rgba_wf (fill_on row_wwb) rgba_red 0 0 0 15)
    as (this' & Hrun & Hin & Hout).
  - intros img c x y. apply rgba_wf_set.
  - reflexivity.
  - reflexivity.
  - intros img x y. apply rgba_get_set_same.
    unfold rgba_byte, rgba_red; simpl. lia.
  - intros img c x y x' y'. apply rgba_get_set_other.
  - unfold rgba_wf, row_wwb; simpl. lia.
  - simpl. lia.
  - simpl. lia.
  - unfold in_image; simpl. lia.
  - reflexivity.
  - reflexivity.
  - vm_compute. lia.
  - exists this'. split; [exact Hrun |]. split.
    + apply Hin. apply (joined_step _ _ _ _ _ 0 0).
      * apply joined_seed. split; [unfold in_image; simpl; lia | reflexivity].
      * left. split; [reflexivity | left; reflexivity].
      * split; [unfold in_image; simpl; lia | reflexivity].
    + apply (Hout 2 0); [unfold in_image; simpl; lia |].
      intros Hj. apply joined_target in Hj. destruct Hj as [_ Hv].
      discriminate Hv.
Defined.

End SpanTotalFacts.

(** ** Facts about strokes *)

Module StrokeFacts.
Import Gesture GestureFacts Strokes.

(** *** [drawPoints] *)

(** X9.  [drawPoints] needs two points: given fewer it throws a
    [TypeError] once it has set the styles and cleared the temporary
    canvas; given [a], [b] and more it returns, having moved to [b] and
    drawn one quadratic curve per pair of consecutive points (bent towards
    the first, ending at their midpoint) and a straight line to the last
    point. *)
Theorem drawPoints_needs_two_points (eraser : bool) (points : list Point)
    (brushColor : string) (brushRadius : float) :
  ((length points < 2)%nat ->
   drawPoints eraser points brushColor brushRadius
   = Threw (style_calls eraser brushColor brushRadius)) /\
  (forall a b rest z,
     points = a :: b :: rest -> last points = Some z ->
     drawPoints eraser points brushColor brushRadius
     = Returned (style_calls eraser brushColor brushRadius ++
                 [MoveTo (px b) (py b); BeginPath] ++ curves points ++
                 [LineTo (px z) (py z); Stroke])).
Proof.
  split.
  - intros Hlen. unfold drawPoints.
    rewrite (lookup_ge_None_2 points 1) by lia. reflexivity.
  - intros a b rest z -> Hlast. apply drawPoints_path. exact Hlast.
Qed.

Lemma drawPoints_needs_two_points_witness :
  drawPoints false [mkPoint 0 0; mkPoint 2 2; mkPoint 4 0] "#db2727" 10
  = Returned (style_calls false "#db2727" 10 ++
              [MoveTo 2 2; BeginPath] ++
              curves [mkPoint 0 0; mkPoint 2 2; mkPoint 4 0] ++
              [LineTo 4 0; Stroke]).
Proof.
  apply (proj2 (drawPoints_needs_two_points
                  false [mkPoint 0 0; mkPoint 2 2; mkPoint 4 0] "#db2727" 10)
               (mkPoint 0 0) (mkPoint 2 2) [mkPoint 4 0] (mkPoint 4 0));
    reflexivity.
Defined.

(** *** Comparisons of doubles *)

Lemma SFcompare_antisym a b :
  SFcompare b a = option_map CompOpp (SFcompare a b).
Proof.
  destruct a as [sa | sa | | sa ma ea], b as [sb | sb | | sb mb eb];
    cbn [SFcompare option_map]; try reflexivity;
    try (destruct sa; reflexivity); try (destruct sb; reflexivity);
    try (destruct sa, sb; reflexivity).
  destruct sa, sb; try reflexivity; f_equal;
    rewrite (Z.compare_antisym ea eb);
    destruct (ea ?= eb)%Z; cbn [CompOpp]; try reflexivity.
  - rewrite (Pos.compare_cont_antisym ma mb Eq). reflexivity.
  - rewrite (Pos.compare_cont_antisym ma mb Eq). reflexivity.
Qed.

Lemma is_nan_compare a b :
  is_nan a = false -> is_nan b = false ->
  exists c, SFcompare (Prim2SF a) (Prim2SF b) = Some c.
Proof.
  unfold is_nan. rewrite !FloatAxioms.eqb_spec. unfold SFeqb.
  destruct (Prim2SF a), (Prim2SF b); cbn; intros Ha Hb;
    try discriminate; eauto.
Qed.

Lemma ltb_leb a b : (a <? b)%float = true -> (a <=? b)%float = true.
Proof.
  rewrite FloatAxioms.ltb_spec, FloatAxioms.leb_spec. unfold SFltb, SFleb.
  destruct (SFcompare _ _) as [[] |]; intros; congruence.
Qed.

Lemma ltb_false_leb a b :
  is_nan a = false -> is_nan b = false ->
  (a <? b)%float = false -> (b <=? a)%float = true.
Proof.
  intros Ha Hb. destruct (is_nan_compare a b Ha Hb) as [c Hc].
  rewrite FloatAxioms.ltb_spec, FloatAxioms.leb_spec. unfold SFltb, SFleb.
  rewrite (SFcompare_antisym (Prim2SF a) (Prim2SF b)), Hc.
  destruct c; cbn; congruence.
Qed.

Lemma leb_refl a : is_nan a = false -> (a <=? a)%float = true.
Proof.
  intros Ha. apply ltb_false_leb; try assumption.
  destruct (is_nan_compare a a Ha Ha) as [c Hc].
  rewrite FloatAxioms.ltb_spec. unfold SFltb.
  pose proof (SFcompare_antisym (Prim2SF a) (Prim2SF a)) as Hanti.
  rewrite Hc in *. destruct c; cbn in *; congruence.
Qed.

Lemma leb_not_nan a b :
  (a <=? b)%float = true -> is_nan a = false /\ is_nan b = false.
Proof.
  unfold is_nan. rewrite FloatAxioms.leb_spec, !FloatAxioms.eqb_spec. unfold SFleb, SFeqb.
  destruct (Prim2SF a) as [| | |sa ma ea], (Prim2SF b) as [| | |sb mb eb];
    cbn; try discriminate; intros _;
    repeat match goal with
           | s : bool |- _ => destruct s
           end; cbn; rewrite ?Z.compare_refl, ?Pos.compare_cont_refl;
    auto.
Qed.

(** [Math.min] and [Math.max] pick one of their arguments. *)
Lemma Math_min_cases a b :
  is_nan a = false -> is_nan b = false ->
  (Math_min a b = a /\ (a <=? b)%float = true) \/
  (Math_min a b = b /\ (b <=? a)%float = true).
Proof.
  intros Ha Hb. unfold Math_min. rewrite Ha, Hb. cbn [orb].
  destruct (a <? b)%float eqn:Hab; [left; auto using ltb_leb |].
  destruct (b <? a)%float eqn:Hba; [right; auto using ltb_leb |].
  destruct (get_sign a);
    [left | right]; auto using ltb_false_leb.
Qed.

Lemma Math_max_cases a b :
  is_nan a = false -> is_nan b = false ->
  (Math_max a b = a /\ (b <=? a)%float = true) \/
  (Math_max a b = b /\ (a <=? b)%float = true).
Proof.
  intros Ha Hb. unfold Math_max. rewrite Ha, Hb. cbn [orb].
  destruct (a <? b)%float eqn:Hab; [right; auto using ltb_leb |].
  destruct (b <? a)%float eqn:Hba; [left; auto using ltb_leb |].
  destruct (get_sign a);
    [right | left]; auto using ltb_false_leb.
Qed.

(** A coordinate clamped by [Math.max(Math.min(v, hi), 0)]. *)
Lemma clamp_inside v hi :
  is_nan v = false -> (0 <=? hi)%float = true ->
  let r := Math_max (Math_min v hi) 0 in
  (0 <=? r)%float = true /\ (r <=? hi)%float = true.
Proof.
  intros Hv Hhi. destruct (leb_not_nan _ _ Hhi) as [H0 Hh].
  assert (Hm : is_nan (Math_min v hi) = false /\
               (Math_min v hi <=? hi)%float = true).
  { destruct (Math_min_cases v hi Hv Hh) as [[-> Hle] | [-> Hle]];
      auto using leb_refl. }
  destruct Hm as [Hmn Hml]. cbv zeta.
  destruct (Math_max_cases (Math_min v hi) 0 Hmn H0) as [[-> Hle] | [-> Hle]];
    auto using leb_refl.
Qed.

(** *** The calculus of [wp] *)

Section Calculus.

Context {L C : Type} `{LazyBrush L} `{CoordinateSystem C}.

Section Rules.

Variable E : Effect -> Prop.

Lemma wp_ret {A : Type} (a : A) (w : World L C) Q : Q a w -> wp E (ret a) w Q.
Proof. intros HQ. split; [constructor | intros a' [= <-]; exact HQ]. Qed.

Lemma wp_bind {A B : Type} (m : M A) (k : A -> M B) (w : World L C) Q :
  wp E m w (fun a w' => wp E (k a) w' Q) -> wp E (bind m k) w Q.
Proof.
  unfold wp, bind. destruct (m w) as [[[a | |] w1] effs1]; cbn [fst snd].
  - intros [H1 Hk]. destruct (Hk a eq_refl) as [H2 HQ].
    destruct (k a w1) as [[b w2] effs2]. cbn [fst snd] in *.
    split; [| exact HQ]. apply Forall_app. split; assumption.
  - intros [H1 _]. split; [exact H1 | discriminate].
  - intros [H1 _]. split; [exact H1 | discriminate].
Qed.

Lemma wp_mono {A : Type} (m : M A) (w : World L C) (Q Q' : A -> _ -> Prop) :
  wp E m w Q -> (forall a w', Q a w' -> Q' a w') -> wp E m w Q'.
Proof.
  intros [Hd HQ] Himp. split; [exact Hd |].
  intros a Ha. apply Himp, HQ, Ha.
Qed.

Lemma wp_get (w : World L C) Q : Q w w -> wp E get w Q.
Proof. intros HQ. split; [constructor | intros a' [= <-]; exact HQ]. Qed.

Lemma wp_modify f (w : World L C) Q : Q tt (f w) -> wp E (modify f) w Q.
Proof. intros HQ. split; [constructor | intros [] _; exact HQ]. Qed.

Lemma wp_emit eff (w : World L C) Q : E eff -> Q tt w -> wp E (emit eff) w Q.
Proof.
  intros He HQ.
  split; [repeat constructor; exact He | intros [] _; exact HQ].
Qed.

Lemma wp_throw {A : Type} (w : World L C) (Q : A -> _ -> Prop) :
  wp E throw w Q.
Proof. split; [constructor | discriminate]. Qed.

Lemma wp_preventDefault e (w : World L C) Q :
  E PreventDefault -> Q tt w -> wp E (preventDefault e) w Q.
Proof.
  intros He HQ. unfold wp. rewrite preventDefault_run.
  split; [| intros [] _; exact HQ]. unfold prevented.
  destruct (synthetic e); repeat constructor. exact He.
Qed.

Lemma wp_Date_valueOf (w : World L C) Q :
  Q (clock w (reads w)) (set_reads (S (reads w)) w) -> wp E Date_valueOf w Q.
Proof. intros HQ. split; [constructor | intros a' [= <-]; exact HQ]. Qed.

(** [drawPoints] as a call: it returns when it has two points or more. *)
Lemma wp_run_drawPoints pts color radius (w : World L C) Q :
  E (DrawPoints pts color radius) ->
  ((2 <= length pts)%nat -> Q tt w) ->
  wp E (run_drawPoints pts color radius) w Q.
Proof.
  intros He HQ. unfold wp. rewrite run_drawPoints_run. cbn [fst snd].
  split; [repeat constructor; exact He |].
  intros []. destruct (Nat.leb_spec 2 (length pts)); [| discriminate].
  intros _. apply HQ. assumption.
Qed.

Lemma wp_getImageData_unused sw sh (w : World L C) Q :
  Q tt w -> wp E (getImageData_unused sw sh) w Q.
Proof.
  intros HQ. unfold getImageData_unused.
  destruct (_ || _); [apply wp_throw | apply wp_ret, HQ].
Qed.

(** [floodFill] as a call: when it has returned, one more fill has read
    the canvas. *)
Lemma wp_run_floodFill x y color (w : World L C) Q :
  E (FloodFillAt x y color) ->
  Q tt (set_fills (S (fills w)) w) ->
  wp E (run_floodFill x y color) w Q.
Proof.
  intros He HQ. unfold wp, run_floodFill. cbv zeta.
  destruct (_ || _); cbn [fst snd]; [split; [constructor | discriminate] |].
  destruct (Seeds.floodFill _ _ _ _ _); cbn [fst snd].
  - split; [repeat constructor; exact He | intros [] _; exact HQ].
  - split; [constructor | discriminate].
Qed.

(** Whatever a computation does satisfies a postcondition that holds of
    every result, when every effect is allowed. *)
Lemma wp_any {A : Type} (m : M A) (w : World L C) (Q : A -> _ -> Prop) :
  (forall eff, E eff) -> (forall a w', Q a w') -> wp E m w Q.
Proof.
  intros He HQ. split; [| intros a _; apply HQ]. apply Forall_forall.
  intros eff _. apply He.
Qed.

End Rules.

Ltac wstep :=
  lazymatch goal with
  | |- wp _ (bind _ _) _ _ => apply wp_bind
  | |- wp _ (ret _) _ _ => apply wp_ret
  | |- wp _ get _ _ => apply wp_get
  | |- wp _ (modify _) _ _ => apply wp_modify
  | |- wp _ (preventDefault _) _ _ => apply wp_preventDefault; [exact I |]
  | |- wp _ Date_valueOf _ _ => apply wp_Date_valueOf
  | |- wp _ throw _ _ => apply wp_throw
  | |- wp _ (getImageData_unused _ _) _ _ => apply wp_getImageData_unused
  end; cbv beta.

Lemma lines_ok_set_points ps (w : World L C) :
  lines_ok (set_points ps w) <-> lines_ok w.
Proof. reflexivity. Qed.

Lemma wp_saveLine color radius (w : World L C) :
  lines_ok w -> wp draw_ok (saveLine color radius) w (fun _ w' => lines_ok w').
Proof.
  intros Hw. unfold wp. rewrite saveLine_run.
  destruct (Nat.ltb_spec (length (points w)) 2) as [Hshort | Hlong];
    cbn [fst snd].
  - split; [constructor | intros _ _; exact Hw].
  - split; [repeat constructor | intros _ _].
    unfold lines_ok. cbn [lines set_points set_lines].
    apply Forall_app. split; [exact Hw |].
    constructor; [exact Hlong | constructor].
Qed.

Lemma wp_simulateDrawingLines ls : forall (w : World L C),
  lines_ok w ->
  Forall (fun l => (2 <= length (line_points l))%nat) ls ->
  wp draw_ok (simulateDrawingLines ls) w (fun _ w' => lines_ok w').
Proof.
  induction ls as [| l ls IH]; intros w Hw Hls; cbn [simulateDrawingLines].
  - wstep. exact Hw.
  - inversion Hls as [| l' ls' Hl Hls']; subst l' ls'.
    wstep. apply wp_run_drawPoints; [exact Hl | intros _].
    wstep. wstep. wstep.
    eapply wp_mono; [apply wp_saveLine; exact Hw |].
    intros u w' Hw'. cbv beta in *. apply IH; assumption.
Qed.

Lemma wp_applyView (w : World L C) :
  lines_ok w -> wp draw_ok applyView w (fun _ w' => lines_ok w').
Proof.
  intros Hw. unfold applyView.
  wstep. apply wp_emit; [exact I |].
  wstep. wstep. wstep. wstep.
  apply wp_simulateDrawingLines; [constructor | exact Hw].
Qed.

Lemma wp_setView x y (w : World L C) :
  lines_ok w -> wp draw_ok (setView x y) w (fun _ w' => lines_ok w').
Proof.
  intros Hw. unfold setView. wstep. wstep. apply wp_applyView. exact Hw.
Qed.

Lemma wp_scaleAtClientPoint deltaScale pt (w : World L C) :
  lines_ok w ->
  wp draw_ok (scaleAtClientPoint deltaScale pt) w (fun _ w' => lines_ok w').
Proof.
  intros Hw. unfold scaleAtClientPoint. wstep. wstep.
  apply wp_applyView. exact Hw.
Qed.

Lemma wp_shape (shape : M unit) eff b (w : World L C) :
  (forall w, shape w =
     (Returns tt,
      set_coordSystem (cs_resetView (coordSystem w)) (set_lines [] w),
      [ViewApplied; eff])) ->
  draw_ok eff ->
  drawing_ok b w ->
  forall c : bool,
    wp draw_ok (if c then shape else ret tt) w (fun _ w' => drawing_ok b w').
Proof.
  intros Hrun Heff [Hlines Hpts] [|].
  - unfold wp. rewrite Hrun. cbn [fst snd]. split.
    + repeat constructor. exact Heff.
    + intros _ _. split; [constructor | exact Hpts].
  - wstep. split; assumption.
Qed.

Lemma wp_Drawing_handleDrawMove isDrawing e shouldStartAtEdge (w : World L C) :
  drawing_ok isDrawing w ->
  wp draw_ok (Drawing_handleDrawMove isDrawing e shouldStartAtEdge) w
     (fun b w' => drawing_ok b w').
Proof.
  intros Hw. unfold Drawing_handleDrawMove.
  wstep. wstep. wstep. wstep. wstep. wstep. wstep.
  eapply wp_mono.
  { instantiate (1 := fun _ w' => drawing_ok isDrawing w').
    destruct (tool (props w) =? "FloodFill")%string.
    - wstep. wstep. apply wp_run_floodFill; [exact I | exact Hw].
    - wstep. exact Hw. }
  intros u1 w1 Hw1. cbv beta in *. wstep.
  eapply wp_mono;
    [apply (wp_shape drawRect DrawRect); [apply drawRect_run | exact I
                                         | exact Hw1] |].
  intros u2 w2 Hw2. cbv beta in *. wstep.
  eapply wp_mono;
    [apply (wp_shape drawCircle DrawCircle);
       [apply drawCircle_run | exact I | exact Hw2] |].
  intros u3 w3 Hw3. cbv beta in *.
  destruct (negb (tool (props w) =? "Pencil")%string
            && negb (tool (props w) =? "Eraser")%string).
  { wstep. exact Hw3. }
  wstep.
  eapply wp_mono.
  { instantiate (1 := fun _ w' => drawing_ok isDrawing w').
    destruct shouldStartAtEdge.
    - wstep. wstep. wstep. exact Hw3.
    - wstep. wstep. wstep. exact Hw3. }
  intros xy w4 Hw4. cbv beta.
  wstep. wstep. wstep. wstep. wstep.
  eapply wp_mono.
  { instantiate (1 := fun b w' =>
                        b = true /\ lines_ok w' /\
                        (1 <= length (points w'))%nat).
    destruct Hw4 as [Hl4 Hp4].
    destruct isDrawing; cbn [negb orb].
    - destruct (negb (lazy_isEnabled _)).
      + unfold push_brush. wstep. wstep. wstep.
        cbn [points set_points set_lazy]. rewrite length_app. cbn [length].
        repeat split; [exact Hl4 | lia].
      + wstep. cbn [points set_lazy].
        specialize (Hp4 eq_refl). repeat split; [exact Hl4 | lia].
    - unfold push_brush. wstep. wstep. wstep.
      cbn [points set_points set_lazy]. rewrite length_app. cbn [length].
      repeat split; [exact Hl4 | lia]. }
  intros b w5 (-> & Hl5 & Hp5). cbv beta.
  unfold push_brush. wstep. wstep. wstep. wstep.
  assert (Hlen : (2 <= length (points w5 ++
                     [clampPointToDocument w5 (lazy_brush (lazy w5))]))%nat)
    by (rewrite length_app; cbn [length]; lia).
  wstep. apply wp_run_drawPoints; [exact Hlen | intros _].
  wstep. split; [exact Hl5 | intros _; exact Hlen].
Qed.

Lemma stroke_inv_drawing b (w : World L C) :
  drawing_ok b w -> stroke_inv (DrawingState b) w.
Proof.
  intros [Hl Hp]. split; [exact Hl |]. destruct b; [auto | exact I].
Qed.

Lemma drawing_ok_stroke_inv b (w : World L C) :
  stroke_inv (DrawingState b) w -> drawing_ok b w.
Proof.
  intros [Hl Hp]. split; [exact Hl |]. intros ->. exact Hp.
Qed.

Lemma drawing_ok_false (w : World L C) : lines_ok w -> drawing_ok false w.
Proof. intros Hl. split; [exact Hl | discriminate]. Qed.

Lemma stroke_inv_lines s (w : World L C) : stroke_inv s w -> lines_ok w.
Proof. intros [Hl _]. exact Hl. Qed.

Lemma stroke_inv_rest s (w : World L C) :
  (forall b, s <> DrawingState b) -> lines_ok w -> stroke_inv s w.
Proof.
  intros Hs Hl. split; [exact Hl |].
  destruct s; try exact I. exfalso. exact (Hs _ eq_refl).
Qed.

Ltac rest_state :=
  apply stroke_inv_rest; [discriminate | try assumption].

Lemma wp_Drawing_handleDrawStart isDrawing e shouldStartAtEdge
    (w : World L C) :
  drawing_ok isDrawing w ->
  wp draw_ok (Drawing_handleDrawStart isDrawing e shouldStartAtEdge) w
     (fun b w' => drawing_ok b w').
Proof.
  intros Hw. unfold Drawing_handleDrawStart.
  wstep. wstep. wstep.
  eapply wp_mono.
  { instantiate (1 := fun _ w' => drawing_ok isDrawing w').
    destruct (touches e) as [[| t ts] |].
    - wstep. exact Hw.
    - wstep. wstep. wstep. exact Hw.
    - wstep. exact Hw. }
  intros u w1 Hw1. cbv beta in *.
  apply wp_Drawing_handleDrawMove. exact Hw1.
Qed.

Lemma wp_Drawing_handleDrawEnd isDrawing e (w : World L C) :
  drawing_ok isDrawing w ->
  wp draw_ok (Drawing_handleDrawEnd isDrawing e) w (fun s w' => stroke_inv s w').
Proof.
  intros Hw. unfold Drawing_handleDrawEnd.
  wstep. wstep. wstep.
  eapply wp_mono; [apply wp_Drawing_handleDrawMove; exact Hw |].
  intros b w1 [Hl1 _]. cbv beta in *. wstep.
  eapply wp_mono; [apply wp_saveLine; exact Hl1 |].
  intros u w2 Hl2. cbv beta in *. wstep. rest_state.
Qed.

Lemma wp_issue_loop rest : forall i nextState (w : World L C),
  drawing_ok nextState w ->
  wp draw_ok (issue_loop i rest nextState) w (fun b w' => drawing_ok b w').
Proof.
  induction rest as [| deferredPt rest IH]; intros i nextState w Hw;
    cbn [issue_loop].
  - wstep. exact Hw.
  - wstep. eapply wp_mono.
    { instantiate (1 := fun b w' => drawing_ok b w').
      destruct (i =? 0)%nat;
        [apply wp_Drawing_handleDrawStart
        | apply wp_Drawing_handleDrawMove]; exact Hw. }
    intros b w1 Hw1. cbv beta in *. apply IH. exact Hw1.
Qed.

Lemma wp_issueDeferredPoints this (w : World L C) :
  lines_ok w ->
  wp draw_ok (issueDeferredPoints this) w (fun b w' => drawing_ok b w').
Proof.
  intros Hw. apply wp_issue_loop, drawing_ok_false, Hw.
Qed.

Lemma wp_ScaleOrPan_handleDrawStart recent e (w : World L C) :
  lines_ok w ->
  wp draw_ok (ScaleOrPan_handleDrawStart recent e) w (fun s w' => stroke_inv s w').
Proof.
  intros Hw. unfold ScaleOrPan_handleDrawStart. wstep. wstep.
  destruct (touches e) as [[| t0 [| t1 ts]] |];
    repeat wstep; rest_state.
Qed.

Lemma wp_TouchScale_handleDrawMove ref e (w : World L C) :
  lines_ok w ->
  wp draw_ok (TouchScale_handleDrawMove ref e) w (fun s w' => stroke_inv s w').
Proof.
  intros Hw. unfold TouchScale_handleDrawMove. wstep. wstep.
  destruct (touches e) as [[| t0 [| t1 ts]] |];
    try (wstep; rest_state).
  wstep. wstep. wstep.
  eapply wp_mono; [apply wp_scaleAtClientPoint; exact Hw |].
  intros u w1 Hw1. cbv beta in *. wstep. rest_state.
Qed.

Lemma wp_TouchPan_handleDrawMove ref e (w : World L C) :
  lines_ok w ->
  wp draw_ok (TouchPan_handleDrawMove ref e) w (fun s w' => stroke_inv s w').
Proof.
  intros Hw. unfold TouchPan_handleDrawMove. wstep. wstep.
  destruct (touches e) as [[| t0 [| t1 ts]] |];
    try (wstep; rest_state).
  wstep.
  eapply wp_mono; [apply wp_setView; exact Hw |].
  intros u w1 Hw1. cbv beta in *. wstep. rest_state.
Qed.

Lemma wp_ScaleOrPan_handleDrawMove this e (w : World L C) :
  lines_ok w ->
  wp draw_ok (ScaleOrPan_handleDrawMove this e) w (fun s w' => stroke_inv s w').
Proof.
  intros Hw. unfold ScaleOrPan_handleDrawMove. wstep. wstep.
  destruct (touches e) as [[| t0 [| t1 ts]] |] eqn:Ht;
    try (wstep; rest_state).
  cbv zeta.
  destruct (_ <=? _)%float.
  - apply wp_TouchScale_handleDrawMove. exact Hw.
  - destruct (_ <=? _)%float.
    + apply wp_TouchPan_handleDrawMove. exact Hw.
    + wstep. rest_state.
Qed.

Lemma wp_Pan_handleDrawStart e (w : World L C) :
  lines_ok w -> wp draw_ok (Pan_handleDrawStart e) w (fun s w' => stroke_inv s w').
Proof.
  intros Hw. unfold Pan_handleDrawStart. repeat wstep. rest_state.
Qed.

Lemma wp_Pan_handleDrawMove this e (w : World L C) :
  lines_ok w ->
  wp draw_ok (Pan_handleDrawMove this e) w (fun s w' => stroke_inv s w').
Proof.
  intros Hw. unfold Pan_handleDrawMove. wstep. wstep. wstep.
  eapply wp_mono; [apply wp_setView; exact Hw |].
  intros u w1 Hw1. cbv beta in *. wstep. rest_state.
Qed.

Lemma wp_give_up this (w : World L C) :
  lines_ok w ->
  wp draw_ok (bind (issueDeferredPoints this)
           (fun drawing => ret (DrawingState drawing))) w
     (fun s w' => stroke_inv s w').
Proof.
  intros Hw. wstep.
  eapply wp_mono; [apply wp_issueDeferredPoints; exact Hw |].
  intros b w1 Hw1. cbv beta in *. wstep. apply stroke_inv_drawing, Hw1.
Qed.

Lemma wp_WaitForPinch_handleDrawMove this e (w : World L C) :
  lines_ok w ->
  wp draw_ok (WaitForPinch_handleDrawMove this e) w (fun s w' => stroke_inv s w').
Proof.
  intros Hw. unfold WaitForPinch_handleDrawMove. wstep. wstep.
  assert (Hsingle :
    wp draw_ok (bind Date_valueOf (fun now =>
          if (now - startTimestamp this <? PINCH_TIMEOUT_MS)%Z
          then
            let startPt :=
              match startClientPoint this with
              | Some pt => pt
              | None => clientPointFromEvent e
              end in
            let this' :=
              mkWaitForPinch (Some startPt) (startTimestamp this)
                (deferredPoints this ++ [clientPointFromEvent e]) in
            if (abs (clientX (clientPointFromEvent e) - clientX startPt)
                + abs (clientY (clientPointFromEvent e) - clientY startPt)
                <? TOUCH_SLOP)%float
            then ret (WaitForPinchState this')
            else bind (issueDeferredPoints this')
                      (fun drawing => ret (DrawingState drawing))
          else
            bind (issueDeferredPoints
                    (mkWaitForPinch (startClientPoint this)
                       (startTimestamp this)
                       (deferredPoints this ++ [clientPointFromEvent e])))
                 (fun drawing => ret (DrawingState drawing)))) w
       (fun s w' => stroke_inv s w')).
  { wstep. wstep.
    destruct (_ <? _)%Z.
    - cbv zeta. destruct (_ <? _)%float.
      + wstep. rest_state.
      + apply wp_give_up. exact Hw.
    - apply wp_give_up. exact Hw. }
  destruct (touches e) as [[| t0 [| t1 ts]] |];
    try exact Hsingle.
  apply wp_ScaleOrPan_handleDrawStart. exact Hw.
Qed.

Lemma wp_WaitForPinch_handleDrawStart this e shouldStartAtEdge
    (w : World L C) :
  lines_ok w ->
  wp draw_ok (WaitForPinch_handleDrawStart this e shouldStartAtEdge) w
     (fun s w' => stroke_inv s w').
Proof.
  intros Hw. unfold WaitForPinch_handleDrawStart. wstep. wstep. wstep. wstep.
  assert (Hdraw :
    wp draw_ok (bind (Drawing_handleDrawStart false e shouldStartAtEdge)
             (fun drawing => ret (DrawingState drawing))) w
       (fun s w' => stroke_inv s w')).
  { wstep. eapply wp_mono;
      [apply wp_Drawing_handleDrawStart, drawing_ok_false, Hw |].
    intros b w1 Hw1. cbv beta in *. wstep. apply stroke_inv_drawing, Hw1. }
  destruct (touches e) as [[| t0 ts] |]; try exact Hdraw.
  destruct (negb (enablePanAndZoom (props w))); [exact Hdraw |].
  destruct ts.
  - apply wp_WaitForPinch_handleDrawMove. exact Hw.
  - apply wp_ScaleOrPan_handleDrawStart. exact Hw.
Qed.

Lemma wp_WaitForPinch_handleDrawEnd this e (w : World L C) :
  lines_ok w ->
  wp draw_ok (WaitForPinch_handleDrawEnd this e) w (fun s w' => stroke_inv s w').
Proof.
  intros Hw. unfold WaitForPinch_handleDrawEnd. wstep.
  eapply wp_mono; [apply wp_issueDeferredPoints; exact Hw |].
  intros b w1 Hw1. cbv beta in *.
  apply wp_Drawing_handleDrawEnd. exact Hw1.
Qed.

Lemma wp_Default_handleMouseWheel e (w : World L C) :
  lines_ok w ->
  wp draw_ok (Default_handleMouseWheel e) w (fun s w' => stroke_inv s w').
Proof.
  intros Hw. unfold Default_handleMouseWheel. wstep. wstep.
  destruct (disabled (props w)); [wstep; rest_state |].
  destruct (_ && _); [| wstep; rest_state].
  wstep. wstep. wstep.
  eapply wp_mono; [apply wp_scaleAtClientPoint; exact Hw |].
  intros u w1 Hw1. cbv beta in *. wstep. rest_state.
Qed.

Lemma wp_Default_handleDrawStart e shouldStartAtEdge (w : World L C) :
  lines_ok w ->
  wp draw_ok (Default_handleDrawStart e shouldStartAtEdge) w
     (fun s w' => stroke_inv s w').
Proof.
  intros Hw. unfold Default_handleDrawStart. wstep. wstep.
  destruct (disabled (props w)); [wstep; rest_state |].
  destruct (_ && _); [apply wp_Pan_handleDrawStart; exact Hw |].
  unfold new_WaitForPinchState. wstep. wstep. wstep. wstep.
  apply wp_WaitForPinch_handleDrawStart. exact Hw.
Qed.

Lemma wp_Default_handleDrawMove e (w : World L C) :
  lines_ok w ->
  wp draw_ok (Default_handleDrawMove e) w (fun s w' => stroke_inv s w').
Proof.
  intros Hw. unfold Default_handleDrawMove. wstep. wstep.
  destruct (disabled (props w)); repeat wstep; rest_state.
Qed.

Lemma wp_Default_handleDrawEnd e (w : World L C) :
  lines_ok w ->
  wp draw_ok (Default_handleDrawEnd e) w (fun s w' => stroke_inv s w').
Proof.
  intros Hw. unfold Default_handleDrawEnd. wstep. wstep.
  destruct (disabled (props w)); wstep; rest_state.
Qed.

Lemma wp_Disabled_handle default (w : World L C) :
  lines_ok w ->
  wp draw_ok default w (fun s w' => stroke_inv s w') ->
  wp draw_ok (Disabled_handle default) w (fun s w' => stroke_inv s w').
Proof.
  intros Hw Hd. unfold Disabled_handle. wstep. wstep.
  destruct (disabled (props w)); [wstep; rest_state | exact Hd].
Qed.

Lemma wp_as_value m (w : World L C) :
  wp draw_ok m w (fun s w' => stroke_inv s w') ->
  wp draw_ok (as_value m) w
     (fun v w' => forall s', v = VState s' -> stroke_inv s' w').
Proof.
  intros Hm. unfold as_value. wstep.
  eapply wp_mono; [exact Hm |].
  intros s w1 Hs. cbv beta in *. wstep. intros s' [= <-]. exact Hs.
Qed.

Lemma wp_keeps_strokes (m : M Value) (w : World L C) :
  wp draw_ok m w (fun v w' => forall s', v = VState s' -> stroke_inv s' w') ->
  keeps_strokes (m w).
Proof.
  intros [Hd Hs]. split; [| intros s' Hr; exact (Hs _ Hr s' eq_refl)].
  intros pts color radius eraser Hin.
  apply drawPoints_returns. rewrite Forall_forall in Hd.
  apply list_elem_of_In in Hin. exact (Hd _ Hin).
Qed.

(** X10.  The gesture states never make [drawPoints] throw.  If every
    saved line has at least two points and a stroke that has begun holds
    at least two points, then each of the four handlers, on every state
    and every event, calls [drawPoints] only with two points or more (on
    the stroke in progress and on the saved lines that a change of view
    redraws), and the state it returns finds the same again. *)
Theorem handlers_keep_strokes (s : GestureState) (e : Event)
    (shouldStartAtEdge : bool) (w : World L C) :
  stroke_inv s w ->
  keeps_strokes (handleMouseWheel s e w) /\
  keeps_strokes (handleDrawStart s e shouldStartAtEdge w) /\
  keeps_strokes (handleDrawMove s e w) /\
  keeps_strokes (handleDrawEnd s e w).
Proof.
  intros Hinv. pose proof (stroke_inv_lines s w Hinv) as Hw.
  assert (Hwheel : forall e',
            wp draw_ok (SUPPRESS_SCROLL e') w
               (fun v w' => forall s', v = VState s' -> stroke_inv s' w')).
  { intros e'. unfold SUPPRESS_SCROLL. wstep. wstep. wstep.
    unfold module_this. discriminate. }
  split; [| split; [| split]]; apply wp_keeps_strokes.
  - destruct s; cbn [handleMouseWheel]; try apply Hwheel.
    + apply wp_as_value, wp_Default_handleMouseWheel, Hw.
    + apply wp_as_value, wp_Disabled_handle;
        [exact Hw | apply wp_Default_handleMouseWheel, Hw].
  - unfold handleDrawStart. apply wp_as_value. destruct s.
    + apply wp_Default_handleDrawStart, Hw.
    + apply wp_Disabled_handle;
        [exact Hw | apply wp_Default_handleDrawStart, Hw].
    + apply wp_Pan_handleDrawStart, Hw.
    + apply wp_WaitForPinch_handleDrawStart, Hw.
    + apply wp_ScaleOrPan_handleDrawStart, Hw.
    + wstep. rest_state.
    + wstep. rest_state.
    + wstep. eapply wp_mono;
        [apply wp_Drawing_handleDrawStart, drawing_ok_stroke_inv, Hinv |].
      intros b w1 Hw1. cbv beta in *. wstep. apply stroke_inv_drawing, Hw1.
  - unfold handleDrawMove. apply wp_as_value. destruct s.
    + apply wp_Default_handleDrawMove, Hw.
    + apply wp_Disabled_handle;
        [exact Hw | apply wp_Default_handleDrawMove, Hw].
    + apply wp_Pan_handleDrawMove, Hw.
    + apply wp_WaitForPinch_handleDrawMove, Hw.
    + apply wp_ScaleOrPan_handleDrawMove, Hw.
    + apply wp_TouchPan_handleDrawMove, Hw.
    + apply wp_TouchScale_handleDrawMove, Hw.
    + wstep. eapply wp_mono;
        [apply wp_Drawing_handleDrawMove, drawing_ok_stroke_inv, Hinv |].
      intros b w1 Hw1. cbv beta in *. wstep. apply stroke_inv_drawing, Hw1.
  - unfold handleDrawEnd. apply wp_as_value. destruct s.
    + apply wp_Default_handleDrawEnd, Hw.
    + apply wp_Disabled_handle;
        [exact Hw | apply wp_Default_handleDrawEnd, Hw].
    + wstep. rest_state.
    + apply wp_WaitForPinch_handleDrawEnd, Hw.
    + wstep. rest_state.
    + wstep. rest_state.
    + wstep. rest_state.
    + apply wp_Drawing_handleDrawEnd, drawing_ok_stroke_inv, Hinv.
Qed.

(** *** Saved lines under a change of view *)

Lemma simulateDrawingLines_lines ls : forall (w : World L C) r w' effs,
  simulateDrawingLines ls w = (r, w', effs) ->
  lines w' = lines w ++ map (resaved (props w)) (drawn_prefix ls) /\
  props w' = props w.
Proof.
  induction ls as [| l ls IH]; intros w r w' effs Hrun;
    cbn [simulateDrawingLines drawn_prefix] in *.
  - injection Hrun as _ <- _. cbn. rewrite app_nil_r. auto.
  - unfold bind at 1 in Hrun. rewrite run_drawPoints_run in Hrun.
    unfold drawable.
    destruct (Nat.leb_spec 2 (length (line_points l))) as [Hlong | Hshort].
    + unfold bind at 1, modify at 1 in Hrun. cbn iota beta in Hrun.
      unfold bind at 1 in Hrun. rewrite saveLine_run in Hrun.
      cbn [points set_points lines props] in Hrun.
      replace (length (line_points l) <? 2)%nat with false in Hrun
        by (symmetry; apply Nat.ltb_ge; exact Hlong).
      match type of Hrun with
      | context [simulateDrawingLines ls ?w1] =>
          destruct (simulateDrawingLines ls w1) as [[[u1 | |] w2] effs1]
            eqn:Hrest
      end.
      all: injection Hrun as _ <- _.
      all: destruct (IH _ _ _ _ Hrest) as [Hl Hp].
      all: cbn [lines props set_points set_lines map] in *.
      all: rewrite Hl, <- app_assoc.
      all: split; [reflexivity | exact Hp].
    + injection Hrun as _ <- _. cbn. rewrite app_nil_r. auto.
Qed.

Lemma drawn_prefix_all ls :
  forallb drawable ls = true -> drawn_prefix ls = ls.
Proof.
  induction ls as [| l ls IH]; [reflexivity |].
  cbn [forallb drawn_prefix]. intros [Hl Hls]%andb_prop.
  rewrite Hl, IH by exact Hls. reflexivity.
Qed.

Lemma line_kept_drawable ls :
  Forall line_kept ls -> forallb drawable ls = true.
Proof.
  induction 1 as [| l ls [Hl _] _ IH]; [reflexivity |].
  cbn [forallb]. rewrite IH, andb_true_r. apply Nat.leb_le. exact Hl.
Qed.

Lemma resaved_kept p l : line_kept l -> resaved p l = l.
Proof.
  intros (_ & Hc & Hnan & Hzero). destruct l as [pts c r].
  cbn [line_brushColor line_brushRadius] in *.
  unfold resaved, or_string, or_number.
  cbn [line_points line_brushColor line_brushRadius].
  rewrite Hnan, Hzero. cbn [orb].
  destruct (String.eqb_spec c ""); [contradiction | reflexivity].
Qed.

(** X11.  [applyView] saves the lines again one by one: each line of two
    points or more comes back with its points, its colour and its radius,
    except that an empty colour and a radius of 0 give way to the current
    props.  On the first line of fewer than two points [drawPoints] throws,
    and [applyView] with it: that line and every line after it are lost,
    since the list was emptied before the first line was drawn.  So
    [applyView] returns when every line has two points or more, and lines
    that have two points, a colour and a radius are then all kept, in
    order; the view and the props are not touched. *)
Theorem applyView_resaves_lines (w : World L C) :
  let r := applyView w in
  let w' := snd (fst r) in
  fst (fst r) = (if forallb drawable (lines w) then Returns tt else Throws) /\
  lines w' = map (resaved (props w)) (drawn_prefix (lines w)) /\
  (Forall line_kept (lines w) ->
   fst (fst r) = Returns tt /\ lines w' = lines w) /\
  props w' = props w /\ coordSystem w' = coordSystem w.
Proof.
  intros r w'.
  pose proof (simulateDrawingLines_ending (lines w) (set_lines [] w)) as He.
  pose proof (simulateDrawingLines_coordSystem (lines w) (set_lines [] w))
    as Hc.
  assert (Hrun : r =
            let '(u, w1, effs) :=
              simulateDrawingLines (lines w) (set_lines [] w) in
            (u, w1, ViewApplied :: effs)).
  { unfold r, applyView.
    unfold bind at 1, emit at 1. cbn iota beta.
    unfold bind at 1, get at 1. cbn iota beta.
    unfold bind at 1, modify at 1. cbn iota beta.
    destruct (simulateDrawingLines (lines w) (set_lines [] w))
      as [[[u | |] w1] effs]; reflexivity. }
  unfold w'. clearbody r. subst r.
  destruct (simulateDrawingLines (lines w) (set_lines [] w))
    as [[u w1] effs] eqn:Hsim.
  destruct (simulateDrawingLines_lines _ _ _ _ _ Hsim) as [Hl Hp].
  cbn [fst snd lines set_lines props coordSystem app] in *.
  assert (Hkept : Forall line_kept (lines w) ->
                  u = Returns tt /\ lines w1 = lines w).
  { intros Hk. pose proof (line_kept_drawable _ Hk) as Hall.
    rewrite Hall in He. split; [exact He |].
    rewrite Hl, drawn_prefix_all by exact Hall. clear -Hk.
    induction Hk as [| l ls Hk Hks IH]; [reflexivity |].
    cbn [map]. rewrite resaved_kept by exact Hk. f_equal. exact IH. }
  auto.
Qed.

(** *** The shape tools *)

(** X12.  With the Rectangle or the Circle tool every draw-move in
    [DrawingState] empties the list of saved lines and resets the view
    ([drawRect] and [drawCircle] go through [loadSaveData], which clears
    and returns before it reads the save data); the stroke in progress and
    the state are left as they are. *)
Theorem shape_tool_drops_lines (isDrawing : bool) (e : Event)
    (shouldStartAtEdge : bool) (w : World L C) :
  tool (props w) = "Rectangle"%string \/ tool (props w) = "Circle"%string ->
  let p := viewPointFromEvent (coordSystem w) e in
  Drawing_handleDrawMove isDrawing e shouldStartAtEdge w =
  (Returns isDrawing,
   set_coordSystem (cs_resetView (coordSystem w))
     (set_lines [] (set_last (px p) (py p) w)),
   prevented e ++
   [ViewApplied;
    if (tool (props w) =? "Rectangle")%string then DrawRect else DrawCircle]).
Proof.
  intros Htool. cbv zeta.
  unfold Drawing_handleDrawMove, bind at 1. rewrite preventDefault_run.
  unfold bind at 1, get at 1. cbn iota beta.
  destruct Htool as [Htool | Htool]; rewrite Htool;
    cbn [String.eqb Ascii.eqb Bool.eqb negb andb];
    unfold bind, ret, emit, modify;
    rewrite ?drawRect_run; cbn iota beta; rewrite ?drawCircle_run;
    cbn [coordSystem set_last app]; reflexivity.
Qed.

(** X17.  With [clampLinesToDocument] set, [clampPointToDocument] puts
    every point whose coordinates are numbers inside the document: both
    coordinates of the result lie between 0 and the canvas width and
    height. *)
Theorem clampPointToDocument_inside (w : World L C) (point : Point) :
  clampLinesToDocument (props w) = true ->
  (0 <=? canvasWidth (props w))%float = true ->
  (0 <=? canvasHeight (props w))%float = true ->
  is_nan (px point) = false -> is_nan (py point) = false ->
  let p := clampPointToDocument w point in
  (0 <=? px p)%float = true /\ (px p <=? canvasWidth (props w))%float = true /\
  (0 <=? py p)%float = true /\ (py p <=? canvasHeight (props w))%float = true.
Proof.
  intros Hclamp Hw Hh Hx Hy. unfold clampPointToDocument. rewrite Hclamp.
  cbn [px py].
  destruct (clamp_inside (px point) _ Hx Hw) as [Hx0 Hx1].
  destruct (clamp_inside (py point) _ Hy Hh) as [Hy0 Hy1].
  auto.
Qed.

(** *** The states *)

(** X13.  While the [disabled] prop is set, the two resting states ignore
    every event: each of the four handlers returns a [DisabledState],
    leaves the component as it is and has no effect at all (the default
    action of the event is not prevented either). *)
Theorem disabled_is_inert (s : GestureState) (e : Event)
    (shouldStartAtEdge : bool) (w : World L C) :
  disabled (props w) = true -> resting s = true ->
  handleMouseWheel s e w = (Returns (VState DisabledState), w, []) /\
  handleDrawStart s e shouldStartAtEdge w
    = (Returns (VState DisabledState), w, []) /\
  handleDrawMove s e w = (Returns (VState DisabledState), w, []) /\
  handleDrawEnd s e w = (Returns (VState DisabledState), w, []).
Proof.
  intros Hd Hs. destruct s; try discriminate;
    unfold handleMouseWheel, handleDrawStart, handleDrawMove, handleDrawEnd,
           as_value, Disabled_handle, Default_handleMouseWheel,
           Default_handleDrawStart, Default_handleDrawMove,
           Default_handleDrawEnd, bind, get;
    cbn iota beta; rewrite Hd; repeat split; reflexivity.
Qed.

Lemma Drawing_handleDrawEnd_state isDrawing e (w : World L C) s' :
  fst (fst (Drawing_handleDrawEnd isDrawing e w)) = Returns s' ->
  s' = DefaultState.
Proof.
  rewrite Drawing_handleDrawEnd_run.
  destruct (Drawing_handleDrawMove isDrawing e false w)
    as [[[b | |] w2] effs2]; try discriminate.
  destruct (saveLine None None w2) as [[u w3] effs3].
  intros [= <-]. reflexivity.
Qed.

(** X14.  A draw-end that returns takes the machine to a resting state,
    and from every state in which a gesture is in progress it takes it to
    [DefaultState].  It does return from every state other than
    [WaitForPinchState] and [DrawingState]; the draw-end of these two goes
    through a last draw-move ([WaitForPinchState] replays its buffered
    points before), which can throw and, with the FloodFill tool, never
    return. *)
Theorem draw_end_returns_to_rest (s : GestureState) (e : Event)
    (w : World L C) :
  (forall v,
     fst (fst (handleDrawEnd s e w)) = Returns v ->
     exists s',
       v = VState s' /\ resting s' = true /\
       (resting s = false -> s' = DefaultState)) /\
  (match s with
   | WaitForPinchState _ | DrawingState _ => True
   | _ => exists v, fst (fst (handleDrawEnd s e w)) = Returns v
   end).
Proof.
  unfold handleDrawEnd, as_value. split.
  - intros v. destruct s.
    + unfold Default_handleDrawEnd, bind, get. cbn iota beta.
      destruct (disabled (props w)); intros [= <-]; eexists;
        (split; [reflexivity | split; [reflexivity | intros [=]]]).
    + unfold Disabled_handle, Default_handleDrawEnd, bind, get.
      cbn iota beta.
      destruct (disabled (props w)) eqn:Hd; cbn iota beta; rewrite ?Hd;
        intros [= <-]; eexists;
        (split; [reflexivity | split; [reflexivity | intros [=]]]).
    + intros [= <-]. exists DefaultState. repeat split.
    + unfold WaitForPinch_handleDrawEnd, bind at 1 2.
      destruct (issueDeferredPoints s w) as [[[drawing | |] w1] effs1];
        try discriminate.
      pose proof (Drawing_handleDrawEnd_state drawing e w1) as Hs.
      destruct (Drawing_handleDrawEnd drawing e w1)
        as [[[s1 | |] w2] effs2]; try discriminate.
      intros [= <-]. rewrite (Hs s1 eq_refl).
      exists DefaultState. repeat split.
    + intros [= <-]. exists DefaultState. repeat split.
    + intros [= <-]. exists DefaultState. repeat split.
    + intros [= <-]. exists DefaultState. repeat split.
    + unfold bind at 1.
      pose proof (Drawing_handleDrawEnd_state isDrawing e w) as Hs.
      destruct (Drawing_handleDrawEnd isDrawing e w)
        as [[[s1 | |] w2] effs2]; try discriminate.
      intros [= <-]. rewrite (Hs s1 eq_refl).
      exists DefaultState. repeat split.
  - destruct s; try exact I; try (eexists; reflexivity).
    + unfold Default_handleDrawEnd, bind, get. cbn iota beta.
      destruct (disabled (props w)); eexists; reflexivity.
    + unfold Disabled_handle, Default_handleDrawEnd, bind, get.
      cbn iota beta.
      destruct (disabled (props w)) eqn:Hd; cbn iota beta; rewrite ?Hd;
        eexists; reflexivity.
Qed.

Lemma wp_drawing_state (m : M bool) (w : World L C) :
  wp (fun _ => True) (bind m (fun drawing => ret (DrawingState drawing))) w
     (fun s _ => plain s = true).
Proof.
  wstep. apply wp_any; [intros; exact I |].
  intros b w'. wstep. reflexivity.
Qed.

Lemma wp_plain_value m (w : World L C) :
  wp (fun _ => True) m w (fun s _ => plain s = true) ->
  forall s',
    fst (fst (as_value m w)) = Returns (VState s') -> plain s' = true.
Proof.
  intros [_ Hm] s'. unfold as_value, bind.
  destruct (m w) as [[[s1 | |] w1] effs]; try discriminate.
  cbn [fst snd ret] in *. intros [= <-]. exact (Hm s1 eq_refl).
Qed.

(** X15.  With pan and zoom switched off the machine stays among
    [DefaultState], [DisabledState] and [DrawingState]: from these states
    no handler returns a state that waits for a pinch, pans or scales. *)
Theorem without_pan_and_zoom_states_stay_plain (s : GestureState)
    (e : Event) (shouldStartAtEdge : bool) (w : World L C) :
  enablePanAndZoom (props w) = false -> plain s = true ->
  forall s',
    fst (fst (handleMouseWheel s e w)) = Returns (VState s') \/
    fst (fst (handleDrawStart s e shouldStartAtEdge w))
      = Returns (VState s') \/
    fst (fst (handleDrawMove s e w)) = Returns (VState s') \/
    fst (fst (handleDrawEnd s e w)) = Returns (VState s') ->
    plain s' = true.
Proof.
  intros Hpan Hs s'.
  assert (Hstart : forall sae,
            wp (fun _ => True) (Default_handleDrawStart e sae) w
               (fun s _ => plain s = true)).
  { intros sae. unfold Default_handleDrawStart. wstep. wstep.
    destruct (disabled (props w)); [wstep; reflexivity |].
    rewrite Hpan, andb_false_r.
    unfold new_WaitForPinchState. wstep. wstep. wstep. wstep.
    unfold WaitForPinch_handleDrawStart. wstep. wstep. wstep. wstep.
    cbn [props set_reads]. rewrite Hpan. cbn [negb].
    destruct (touches e) as [[| t0 ts] |]; apply wp_drawing_state. }
  assert (Hwheel : wp (fun _ => True) (Default_handleMouseWheel e) w
                      (fun s _ => plain s = true)).
  { unfold Default_handleMouseWheel. wstep. wstep.
    destruct (disabled (props w)); [wstep; reflexivity |].
    rewrite Hpan. cbn [andb]. wstep. reflexivity. }
  assert (Hmove : wp (fun _ => True) (Default_handleDrawMove e) w
                     (fun s _ => plain s = true)).
  { unfold Default_handleDrawMove. wstep. wstep.
    destruct (disabled (props w)); repeat wstep; reflexivity. }
  assert (Hend : wp (fun _ => True) (Default_handleDrawEnd e) w
                    (fun s _ => plain s = true)).
  { unfold Default_handleDrawEnd. wstep. wstep.
    destruct (disabled (props w)); wstep; reflexivity. }
  assert (Hdis : forall m,
            wp (fun _ => True) m w (fun s _ => plain s = true) ->
            wp (fun _ => True) (Disabled_handle m) w
               (fun s _ => plain s = true)).
  { intros m Hm. unfold Disabled_handle. wstep. wstep.
    destruct (disabled (props w)); [wstep; reflexivity | exact Hm]. }
  destruct s; try discriminate; cbn [handleMouseWheel];
    unfold handleDrawStart, handleDrawMove, handleDrawEnd;
    intros [Hv | [Hv | [Hv | Hv]]];
    try (rewrite SUPPRESS_SCROLL_run in Hv; discriminate);
    revert Hv; apply wp_plain_value; auto;
    try apply wp_drawing_state.
  split; [apply Forall_forall; intros; exact I |].
  intros s1 Hs1. rewrite (Drawing_handleDrawEnd_state _ _ _ _ Hs1).
  reflexivity.
Qed.

(** X16.  A second finger that arrives while the machine waits for a
    pinch discards what was buffered: after draw-moves [es] that kept the
    machine waiting, a draw-move with two touches or more takes it to
    [ScaleOrPanState], with the two touches and the current view as
    baseline, and the component is as it was but for the clock readings;
    no buffered point has reached the stroke. *)
Theorem second_touch_discards_buffer (this : WaitForPinch)
    (es : list Event) (e : Event) (touch0 touch1 : ClientPoint)
    (more : list ClientPoint) (w : World L C) (p0 : ClientPoint) :
  first_point this es = Some p0 \/ es = [] ->
  (forall i ev, es !! i = Some ev ->
     single_touch ev = true /\
     (clock w (reads w + i) - startTimestamp this < PINCH_TIMEOUT_MS)%Z /\
     (manhattan (clientPointFromEvent ev) p0 <? TOUCH_SLOP)%float = true) ->
  touches e = Some (touch0 :: touch1 :: more) ->
  host_moves (es ++ [e]) (VState (WaitForPinchState this), w)
  = Some (VState (ScaleOrPanState
                    (mkScaleOrPan (getTouchMetrics touch0 touch1)
                       (mkPoint (cs_x (coordSystem w)) (cs_y (coordSystem w)))
                       (cs_scale (coordSystem w)) None)),
          set_reads (reads w + length es) w).
Proof.
  intros Hfirst Hstay Htouch.
  rewrite host_moves_app.
  rewrite (WaitForPinch_stays_run es this w p0 Hfirst Hstay).
  cbn [host_moves]. rewrite host_move_wait.
  unfold WaitForPinch_handleDrawMove, bind at 1.
  rewrite preventDefault_run, Htouch.
  unfold ScaleOrPan_handleDrawStart, bind at 1.
  rewrite preventDefault_run, Htouch.
  unfold bind, get, ret. cbn iota beta. reflexivity.
Qed.

End Calculus.

Lemma handlers_keep_strokes_witness :
  keeps_strokes
    (handleDrawMove (PanState (mkPan (mkClientPoint 5 5) (mkPoint 0 0)))
                    (mouse_event 9 5 true) (world_with_line "Pencil" true)).
Proof.
  apply (handlers_keep_strokes
           (PanState (mkPan (mkClientPoint 5 5) (mkPoint 0 0)))
           (mouse_event 9 5 true) false (world_with_line "Pencil" true)).
  split; [| exact I].
  unfold lines_ok, world_with_line, a_line. cbn [lines line_points].
  repeat constructor.
Defined.

Lemma line_kept_a_line : line_kept a_line.
Proof.
  unfold line_kept, a_line. cbn [line_points line_brushColor line_brushRadius].
  repeat split; [cbn; lia | discriminate | vm_compute; reflexivity ..].
Qed.

Lemma applyView_resaves_lines_witness :
  fst (fst (applyView (world_with_line "Pencil" true))) = Returns tt /\
  lines (snd (fst (applyView (world_with_line "Pencil" true)))) = [a_line].
Proof.
  apply (proj1 (proj2 (proj2 (applyView_resaves_lines
                                (world_with_line "Pencil" true))))).
  constructor; [exact line_kept_a_line | constructor].
Defined.

(** A line of one point between two lines of three: the redraw throws at
    it, and of the three lines the first alone is left. *)
Example applyView_loses_lines :
  let dot := mkLine [mkPoint 5 5] "#000000" 5 in
  let w := set_lines [a_line; dot; a_line] (world_with "Pencil" true 1) in
  fst (fst (applyView w)) = Throws /\
  lines (snd (fst (applyView w))) = [a_line].
Proof. split; vm_compute; reflexivity. Qed.

Lemma shape_tool_drops_lines_witness :
  lines (snd (fst (Drawing_handleDrawMove
                     false (mouse_event 50 60 false) false
                     (world_with_line "Rectangle" false)))) = [].
Proof.
  rewrite (shape_tool_drops_lines false (mouse_event 50 60 false) false
             (world_with_line "Rectangle" false)).
  - reflexivity.
  - left. reflexivity.
Defined.

Lemma disabled_is_inert_witness :
  handleDrawStart DefaultState (mouse_event 50 60 false) false disabled_world
  = (Returns (VState DisabledState), disabled_world, []).
Proof.
  apply (disabled_is_inert DefaultState (mouse_event 50 60 false) false
           disabled_world); reflexivity.
Defined.

Lemma without_pan_and_zoom_states_stay_plain_witness :
  fst (fst (handleDrawStart DefaultState
              (touch_event [mkClientPoint 5 5; mkClientPoint 9 9]) false
              (world_with "Pencil" false 1)))
    = Returns (VState (DrawingState true)) /\
  plain (DrawingState true) = true.
Proof.
  assert (Hs : fst (fst (handleDrawStart DefaultState
                (touch_event [mkClientPoint 5 5; mkClientPoint 9 9]) false
                (world_with "Pencil" false 1)))
               = Returns (VState (DrawingState true)))
    by (vm_compute; reflexivity).
  split; [exact Hs |].
  apply (without_pan_and_zoom_states_stay_plain
           DefaultState (touch_event [mkClientPoint 5 5; mkClientPoint 9 9])
           false (world_with "Pencil" false 1) eq_refl eq_refl
           (DrawingState true)).
  right. left. exact Hs.
Defined.

Lemma second_touch_discards_buffer_witness :
  let this := mkWaitForPinch None 1000 [] in
  let es := [touch_event [mkClientPoint 100 100];
             touch_event [mkClientPoint 103 101]] in
  let e := touch_event [mkClientPoint 103 101; mkClientPoint 150 100] in
  let w := world_with "Pencil" true 1 in
  host_moves (es ++ [e]) (VState (WaitForPinchState this), w)
  = Some (VState (ScaleOrPanState
                    (mkScaleOrPan
                       (getTouchMetrics (mkClientPoint 103 101)
                                        (mkClientPoint 150 100))
                       (mkPoint 0 0) 1 None)),
          set_reads 2 w).
Proof.
  intros this es e w.
  etransitivity;
    [apply (second_touch_discards_buffer this es e (mkClientPoint 103 101)
              (mkClientPoint 150 100) [] w (mkClientPoint 100 100))
    | reflexivity].
  - left. reflexivity.
  - intros i ev Hi.
    destruct i as [| [| i]]; cbn in Hi; try discriminate;
      injection Hi as <-; repeat split; vm_compute; reflexivity.
  - reflexivity.
Defined.

Lemma clampPointToDocument_inside_witness :
  let p := clampPointToDocument clamping_world (mkPoint 450 (-20)) in
  (0 <=? px p)%float = true /\ (px p <=? 400)%float = true /\
  (0 <=? py p)%float = true /\ (py p <=? 400)%float = true.
Proof.
  apply (clampPointToDocument_inside clamping_world (mkPoint 450 (-20)));
    vm_compute; reflexivity.
Defined.

(** The point [(450, -20)] is brought to the corner [(400, 0)]. *)
Example clampPointToDocument_corner :
  clampPointToDocument clamping_world (mkPoint 450 (-20)) = mkPoint 400 0.
Proof. vm_compute. reflexivity. Qed.

End StrokeFacts.
